(** * lua/types.h: conversions between Lua values and C++ values

    A shallow embedding of [src/lua/types.h] (namespace [lua]) over a small
    executable model of the part of the Lua 5.3 C API that the header calls,
    followed by the properties of the conversions.

    Layout:
    - [outcome]: results of code that may raise a Lua error or never return;
    - machine integers and IEEE-754 numbers ([int], [uint32_t], [size_t],
      [lua_Integer], [float], [double]);
    - the Lua state: a value stack and a store of tables;
    - the C API calls used by the header;
    - [Values<T>] and the [Type<T>] specialisations, one
      descriptor per specialisation;
    - the vocabulary of the properties;
    - the properties, and concrete runs.

    Conventions of the model. Lua numbers have the two subtypes of Lua 5.3,
    64-bit integers and floats. The stack is a list with the top first. A
    table is a reference into a store and holds its entries in the order in
    which [lua_next] visits them; [lua_rawset] adds a new key last, and the
    round trip of a map is proved for every order. Conversions between C++
    integer types wrap around. Stack overflow, memory errors, garbage
    collection and pseudo-indices are not modelled. *)

From Stdlib Require Import String Ascii.
From Stdlib Require Import ZArith List Bool Lia Permutation.
From Stdlib Require Import Sorted.
From Stdlib Require Import Floats.SpecFloat.
From Stdlib Require DecimalString.
Import ListNotations.

Open Scope string_scope.
Open Scope list_scope.
Open Scope Z_scope.

(** ** Outcomes

    A call into the Lua API either returns, or does not return normally (the
    API raises a Lua error, or its precondition is violated and the behaviour
    is undefined), or the model runs out of the fuel bounding a [while] loop. *)

Inductive outcome (A : Type) : Type :=
| Ret (a : A)
| Fault
| OutOfFuel.

Arguments Ret {A} a.
Arguments Fault {A}.
Arguments OutOfFuel {A}.

Definition bind {A B : Type} (m : outcome A) (k : A -> outcome B) : outcome B :=
  match m with
  | Ret a => k a
  | Fault => Fault
  | OutOfFuel => OutOfFuel
  end.

Declare Scope outcome_scope.
Delimit Scope outcome_scope with outcome.
Notation "x <- m ;; k" := (bind m (fun x => k))
  (at level 61, m at next level, right associativity) : outcome_scope.
Notation "' pat <- m ;; k" := (bind m (fun x => match x with pat => k end))
  (at level 61, pat pattern, m at next level, right associativity) : outcome_scope.
Open Scope outcome_scope.

Lemma bind_Ret_inv {A B} (m : outcome A) (k : A -> outcome B) (b : B) :
  bind m k = Ret b -> exists a, m = Ret a /\ k a = Ret b.
Proof. destruct m; simpl; intros E; try discriminate. eauto. Qed.

(** Inversion of a computation that returned. *)
Ltac inv_bind H :=
  let a := fresh "a" in
  let E := fresh "E" in
  apply bind_Ret_inv in H; destruct H as (a & E & H).

Ltac inv_Ret H := inversion H; subst; clear H.

(** ** Machine numbers *)

(** Conversion of an integer to [int] (32 bits, two's complement). *)
Definition to_int (z : Z) : Z := (z + 2 ^ 31) mod 2 ^ 32 - 2 ^ 31.

(** Conversion of an integer to [uint32_t]. *)
Definition to_uint32_t (z : Z) : Z := z mod 2 ^ 32.

(** Conversion of an integer to [size_t] (64 bits). *)
Definition to_size_t (z : Z) : Z := z mod 2 ^ 64.

Definition INT_MIN : Z := - 2 ^ 31.
Definition INT_MAX : Z := 2 ^ 31 - 1.
Definition UINT32_MAX : Z := 2 ^ 32 - 1.
Definition LUA_MININTEGER : Z := - 2 ^ 63.
Definition LUA_MAXINTEGER : Z := 2 ^ 63 - 1.

Definition is_int (z : Z) : Prop := INT_MIN <= z <= INT_MAX.
Definition is_uint32_t (z : Z) : Prop := 0 <= z <= UINT32_MAX.
Definition is_lua_Integer (z : Z) : Prop := LUA_MININTEGER <= z <= LUA_MAXINTEGER.

(** [double] is IEEE-754 binary64 and [float] is binary32, both as
    [spec_float]; [lua_Number] is [double]. *)
Definition double : Type := spec_float.
Definition float : Type := spec_float.

Definition is_double (x : spec_float) : Prop := valid_binary 53 1024 x = true.
Definition is_float (x : spec_float) : Prop := valid_binary 24 128 x = true.

(** Integer to [double], rounding to nearest even. *)
Definition double_of_Z (z : Z) : double := binary_normalize 53 1024 z 0 false.

(** [float] to [double] (exact) and [double] to [float] (rounding). *)
Definition double_of_float (x : float) : double :=
  match x with
  | S754_finite s m e => binary_normalize 53 1024 (cond_Zopp s (Zpos m)) e s
  | _ => x
  end.

Definition float_of_double (x : double) : float :=
  match x with
  | S754_finite s m e => binary_normalize 24 128 (cond_Zopp s (Zpos m)) e s
  | _ => x
  end.

(** The integer part of a finite number, rounded towards zero. *)
Definition trunc (x : spec_float) : option Z :=
  match x with
  | S754_zero _ => Some 0
  | S754_finite s m e =>
      Some (cond_Zopp s (if 0 <=? e then Zpos m * 2 ^ e else Zpos m / 2 ^ (- e)))
  | _ => None
  end.

(** The integer a number is equal to, when there is one. *)
Definition exact_Z (x : spec_float) : option Z :=
  match x with
  | S754_zero _ => Some 0
  | S754_finite s m e =>
      if 0 <=? e then Some (cond_Zopp s (Zpos m * 2 ^ e))
      else if Zpos m mod 2 ^ (- e) =? 0 then Some (cond_Zopp s (Zpos m / 2 ^ (- e)))
      else None
  | _ => None
  end.

(** C++ conversion of a [double] to [int]: truncation; undefined when the
    truncated value is not an [int]. *)
Definition int_of_double (x : double) : outcome Z :=
  match trunc x with
  | Some z => if (INT_MIN <=? z) && (z <=? INT_MAX) then Ret z else Fault
  | None => Fault
  end.

(** Lua's [lua_Number] to [lua_Integer] conversion in mode "exact"
    ([luaV_tointeger] with mode 0): only integral values in range. *)
Definition luaV_flttointns (x : double) : option Z :=
  match exact_Z x with
  | Some z => if (LUA_MININTEGER <=? z) && (z <=? LUA_MAXINTEGER) then Some z else None
  | None => None
  end.

(** ** C strings *)

Definition NUL : ascii := Ascii.zero.

(** The C string a [const char*] into a buffer denotes: the bytes before the
    first NUL. *)
Fixpoint c_str (s : string) : string :=
  match s with
  | EmptyString => EmptyString
  | String c s' => if Ascii.eqb c NUL then EmptyString else String c (c_str s')
  end.

(** [LUA_INTEGER_FMT] is "%lld". *)
Definition lua_integer2str (i : Z) : string :=
  DecimalString.NilZero.string_of_int (Z.to_int i).

(** ** Lua values and the Lua state *)

(** A Lua value. Tables, functions, userdata and threads are references;
    a table reference is a position in the store of the state. *)
Inductive TValue : Type :=
| LNil
| LBoolean (b : bool)
| LInteger (i : Z)
| LFloat (x : double)
| LString (s : string)
| LTable (r : nat)
| LLightUserData (p : Z)
| LFunction (r : nat)
| LUserData (r : nat)
| LThread (r : nat).

Definition spec_float_eq_dec (x y : spec_float) : {x = y} + {x <> y}.
Proof. repeat decide equality. Defined.

Definition TValue_eq_dec (x y : TValue) : {x = y} + {x <> y}.
Proof.
  decide equality; try apply Z.eq_dec; try apply Nat.eq_dec;
    try apply Bool.bool_dec; try apply string_dec; apply spec_float_eq_dec.
Defined.

(** Raw equality of two values that are keys of a table or strings. *)
Definition luaV_rawequalobj (x y : TValue) : bool :=
  if TValue_eq_dec x y then true else false.

(** The entries of a table, in traversal order. Keys are pairwise different
    and normalised ([luaH_key]); no entry has value nil. *)
Definition Table : Type := list (TValue * TValue).

(** The state: the value stack of the running function, top of the stack
    first, and the store of tables. *)
Record State : Type := mkState {
  stack : list TValue;
  tables : list Table
}.

Definition set_stack (L : State) (s : list TValue) : State :=
  {| stack := s; tables := tables L |}.

(** What the embedding does not fix about the runtime: how a string is read
    as a number ([luaO_str2num]) and how a float is printed
    ([lua_Number2str] followed by the ".0" rule of [luaO_tostring]). *)
Class Runtime : Type := {
  luaO_str2num : string -> option (Z + double);
  tostringbuff_flt : double -> string
}.

(** The conversions of base/strings/utf_string_conversions.h, which
    [Type<base::string16>] calls; a [string16] is the list of its code units. *)
Class Base : Type := {
  UTF16ToUTF8 : list Z -> string;
  UTF8ToUTF16 : string -> list Z
}.

(** Basic type tags of lua.h. *)
Definition LUA_TNONE : Z := -1.
Definition LUA_TNIL : Z := 0.
Definition LUA_TBOOLEAN : Z := 1.
Definition LUA_TLIGHTUSERDATA : Z := 2.
Definition LUA_TNUMBER : Z := 3.
Definition LUA_TSTRING : Z := 4.
Definition LUA_TTABLE : Z := 5.
Definition LUA_TFUNCTION : Z := 6.
Definition LUA_TUSERDATA : Z := 7.
Definition LUA_TTHREAD : Z := 8.

Definition ttnov (v : TValue) : Z :=
  match v with
  | LNil => LUA_TNIL
  | LBoolean _ => LUA_TBOOLEAN
  | LInteger _ | LFloat _ => LUA_TNUMBER
  | LString _ => LUA_TSTRING
  | LTable _ => LUA_TTABLE
  | LLightUserData _ => LUA_TLIGHTUSERDATA
  | LFunction _ => LUA_TFUNCTION
  | LUserData _ => LUA_TUSERDATA
  | LThread _ => LUA_TTHREAD
  end.

(** *** Stack indices *)

Definition lua_gettop (L : State) : Z := Z.of_nat (length (stack L)).

(** The position, counted from the top, of the slot an index designates.
    A positive index above the top is acceptable and designates no slot; zero,
    a negative index below the bottom and pseudo-indices are outside the
    model. *)
Definition index2pos (L : State) (idx : Z) : outcome (option nat) :=
  let top := lua_gettop L in
  if 0 <? idx then
    Ret (if idx <=? top then Some (Z.to_nat (top - idx)) else None)
  else if (idx <? 0) && (- idx <=? top) then Ret (Some (Z.to_nat (- idx - 1)))
  else Fault.

Definition slot (L : State) (p : option nat) : option TValue :=
  match p with
  | Some n => nth_error (stack L) n
  | None => None
  end.

Definition index2addr (L : State) (idx : Z) : outcome (option TValue) :=
  p <- index2pos L idx ;; Ret (slot L p).

Definition lua_absindex (L : State) (idx : Z) : Z :=
  if 0 <? idx then idx else lua_gettop L + idx + 1.

Fixpoint list_set {A : Type} (n : nat) (a : A) (l : list A) : list A :=
  match l, n with
  | [], _ => []
  | _ :: l', O => a :: l'
  | b :: l', S n' => b :: list_set n' a l'
  end.

(** *** Stack manipulation *)

Definition lua_push (L : State) (v : TValue) : State := set_stack L (v :: stack L).

Definition lua_settop (L : State) (idx : Z) : outcome State :=
  let top := lua_gettop L in
  if 0 <=? idx then
    Ret (set_stack L (repeat LNil (Z.to_nat (idx - top))
                      ++ skipn (Z.to_nat (top - idx)) (stack L)))
  else if - (idx + 1) <=? top then
    Ret (set_stack L (skipn (Z.to_nat (- (idx + 1))) (stack L)))
  else Fault.

Definition lua_pop (L : State) (n : Z) : outcome State := lua_settop L (- n - 1).

(** *** Pushing values *)

Definition lua_pushnil (L : State) : State := lua_push L LNil.
Definition lua_pushinteger (L : State) (n : Z) : State := lua_push L (LInteger n).
Definition lua_pushnumber (L : State) (n : double) : State := lua_push L (LFloat n).
Definition lua_pushboolean (L : State) (b : bool) : State := lua_push L (LBoolean b).
Definition lua_pushlightuserdata (L : State) (p : Z) : State :=
  lua_push L (LLightUserData p).

(** [lua_pushlstring(L, s, len)]: the [len] bytes at [s]. *)
Definition lua_pushlstring (L : State) (s : string) (len : nat) : State :=
  lua_push L (LString (substring 0 len s)).

(** [lua_pushstring(L, s)]: the C string at [s], or nil for a null pointer. *)
Definition lua_pushstring (L : State) (s : option string) : State :=
  match s with
  | Some s => lua_push L (LString (c_str s))
  | None => lua_push L LNil
  end.

(** *** Reading values *)

Definition lua_type (L : State) (idx : Z) : outcome Z :=
  o <- index2addr L idx ;;
  Ret (match o with Some v => ttnov v | None => LUA_TNONE end).

Definition lua_isboolean (L : State) (idx : Z) : outcome bool :=
  t <- lua_type L idx ;; Ret (t =? LUA_TBOOLEAN).

Definition lua_toboolean (L : State) (idx : Z) : outcome Z :=
  o <- index2addr L idx ;;
  Ret (match o with
       | Some (LBoolean false) | Some LNil | None => 0
       | _ => 1
       end).

Section Reading.
Context {rt : Runtime}.

(** [luaV_tointeger] in mode 0. *)
Definition luaV_tointeger (v : TValue) : option Z :=
  match v with
  | LInteger i => Some i
  | LFloat x => luaV_flttointns x
  | LString s =>
      match luaO_str2num s with
      | Some (inl i) => Some i
      | Some (inr x) => luaV_flttointns x
      | None => None
      end
  | _ => None
  end.

(** [luaV_tonumber_]. *)
Definition luaV_tonumber_ (v : TValue) : option double :=
  match v with
  | LInteger i => Some (double_of_Z i)
  | LFloat x => Some x
  | LString s =>
      match luaO_str2num s with
      | Some (inl i) => Some (double_of_Z i)
      | Some (inr x) => Some x
      | None => None
      end
  | _ => None
  end.

(** [lua_tointegerx(L, idx, &isnum)]: the result and [isnum]. *)
Definition lua_tointegerx (L : State) (idx : Z) : outcome (Z * Z) :=
  o <- index2addr L idx ;;
  Ret (match o with
       | Some v => match luaV_tointeger v with Some i => (i, 1) | None => (0, 0) end
       | None => (0, 0)
       end).

Definition lua_tointeger (L : State) (idx : Z) : outcome Z :=
  '(i, _) <- lua_tointegerx L idx ;; Ret i.

(** [lua_tonumberx(L, idx, &isnum)]: the result and [isnum]. *)
Definition lua_tonumberx (L : State) (idx : Z) : outcome (double * Z) :=
  o <- index2addr L idx ;;
  Ret (match o with
       | Some v =>
           match luaV_tonumber_ v with
           | Some x => (x, 1)
           | None => (S754_zero false, 0)
           end
       | None => (S754_zero false, 0)
       end).

(** [luaO_tostring]: the string a number is converted to. *)
Definition luaO_tostring (v : TValue) : option string :=
  match v with
  | LInteger i => Some (lua_integer2str i)
  | LFloat x => Some (tostringbuff_flt x)
  | _ => None
  end.

(** [lua_tostring(L, idx)], that is [lua_tolstring(L, idx, NULL)]: the bytes
    of the string, or [None] for a null pointer. A number is converted to a
    string in its slot. *)
Definition lua_tostring (L : State) (idx : Z) : outcome (State * option string) :=
  p <- index2pos L idx ;;
  Ret (match p, slot L p with
       | _, Some (LString s) => (L, Some s)
       | Some n, Some v =>
           match luaO_tostring v with
           | Some s => (set_stack L (list_set n (LString s) (stack L)), Some s)
           | None => (L, None)
           end
       | _, _ => (L, None)
       end).

End Reading.

(** *** Tables *)

Definition is_nan (x : spec_float) : bool :=
  match x with S754_nan => true | _ => false end.

(** The key under which [luaH_set] files a value: a float with an exact
    integer value becomes that integer; nil and NaN raise an error. *)
Definition luaH_key (k : TValue) : outcome TValue :=
  match k with
  | LNil => Fault
  | LFloat x =>
      match luaV_flttointns x with
      | Some i => Ret (LInteger i)
      | None => if is_nan x then Fault else Ret k
      end
  | _ => Ret k
  end.


(** Assignment of a non-nil value: in place when the key is present, as a
    new last entry otherwise. *)
Fixpoint luaH_put (t : Table) (k v : TValue) : Table :=
  match t with
  | [] => [(k, v)]
  | (k', v') :: t' =>
      if luaV_rawequalobj k' k then (k', v) :: t' else (k', v') :: luaH_put t' k v
  end.

Fixpoint luaH_del (t : Table) (k : TValue) : Table :=
  match t with
  | [] => []
  | (k', v') :: t' =>
      if luaV_rawequalobj k' k then t' else (k', v') :: luaH_del t' k
  end.

(** The entries after key [k]; [None] when [k] is not a key of the table. *)
Fixpoint luaH_after (t : Table) (k : TValue) : option Table :=
  match t with
  | [] => None
  | (k', _) :: t' => if luaV_rawequalobj k' k then Some t' else luaH_after t' k
  end.

(** [luaH_next]: the entry after key [k], the first one for nil; an error
    ("invalid key to 'next'") when [k] is not a key of the table. *)
Definition luaH_next (t : Table) (k : TValue) : outcome (option (TValue * TValue)) :=
  match k with
  | LNil => Ret (hd_error t)
  | _ =>
      match luaH_after t k with
      | Some rest => Ret (hd_error rest)
      | None => Fault
      end
  end.

(** [lua_createtable(L, narr, nrec)]; the size hints only preallocate. *)
Definition lua_createtable (L : State) (narr nrec : Z) : State :=
  {| stack := LTable (length (tables L)) :: stack L;
     tables := tables L ++ [[]] |}.

(** [lua_rawset(L, idx)]: [t[k] = v] for the table at [idx], the value [v]
    on the top and the key [k] below it; pops both. *)
Definition lua_rawset (L : State) (idx : Z) : outcome State :=
  o <- index2addr L idx ;;
  match o, stack L with
  | Some (LTable r), v :: k :: rest =>
      match nth_error (tables L) r with
      | Some t =>
          k' <- luaH_key k ;;
          let t' := match v with LNil => luaH_del t k' | _ => luaH_put t k' v end in
          Ret {| stack := rest; tables := list_set r t' (tables L) |}
      | None => Fault
      end
  | _, _ => Fault
  end.

(** [lua_next(L, idx)]: pops a key and pushes the next key and value of the
    table at [idx], returning 1; at the end pushes nothing and returns 0.
    The index is resolved while the key is still on the stack. *)
Definition lua_next (L : State) (idx : Z) : outcome (State * Z) :=
  o <- index2addr L idx ;;
  match o, stack L with
  | Some (LTable r), k :: rest =>
      match nth_error (tables L) r with
      | Some t =>
          nx <- luaH_next t k ;;
          Ret (match nx with
               | Some (k', v') => (set_stack L (v' :: k' :: rest), 1)
               | None => (set_stack L rest, 0)
               end)
      | None => Fault
      end
  | _, _ => Fault
  end.

(** ** Helpers of the repository that types.h uses *)

(** Modelled from the spec: [StackAutoReset] of lua/stack_auto_reset.h, the
    scoped stack guard. It records the stack height when it is constructed
    and restores that height when the scope is left, on every return path. *)
Definition StackAutoReset {A : Type} (L : State)
    (scope : State -> outcome (State * A)) : outcome (State * A) :=
  let top_ := lua_gettop L in
  '(L', a) <- scope L ;;
  L'' <- lua_settop L' top_ ;;
  Ret (L'', a).

(** Modelled from the spec: [NewTable], which creates a new table with
    size hints for the array part and the hash part and leaves it on the top
    of the stack. *)
Definition NewTable (L : State) (arr rec : Z) : State := lua_createtable L arr rec.

(** Modelled from the spec: [RawSet], which writes one key-value pair into
    the table at [index]: it pushes the key, pushes the value and sets the
    field, leaving the stack as it was. [PushK] and [PushV] are the [Push] of
    the key and value types. *)
Definition RawSet {K V : Type} (PushK : State -> K -> outcome State)
    (PushV : State -> V -> outcome State)
    (L : State) (index : Z) (key : K) (value : V) : outcome State :=
  let index := lua_absindex L index in
  L <- PushK L key ;;
  L <- PushV L value ;;
  lua_rawset L index.

(** Modelled from the spec: the [Push] of a [size_t] key ("1-based key
    i+1", written as an integer). *)
Definition Push_size_t (L : State) (n : Z) : outcome State :=
  Ret (lua_pushinteger L n).

(** ** types.h *)

(** Possible lua types. *)
Inductive LuaType : Type :=
| None_
| Nil
| Number
| Boolean
| String_
| Table_
| Function
| UserData
| Thread
| LightUserData.

Definition LuaType_value (t : LuaType) : Z :=
  match t with
  | None_ => LUA_TNONE
  | Nil => LUA_TNIL
  | Number => LUA_TNUMBER
  | Boolean => LUA_TBOOLEAN
  | String_ => LUA_TSTRING
  | Table_ => LUA_TTABLE
  | Function => LUA_TFUNCTION
  | UserData => LUA_TUSERDATA
  | Thread => LUA_TTHREAD
  | LightUserData => LUA_TLIGHTUSERDATA
  end.

(** [static_cast<LuaType>] of a tag returned by [lua_type]. *)
Definition LuaType_of (tag : Z) : LuaType :=
  if tag =? LUA_TNIL then Nil
  else if tag =? LUA_TNUMBER then Number
  else if tag =? LUA_TBOOLEAN then Boolean
  else if tag =? LUA_TSTRING then String_
  else if tag =? LUA_TTABLE then Table_
  else if tag =? LUA_TFUNCTION then Function
  else if tag =? LUA_TUSERDATA then UserData
  else if tag =? LUA_TTHREAD then Thread
  else if tag =? LUA_TLIGHTUSERDATA then LightUserData
  else None_.

Definition LuaType_eqb (a b : LuaType) : bool := LuaType_value a =? LuaType_value b.

(** Thin wrapper of lua_type. *)
Definition GetType (state : State) (index : Z) : outcome LuaType :=
  t <- lua_type state index ;; Ret (LuaType_of t).



(** *** [Values]: how many lua values a type represents *)

(** The C++ types that matter to template selection. *)
#[warnings="-register-all"]
Inductive CppType : Type :=
| Void
| Int
| UInt32
| Float
| Double
| Bool
| NullPtr
| VoidPtr
| StringPiece
| StdString
| String16
| CString
| CharArray (n : nat)
| Const (T : CppType)
| LRef (T : CppType)
| Tuple (ArgTypes : list CppType)
| Vector (T : CppType)
| Map (K V : CppType)
| Class (id : string).

(** The primary template and its two specialisations. *)
Definition Values_count (T : CppType) : Z :=
  match T with
  | Void => 0
  | Tuple ArgTypes => Z.of_nat (length ArgTypes)
  | _ => 1
  end.

(** *** [Type]: how C++ types and lua types are converted *)

(** What a specialisation [Type<T>] provides: [name], [Push] and [To].
    [To] takes the value of [*out] before the call and returns the state, the
    result and the value of [*out] after the call; its first argument bounds
    the iterations of the [while] loops of the container specialisations.
    [init] is the value of a variable declared as [T value;]. *)
Record Type_ (T : Type) : Type := {
  name : string;
  init : T;
  Push : State -> T -> outcome State;
  To : nat -> State -> Z -> T -> outcome (State * bool * T)
}.

Arguments name {T} _.
Arguments init {T} _.
Arguments Push {T} _ _ _.
Arguments To {T} _ _ _ _ _.

Section Types.
Context {rt : Runtime} {base : Base}.

(** [Type<int>] *)
Definition Type_int_Push (state : State) (number : Z) : outcome State :=
  Ret (lua_pushinteger state number).

Definition Type_int_To (state : State) (index : Z) (out : Z)
  : outcome (State * bool * Z) :=
  '(r, success) <- lua_tointegerx state index ;;
  let ret := to_int r in
  let out := if negb (success =? 0) then ret else out in
  Ret (state, negb (success =? 0), out).

Definition Type_int : Type_ Z :=
  {| name := "integer"; init := 0;
     Push := Type_int_Push; To := fun _ => Type_int_To |}.

(** [Type<uint32_t>] *)
Definition Type_uint32_t_Push (state : State) (number : Z) : outcome State :=
  Ret (lua_pushinteger state number).

Definition Type_uint32_t_To (state : State) (index : Z) (out : Z)
  : outcome (State * bool * Z) :=
  '(r, success) <- lua_tointegerx state index ;;
  let ret := to_int r in
  let out := if negb (success =? 0) then to_uint32_t ret else out in
  Ret (state, negb (success =? 0), out).

Definition Type_uint32_t : Type_ Z :=
  {| name := "integer"; init := 0;
     Push := Type_uint32_t_Push; To := fun _ => Type_uint32_t_To |}.

(** [Type<float>] *)
Definition Type_float_Push (state : State) (number : float) : outcome State :=
  Ret (lua_pushnumber state (double_of_float number)).

Definition Type_float_To (state : State) (index : Z) (out : float)
  : outcome (State * bool * float) :=
  '(r, success) <- lua_tonumberx state index ;;
  let ret := float_of_double r in
  let out := if negb (success =? 0) then ret else out in
  Ret (state, negb (success =? 0), out).

Definition Type_float : Type_ float :=
  {| name := "number"; init := S754_zero false;
     Push := Type_float_Push; To := fun _ => Type_float_To |}.

(** [Type<double>]; [To] declares [int ret]. *)
Definition Type_double_Push (state : State) (number : double) : outcome State :=
  Ret (lua_pushnumber state number).

Definition Type_double_To (state : State) (index : Z) (out : double)
  : outcome (State * bool * double) :=
  '(r, success) <- lua_tonumberx state index ;;
  ret <- int_of_double r ;;
  let out := if negb (success =? 0) then double_of_Z ret else out in
  Ret (state, negb (success =? 0), out).

Definition Type_double : Type_ double :=
  {| name := "number"; init := S754_zero false;
     Push := Type_double_Push; To := fun _ => Type_double_To |}.

(** [Type<bool>] *)
Definition Type_bool_Push (state : State) (b : bool) : outcome State :=
  Ret (lua_pushboolean state b).

Definition Type_bool_To (state : State) (index : Z) (out : bool)
  : outcome (State * bool * bool) :=
  isb <- lua_isboolean state index ;;
  if negb isb then Ret (state, false, out)
  else
    b <- lua_toboolean state index ;;
    Ret (state, true, negb (b =? 0)).

Definition Type_bool : Type_ bool :=
  {| name := "boolean"; init := false;
     Push := Type_bool_Push; To := fun _ => Type_bool_To |}.

Definition Type_nullptr_t_Push (state : State) (_ : unit) : outcome State :=
  Ret (lua_pushnil state).

Definition Type_void_ptr_Push (state : State) (ptr : Z) : outcome State :=
  Ret (lua_pushlightuserdata state ptr).

(** [Type<base::StringPiece>]; a string piece is its bytes. The assignment
    [*out = str] builds the piece from a C string. *)
Definition Type_StringPiece_Push (state : State) (str : string) : outcome State :=
  Ret (lua_pushlstring state str (String.length str)).

Definition Type_StringPiece_To (state : State) (index : Z) (out : string)
  : outcome (State * bool * string) :=
  '(state, str) <- lua_tostring state index ;;
  match str with
  | None => Ret (state, false, out)
  | Some str => Ret (state, true, c_str str)
  end.

Definition Type_StringPiece : Type_ string :=
  {| name := "string"; init := "";
     Push := Type_StringPiece_Push; To := fun _ => Type_StringPiece_To |}.

(** [Type<std::string>] *)
Definition Type_string_Push (state : State) (str : string) : outcome State :=
  Ret (lua_pushlstring state str (String.length str)).

Definition Type_string_To (state : State) (index : Z) (out : string)
  : outcome (State * bool * string) :=
  '(state, str) <- lua_tostring state index ;;
  match str with
  | None => Ret (state, false, out)
  | Some str => Ret (state, true, c_str str)
  end.

Definition Type_string : Type_ string :=
  {| name := "string"; init := "";
     Push := Type_string_Push; To := fun _ => Type_string_To |}.

(** [Type<base::string16>] *)
Definition Type_string16_Push (state : State) (str : list Z) : outcome State :=
  Type_string_Push state (UTF16ToUTF8 str).

Definition Type_string16_To (state : State) (index : Z) (out : list Z)
  : outcome (State * bool * list Z) :=
  '(state, str) <- lua_tostring state index ;;
  match str with
  | None => Ret (state, false, out)
  | Some str => Ret (state, true, UTF8ToUTF16 (c_str str))
  end.

Definition Type_string16 : Type_ (list Z) :=
  {| name := "string"; init := [];
     Push := Type_string16_Push; To := fun _ => Type_string16_To |}.

(** [Type<const char*>]; a pointer is [None] when null and the C string it
    points to otherwise. *)
Definition Type_const_char_ptr_Push (state : State) (str : option string)
  : outcome State :=
  Ret (lua_pushstring state str).

Definition Type_const_char_ptr_To (state : State) (index : Z) (out : option string)
  : outcome (State * bool * option string) :=
  '(state, str) <- lua_tostring state index ;;
  match str with
  | None => Ret (state, false, out)
  | Some str => Ret (state, true, Some (c_str str))
  end.

Definition Type_const_char_ptr : Type_ (option string) :=
  {| name := "string"; init := None;
     Push := Type_const_char_ptr_Push; To := fun _ => Type_const_char_ptr_To |}.

Definition Type_const_char_array_Push (n : nat) (state : State) (str : string)
  : outcome State :=
  Ret (lua_pushlstring state str (n - 1)).

(** [Type<std::tuple<ArgTypes...>>] provides [name] only. *)
Definition Type_tuple_name : string := "tuple<>".

(** [Type<std::vector<T>>]; a vector is the list of its elements. *)
Fixpoint Type_vector_Push_for {T : Type} (d : Type_ T) (state : State) (i : Z)
    (vec : list T) : outcome State :=
  match vec with
  | [] => Ret state
  | vec_i :: vec' =>
      state <- RawSet Push_size_t (Push d) state (-1) (i + 1) vec_i ;;
      Type_vector_Push_for d state (i + 1) vec'
  end.

Definition Type_vector_Push {T : Type} (d : Type_ T) (state : State) (vec : list T)
  : outcome State :=
  let state := NewTable state (Z.of_nat (length vec)) 0 in
  Type_vector_Push_for d state 0 vec.

Fixpoint Type_vector_To_while {T : Type} (d : Type_ T) (fuel : nat) (state : State)
    (index : Z) (out : list T) : outcome (State * bool * list T) :=
  match fuel with
  | O => OutOfFuel
  | S fuel =>
      '(state, more) <- lua_next state index ;;
      if more =? 0 then Ret (state, true, out)
      else
        t <- GetType state (-2) ;;
        if negb (LuaType_eqb t Number) then Ret (state, false, out)
        else
          k <- lua_tointeger state (-2) ;;
          if negb (k =? to_int (to_size_t (Z.of_nat (length out) - 1)))
          then Ret (state, false, out)
          else
            '(state, ok, value) <- To d fuel state (-1) (init d) ;;
            if negb ok then Ret (state, false, out)
            else
              state <- lua_pop state 1 ;;
              Type_vector_To_while d fuel state index (out ++ [value])
  end.

Definition Type_vector_To {T : Type} (d : Type_ T) (fuel : nat) (state : State)
    (index : Z) (out : list T) : outcome (State * bool * list T) :=
  t <- GetType state index ;;
  if negb (LuaType_eqb t Table_) then Ret (state, false, out)
  else
    '(state, r) <- StackAutoReset state (fun state =>
      let state := lua_pushnil state in
      '(state, ok, out) <- Type_vector_To_while d fuel state index out ;;
      Ret (state, (ok, out))) ;;
    Ret (state, fst r, snd r).

Definition Type_vector {T : Type} (d : Type_ T) : Type_ (list T) :=
  {| name := "table"; init := [];
     Push := Type_vector_Push d; To := Type_vector_To d |}.

(** [Type<std::map<K, V>>]; a map is the list of its entries in increasing
    order of the keys, for the order [less] of the key type. *)
Fixpoint map_assign {K V : Type} (less : K -> K -> bool) (key : K) (value : V)
    (m : list (K * V)) : list (K * V) :=
  match m with
  | [] => [(key, value)]
  | (k, v) :: m' =>
      if less key k then (key, value) :: m
      else if less k key then (k, v) :: map_assign less key value m'
      else (k, value) :: m'
  end.

Fixpoint Type_map_Push_for {K V : Type} (dk : Type_ K) (dv : Type_ V)
    (state : State) (dict : list (K * V)) : outcome State :=
  match dict with
  | [] => Ret state
  | it :: dict' =>
      state <- RawSet (Push dk) (Push dv) state (-1) (fst it) (snd it) ;;
      Type_map_Push_for dk dv state dict'
  end.

Definition Type_map_Push {K V : Type} (dk : Type_ K) (dv : Type_ V)
    (state : State) (dict : list (K * V)) : outcome State :=
  let state := NewTable state 0 (Z.of_nat (length dict)) in
  Type_map_Push_for dk dv state dict.

Fixpoint Type_map_To_while {K V : Type} (less : K -> K -> bool)
    (dk : Type_ K) (dv : Type_ V) (fuel : nat) (state : State)
    (index : Z) (out : list (K * V)) : outcome (State * bool * list (K * V)) :=
  match fuel with
  | O => OutOfFuel
  | S fuel =>
      '(state, more) <- lua_next state index ;;
      if more =? 0 then Ret (state, true, out)
      else
        '(state, okk, key) <- To dk fuel state (-2) (init dk) ;;
        if negb okk then Ret (state, false, out)
        else
          '(state, okv, value) <- To dv fuel state (-1) (init dv) ;;
          if negb okv then Ret (state, false, out)
          else
            state <- lua_pop state 1 ;;
            Type_map_To_while less dk dv fuel state index
              (map_assign less key value out)
  end.

Definition Type_map_To {K V : Type} (less : K -> K -> bool)
    (dk : Type_ K) (dv : Type_ V) (fuel : nat) (state : State)
    (index : Z) (out : list (K * V)) : outcome (State * bool * list (K * V)) :=
  t <- GetType state index ;;
  if negb (LuaType_eqb t Table_) then Ret (state, false, out)
  else
    '(state, r) <- StackAutoReset state (fun state =>
      let state := lua_pushnil state in
      '(state, ok, out) <- Type_map_To_while less dk dv fuel state index out ;;
      Ret (state, (ok, out))) ;;
    Ret (state, fst r, snd r).

Definition Type_map {K V : Type} (less : K -> K -> bool)
    (dk : Type_ K) (dv : Type_ V) : Type_ (list (K * V)) :=
  {| name := "table"; init := [];
     Push := Type_map_Push dk dv; To := Type_map_To less dk dv |}.

End Types.

(** A runtime and a [base] for concrete runs: strings that are decimal
    integers are numbers, and a float prints as its integer part followed by
    ".0" when it has an exact integer value. *)
Definition sample_runtime : Runtime :=
  {| luaO_str2num := fun s =>
       match DecimalString.NilZero.int_of_string s with
       | Some d => Some (inl (Z.of_int d))
       | None => None
       end;
     tostringbuff_flt := fun x =>
       match exact_Z x with
       | Some z => (lua_integer2str z ++ ".0")%string
       | None => "nan"
       end |}.

Definition sample_base : Base :=
  {| UTF16ToUTF8 := fun u => string_of_list_ascii (map (fun c => ascii_of_N (Z.to_N c)) u);
     UTF8ToUTF16 := fun s => map (fun c => Z.of_N (N_of_ascii c)) (list_ascii_of_string s) |}.

(** * Vocabulary of the properties

    The predicates and functions in which the properties below are stated:
    what [To] and [Push] of a specialisation do to one slot, the invariant
    and the traversal of a table, the contents of a [std::map], and
    sequences of calls. *)

Section Vocabulary.
Context {rt : Runtime} {base : Base}.

(** No byte of the string is NUL. *)
Fixpoint no_NUL (s : string) : bool :=
  match s with
  | EmptyString => true
  | String c s' => negb (Ascii.eqb c NUL) && no_NUL s'
  end.

(** The integer a number slot is exactly equal to. *)
Definition exact_integer (v : TValue) : option Z :=
  match v with
  | LInteger i => Some i
  | LFloat x => luaV_flttointns x
  | _ => None
  end.

(** The string a slot is coerced to by [lua_tostring]: a string is itself
    and a number is printed; nothing else is coercible. *)
Definition string_form (o : option TValue) : option string :=
  match o with
  | Some (LString s) => Some s
  | Some v => luaO_tostring v
  | None => None
  end.

(** What [lua_tostring] leaves in the slot it reads. *)
Definition tostring_conv (x : TValue) : TValue :=
  match x with
  | LInteger i => LString (lua_integer2str i)
  | LFloat y => LString (tostringbuff_flt y)
  | _ => x
  end.

(** The result of [lua_tointeger] on a key. *)
Definition key_integer (k : TValue) : Z :=
  match luaV_tointeger k with Some i => i | None => 0 end.

(** [Reader d]: [To] of [d] decides from the value of the slot alone: it
    decodes the value with [dec], may convert the slot in place ([conv], as
    [lua_tostring] does) and touches nothing else. *)
Record Reader {T : Type} (d : Type_ T) : Type := {
  dec : TValue -> option T;
  conv : TValue -> TValue;
  To_reads : forall fuel L idx out p x,
    index2pos L idx = Ret (Some p) -> nth_error (stack L) p = Some x ->
    To d fuel L idx out =
      Ret (set_stack L (list_set p (conv x) (stack L)),
           match dec x with Some _ => true | None => false end,
           match dec x with Some v => v | None => out end)
}.

Arguments dec {T d} _ _.
Arguments conv {T d} _ _.
Arguments To_reads {T d} _.

(** [Marshal d]: in addition [Push] of [d] pushes the one value [enc v],
    for every native value [v] that is well formed and that Lua represents
    exactly ([wf]), and [To] reads [enc v] back as [v] without converting
    the slot. *)
Record Marshal {T : Type} (d : Type_ T) : Type := {
  reader : Reader d;
  enc : T -> TValue;
  wf : T -> Prop;
  Push_writes : forall L v, wf v -> Push d L v = Ret (lua_push L (enc v));
  dec_enc : forall v, wf v -> dec reader (enc v) = Some v;
  conv_enc : forall v, wf v -> conv reader (enc v) = enc v;
  enc_not_nil : forall v, wf v -> enc v <> LNil
}.

Arguments reader {T d} _.
Arguments enc {T d} _ _.
Arguments wf {T d} _ _.
Arguments Push_writes {T d} _.
Arguments dec_enc {T d} _.
Arguments conv_enc {T d} _.
Arguments enc_not_nil {T d} _.


(** The two contracts: [Push] adds one slot, [To] adds none, whatever it
    returns. *)
Definition Push_one {T : Type} (d : Type_ T) : Prop :=
  forall L v L', Push d L v = Ret L' -> lua_gettop L' = lua_gettop L + 1.

Definition To_zero {T : Type} (d : Type_ T) : Prop :=
  forall fuel L index out L' ok out',
    To d fuel L index out = Ret (L', ok, out') -> lua_gettop L' = lua_gettop L.

(** The specialisations of [Type] that provide [Push] and [To]. *)
Inductive Specialisation : forall T : Type, Type_ T -> Prop :=
| Spec_int : Specialisation Z Type_int
| Spec_uint32_t : Specialisation Z Type_uint32_t
| Spec_float : Specialisation float Type_float
| Spec_double : Specialisation double Type_double
| Spec_bool : Specialisation bool Type_bool
| Spec_StringPiece : Specialisation string Type_StringPiece
| Spec_string : Specialisation string Type_string
| Spec_string16 : Specialisation (list Z) Type_string16
| Spec_const_char_ptr : Specialisation (option string) Type_const_char_ptr
| Spec_vector (T : Type) (d : Type_ T) :
    Specialisation T d -> Specialisation (list T) (Type_vector d)
| Spec_map (K V : Type) (less : K -> K -> bool) (dk : Type_ K) (dv : Type_ V) :
    Specialisation K dk -> Specialisation V dv ->
    Specialisation (list (K * V)) (Type_map less dk dv).

(** The invariant of a table: the keys are pairwise different and not nil. *)
Definition Table_ok (t : Table) : Prop :=
  NoDup (map fst t) /\ ~ In LNil (map fst t).

(** Every table of the store satisfies the invariant. *)
Definition tables_ok (L : State) : Prop := Forall Table_ok (tables L).

(** Where a traversal stands: [done] has been visited and [k] is the key on
    the stack, nil before the first entry and the last key visited after. *)
Inductive cursor : Table -> TValue -> Prop :=
| cursor_first : cursor [] LNil
| cursor_at (done : Table) (k v : TValue) : cursor (done ++ [(k, v)]) k.

(** The table [t] is in the slot of the absolute index [index]. *)
Definition table_at (L : State) (index : Z) (t : Table) : Prop :=
  0 < index <= lua_gettop L
  /\ exists r,
       nth_error (stack L) (Z.to_nat (lua_gettop L - index)) = Some (LTable r)
       /\ nth_error (tables L) r = Some t.

(** The state in which a new table, the last of the store, is on the top. *)
Definition building (s : list TValue) (tb : list Table) (t : Table) : State :=
  {| stack := LTable (length tb) :: s; tables := tb ++ [t] |}.

(** The loop of [Type<std::vector<T>>::To] as a function of the entries
    still to visit, for elements read by [R]. *)
Fixpoint vector_To_spec {T : Type} {d : Type_ T} (R : Reader d) (entries : Table)
    (out : list T) : bool * list T :=
  match entries with
  | [] => (true, out)
  | (k, v) :: rest =>
      if negb (LuaType_eqb (LuaType_of (ttnov k)) Number) then (false, out)
      else if negb (key_integer k =? to_int (to_size_t (Z.of_nat (length out) - 1)))
      then (false, out)
      else
        match dec R v with
        | Some value => vector_To_spec R rest (out ++ [value])
        | None => (false, out)
        end
  end.

(** The loop of [Type<std::map<K, V>>::To] as a function of the entries
    still to visit, for keys read by [RK] and values read by [RV]. *)
Fixpoint map_To_spec {K V : Type} {dk : Type_ K} {dv : Type_ V}
    (less : K -> K -> bool) (RK : Reader dk) (RV : Reader dv)
    (entries : Table) (out : list (K * V)) : bool * list (K * V) :=
  match entries with
  | [] => (true, out)
  | (k, v) :: rest =>
      match dec RK k with
      | None => (false, out)
      | Some key =>
          match dec RV v with
          | None => (false, out)
          | Some value => map_To_spec less RK RV rest (map_assign less key value out)
          end
      end
  end.

(** The assignments [out[key] = value] of a list of pairs, in order. *)
Definition map_assign_all {K V : Type} (less : K -> K -> bool)
    (ps : list (K * V)) (out : list (K * V)) : list (K * V) :=
  fold_left (fun m p => map_assign less (fst p) (snd p) m) ps out.

(** The entries [Type<std::vector<T>>::Push] writes for the elements that
    follow position [i]. *)
Fixpoint vector_entries {T : Type} {d : Type_ T} (M : Marshal d) (i : Z)
    (vec : list T) : Table :=
  match vec with
  | [] => []
  | v :: vec' => (LInteger (i + 1), enc M v) :: vector_entries M (i + 1) vec'
  end.

(** The entries [Type<std::map<K, V>>::Push] writes. *)
Definition map_entries {K V : Type} {dk : Type_ K} {dv : Type_ V}
    (MK : Marshal dk) (MV : Marshal dv) (dict : list (K * V)) : Table :=
  map (fun it => (enc MK (fst it), enc MV (snd it))) dict.

(** The well-formed entries of a map: the key and the value are marshalled
    and the key is filed in a table as it is pushed. *)
Definition entry_ok {K V : Type} {dk : Type_ K} {dv : Type_ V}
    (MK : Marshal dk) (MV : Marshal dv) (it : K * V) : Prop :=
  wf MK (fst it) /\ wf MV (snd it)
  /\ luaH_key (enc MK (fst it)) = Ret (enc MK (fst it)).

(** [operator<] of a key type is a strict total order. *)
Record strict_total_order {K : Type} (less : K -> K -> bool) : Prop := {
  less_irrefl : forall a, less a a = false;
  less_trans : forall a b c, less a b = true -> less b c = true -> less a c = true;
  less_total : forall a b, less a b = false -> less b a = false -> a = b
}.

(** The invariant of a [std::map]: the keys increase strictly. *)
Definition map_sorted {K V : Type} (less : K -> K -> bool) (m : list (K * V)) : Prop :=
  StronglySorted (fun p q => less (fst p) (fst q) = true) m.





(** A call of this layer: [Push] or [To] of a specialisation, or one of the
    three [Push] without a [To]. *)
Inductive call : Type :=
| Call_Push (T : Type) (d : Type_ T) (value : T)
| Call_To (T : Type) (d : Type_ T) (fuel : nat) (index : Z) (out : T)
| Call_Push_nullptr_t
| Call_Push_void_ptr (ptr : Z)
| Call_Push_const_char_array (n : nat) (str : string).

Definition of_this_layer (c : call) : Prop :=
  match c with
  | Call_Push T d _ => Specialisation T d
  | Call_To T d _ _ _ => Specialisation T d
  | _ => True
  end.

Definition run_call (c : call) (L : State) : outcome State :=
  match c with
  | Call_Push T d value => Push d L value
  | Call_To T d fuel index out =>
      '(L', _, _) <- To d fuel L index out ;; Ret L'
  | Call_Push_nullptr_t => Type_nullptr_t_Push L tt
  | Call_Push_void_ptr ptr => Type_void_ptr_Push L ptr
  | Call_Push_const_char_array n str => Type_const_char_array_Push n L str
  end.

Fixpoint run (calls : list call) (L : State) : outcome State :=
  match calls with
  | [] => Ret L
  | c :: calls' => L' <- run_call c L ;; run calls' L'
  end.

(** The slots a call promises: one for [Push], none for [To]. *)
Definition contract (c : call) : Z :=
  match c with
  | Call_To _ _ _ _ _ => 0
  | _ => 1
  end.

Definition contracts (calls : list call) : Z :=
  fold_right (fun c n => contract c + n) 0 calls.

(** 1.5 and 1.0 as [double]. *)
Definition double_1_5 : double := S754_finite false 6755399441055744 (-52).
Definition double_1_0 : double := S754_finite false 4503599627370496 (-52).

(** The empty state, and states with one slot. *)
Definition empty_state : State := {| stack := []; tables := [] |}.

Definition one_slot (v : TValue) : State := {| stack := [v]; tables := [] |}.

Definition one_table (t : Table) : State := {| stack := [LTable 0]; tables := [t] |}.

End Vocabulary.

Arguments dec {T d} _ _.
Arguments conv {T d} _ _.
Arguments To_reads {T d} _.
Arguments reader {T d} _.
Arguments enc {T d} _ _.
Arguments wf {T d} _ _.
Arguments Push_writes {T d} _.
Arguments dec_enc {T d} _.
Arguments conv_enc {T d} _.
Arguments enc_not_nil {T d} _.

(** * Properties *)

(** ** Arithmetic of the integer conversions *)

Lemma to_int_id (z : Z) : is_int z -> to_int z = z.
Proof.
  unfold is_int, INT_MIN, INT_MAX, to_int. intros H.
  rewrite Z.mod_small; lia.
Qed.

Lemma to_uint32_t_id (z : Z) : is_uint32_t z -> to_uint32_t z = z.
Proof.
  unfold is_uint32_t, UINT32_MAX, to_uint32_t. intros H.
  rewrite Z.mod_small; lia.
Qed.

Lemma to_uint32_t_to_int (z : Z) : to_uint32_t (to_int z) = z mod 2 ^ 32.
Proof.
  unfold to_uint32_t, to_int.
  rewrite Zminus_mod_idemp_l. f_equal. lia.
Qed.

Lemma to_int_range (z : Z) : is_int (to_int z).
Proof.
  unfold is_int, INT_MIN, INT_MAX, to_int.
  pose proof (Z.mod_pos_bound (z + 2 ^ 31) (2 ^ 32) ltac:(lia)). lia.
Qed.

(** ** The stack *)

Lemma lua_gettop_push (L : State) (v : TValue) :
  lua_gettop (lua_push L v) = lua_gettop L + 1.
Proof. unfold lua_gettop, lua_push. simpl. lia. Qed.

Lemma lua_gettop_nonneg (L : State) : 0 <= lua_gettop L.
Proof. unfold lua_gettop. lia. Qed.

(** The slot an absolute index designates, counted from the bottom. *)
Lemma index2addr_abs (L : State) (idx : Z) :
  0 < idx <= lua_gettop L ->
  index2addr L idx = Ret (nth_error (stack L) (Z.to_nat (lua_gettop L - idx))).
Proof.
  intros H. unfold index2addr, index2pos.
  replace (0 <? idx) with true by (symmetry; apply Z.ltb_lt; lia).
  replace (idx <=? lua_gettop L) with true by (symmetry; apply Z.leb_le; lia).
  reflexivity.
Qed.

Lemma index2addr_rel (L : State) (idx : Z) :
  - lua_gettop L <= idx < 0 ->
  index2addr L idx = Ret (nth_error (stack L) (Z.to_nat (- idx - 1))).
Proof.
  intros H. unfold index2addr, index2pos.
  replace (0 <? idx) with false by (symmetry; apply Z.ltb_ge; lia).
  replace (idx <? 0) with true by (symmetry; apply Z.ltb_lt; lia).
  replace (- idx <=? lua_gettop L) with true by (symmetry; apply Z.leb_le; lia).
  reflexivity.
Qed.

(** The slot just pushed, by its absolute index and by the index -1. *)
Lemma index2addr_pushed_abs (L : State) (v : TValue) :
  index2addr (lua_push L v) (lua_gettop (lua_push L v)) = Ret (Some v).
Proof.
  rewrite index2addr_abs.
  - rewrite Z.sub_diag. reflexivity.
  - rewrite lua_gettop_push. pose proof (lua_gettop_nonneg L). lia.
Qed.

Lemma index2addr_pushed_rel (L : State) (v : TValue) :
  index2addr (lua_push L v) (-1) = Ret (Some v).
Proof.
  rewrite index2addr_rel.
  - reflexivity.
  - rewrite lua_gettop_push. pose proof (lua_gettop_nonneg L). lia.
Qed.

(** An index either designates no slot or a slot of the stack. *)
Lemma index2addr_inv (L : State) (idx : Z) (o : option TValue) :
  index2addr L idx = Ret o ->
  exists p, index2pos L idx = Ret p /\ slot L p = o.
Proof.
  unfold index2addr. intros H.
  apply bind_Ret_inv in H. destruct H as (p & Hp & E).
  exists p. split; [exact Hp | congruence].
Qed.

Lemma length_list_set {A : Type} (n : nat) (a : A) (l : list A) :
  length (list_set n a l) = length l.
Proof.
  revert n. induction l as [|b l IH]; intros [|n]; simpl; auto.
Qed.

(** ** C strings *)

Lemma c_str_string_of_uint (u : Decimal.uint) :
  c_str (DecimalString.NilEmpty.string_of_uint u)
  = DecimalString.NilEmpty.string_of_uint u.
Proof. induction u; simpl; congruence. Qed.

Lemma c_str_lua_integer2str (i : Z) :
  c_str (lua_integer2str i) = lua_integer2str i.
Proof.
  unfold lua_integer2str, DecimalString.NilZero.string_of_int,
    DecimalString.NilZero.string_of_uint.
  destruct (Z.to_int i) as [u|u]; destruct u; simpl;
    try reflexivity; rewrite ?c_str_string_of_uint; reflexivity.
Qed.

Lemma c_str_no_NUL (s : string) : no_NUL s = true -> c_str s = s.
Proof.
  induction s as [|c s IH]; simpl; [reflexivity|].
  destruct (Ascii.eqb c NUL); simpl; [discriminate|].
  intros H. now rewrite IH.
Qed.

Lemma substring_all (s : string) : substring 0 (String.length s) s = s.
Proof. induction s as [|c s IH]; simpl; congruence. Qed.

(** ** [Values] *)

(** C7. [Values<T>::count] is 0 for [void], the number of element types for
    a [std::tuple] (0 for the empty tuple), 1 for every other type, and is
    never negative. *)
Theorem Values_count_shape :
  Values_count Void = 0
  /\ (forall ArgTypes, Values_count (Tuple ArgTypes) = Z.of_nat (length ArgTypes))
  /\ (forall T, T <> Void -> (forall ArgTypes, T <> Tuple ArgTypes) ->
        Values_count T = 1)
  /\ (forall T, 0 <= Values_count T).
Proof.
  split; [reflexivity|]. split; [reflexivity|]. split.
  - intros T Hv Ht. destruct T; try reflexivity.
    + contradiction.
    + exfalso. eapply Ht. reflexivity.
  - intros T. destruct T; simpl; lia.
Qed.

Lemma Values_count_shape_witness :
  Values_count (Const Void) = 1 /\ Values_count (Tuple [Int; Bool; Double]) = 3.
Proof.
  destruct Values_count_shape as (_ & Htuple & Hother & _).
  split.
  - apply Hother; [discriminate | intros ArgTypes; discriminate].
  - apply (Htuple [Int; Bool; Double]).
Defined.

Section Scalars.
Context {rt : Runtime} {base : Base}.

(** ** [Type<bool>] *)

Lemma Type_bool_To_slot (L : State) (index : Z) (out : bool) (o : option TValue) :
  index2addr L index = Ret o ->
  Type_bool_To L index out =
    match o with
    | Some (LBoolean b) => Ret (L, true, b)
    | _ => Ret (L, false, out)
    end.
Proof.
  intros H. unfold Type_bool_To, lua_isboolean, lua_toboolean, lua_type.
  rewrite H. simpl.
  destruct o as [[| [|] | | | | | | | |]|]; reflexivity.
Qed.

(** C4. [Type<bool>::To] returns false and leaves [*out] alone whenever the
    type of the slot is not boolean, in particular for the number 0 and for
    the empty string; for the boolean false it returns true and sets [*out]
    to false. *)
Theorem Type_bool_To_strict (L : State) (index : Z) (out : bool) :
  (forall t, GetType L index = Ret t -> t <> Boolean ->
     Type_bool_To L index out = Ret (L, false, out))
  /\ (index2addr L index = Ret (Some (LInteger 0)) ->
        Type_bool_To L index out = Ret (L, false, out))
  /\ (index2addr L index = Ret (Some (LString "")) ->
        Type_bool_To L index out = Ret (L, false, out))
  /\ (index2addr L index = Ret (Some (LBoolean false)) ->
        Type_bool_To L index out = Ret (L, true, false)).
Proof.
  split; [|split; [|split]]; try (intros H; now rewrite (Type_bool_To_slot _ _ _ _ H)).
  intros t Ht Hne. unfold GetType, lua_type in Ht.
  destruct (index2addr L index) as [o| |] eqn:Ho; simpl in Ht; try discriminate.
  rewrite (Type_bool_To_slot _ _ _ _ Ho).
  destruct o as [[]|]; try reflexivity.
  exfalso. apply Hne. inversion Ht. reflexivity.
Qed.

(** ** [Type<uint32_t>] *)

Lemma luaV_tointeger_exact (x : TValue) (v : Z) :
  exact_integer x = Some v -> luaV_tointeger x = Some v.
Proof. destruct x; simpl; intros H; try discriminate; exact H. Qed.

(** C10. [Type<uint32_t>::To] on a slot holding the exact integer [v]
    succeeds with [*out] equal to [v] modulo 2^32, the [int] in between
    notwithstanding; hence a [uint32_t] pushed by [Type<uint32_t>::Push] is
    read back unchanged, also above [INT_MAX]. *)
Theorem Type_uint32_t_To_modular :
  (forall L index out x v,
     index2addr L index = Ret (Some x) -> exact_integer x = Some v ->
     Type_uint32_t_To L index out = Ret (L, true, v mod 2 ^ 32))
  /\ (forall L number out,
        is_uint32_t number ->
        exists L1,
          Type_uint32_t_Push L number = Ret L1
          /\ Type_uint32_t_To L1 (lua_gettop L1) out = Ret (L1, true, number)
          /\ Type_uint32_t_To L1 (-1) out = Ret (L1, true, number)).
Proof.
  assert (Hto : forall L index out x v,
     index2addr L index = Ret (Some x) -> exact_integer x = Some v ->
     Type_uint32_t_To L index out = Ret (L, true, v mod 2 ^ 32)).
  { intros L index out x v Hslot Hv.
    unfold Type_uint32_t_To, lua_tointegerx. rewrite Hslot. simpl.
    rewrite (luaV_tointeger_exact _ _ Hv). simpl.
    now rewrite to_uint32_t_to_int. }
  split; [exact Hto|].
  intros L number out Hn.
  exists (lua_pushinteger L number). split; [reflexivity|].
  assert (Hmod : number mod 2 ^ 32 = number)
    by (apply Z.mod_small; unfold is_uint32_t, UINT32_MAX in Hn; lia).
  split.
  - rewrite (Hto _ _ out (LInteger number) number);
      [now rewrite Hmod | apply index2addr_pushed_abs | reflexivity].
  - rewrite (Hto _ _ out (LInteger number) number);
      [now rewrite Hmod | apply index2addr_pushed_rel | reflexivity].
Qed.

(** ** The string specialisations *)

Lemma list_set_same {A : Type} (n : nat) (a : A) (l : list A) :
  nth_error l n = Some a -> list_set n a l = l.
Proof.
  revert n. induction l as [|b l IH]; intros [|n]; simpl; intros H;
    try discriminate; try congruence.
  now rewrite IH.
Qed.

Lemma set_stack_same (L : State) : set_stack L (stack L) = L.
Proof. destruct L; reflexivity. Qed.

(** [lua_tostring] returns the string form of the slot; the state changes
    only in the slot read, and only when a number is converted. *)
Lemma lua_tostring_slot (L : State) (idx : Z) (p : option nat) :
  index2pos L idx = Ret p ->
  lua_tostring L idx =
    Ret (match p, slot L p with
         | Some n, Some (LInteger i) =>
             set_stack L (list_set n (LString (lua_integer2str i)) (stack L))
         | Some n, Some (LFloat x) =>
             set_stack L (list_set n (LString (tostringbuff_flt x)) (stack L))
         | _, _ => L
         end, string_form (slot L p)).
Proof.
  intros Hp. unfold lua_tostring. rewrite Hp. simpl.
  destruct p as [n|]; simpl; [|reflexivity].
  destruct (nth_error (stack L) n) as [[]|]; reflexivity.
Qed.

Lemma lua_tostring_form (L : State) (idx : Z) (o : option TValue) :
  index2addr L idx = Ret o ->
  exists L', lua_tostring L idx = Ret (L', string_form o)
             /\ (string_form o = None -> L' = L).
Proof.
  intros H. apply index2addr_inv in H. destruct H as (p & Hp & <-).
  rewrite (lua_tostring_slot _ _ _ Hp). eexists. split; [reflexivity|].
  destruct p as [n|]; [|reflexivity]. simpl.
  destruct (nth_error (stack L) n) as [[]|]; simpl; intros E;
    try discriminate; reflexivity.
Qed.

(** C8. The string conversions follow [lua_tostring]: on a slot holding a
    string or a number (printed as a string) they return true, and they
    return false, leaving [*out] alone, exactly on the slots that are neither;
    [*out] receives the C string of the string form. *)
Theorem string_To_inherits_coercion (L : State) (index : Z) (o : option TValue) :
  index2addr L index = Ret o ->
  (forall s, string_form o = Some s ->
     (forall out, exists L', Type_string_To L index out = Ret (L', true, c_str s))
     /\ (forall out, exists L',
           Type_StringPiece_To L index out = Ret (L', true, c_str s))
     /\ (forall out, exists L',
           Type_const_char_ptr_To L index out = Ret (L', true, Some (c_str s))))
  /\ (string_form o = None ->
        (forall out, Type_string_To L index out = Ret (L, false, out))
        /\ (forall out, Type_StringPiece_To L index out = Ret (L, false, out))
        /\ (forall out, Type_const_char_ptr_To L index out = Ret (L, false, out)))
  /\ (forall i, o = Some (LInteger i) ->
        string_form o = Some (lua_integer2str i)
        /\ c_str (lua_integer2str i) = lua_integer2str i)
  /\ (forall x, o = Some (LFloat x) -> string_form o = Some (tostringbuff_flt x))
  /\ (string_form o = None <->
        forall v, o = Some v -> ttnov v <> LUA_TSTRING /\ ttnov v <> LUA_TNUMBER).
Proof.
  intros H. destruct (lua_tostring_form _ _ _ H) as (L' & E & Hsame).
  split; [|split; [|split; [|split]]].
  - intros s Hs. rewrite Hs in E.
    unfold Type_string_To, Type_StringPiece_To, Type_const_char_ptr_To.
    rewrite E. simpl. repeat split; intros out; exists L'; reflexivity.
  - intros Hn. rewrite Hn in E. specialize (Hsame Hn). subst L'.
    unfold Type_string_To, Type_StringPiece_To, Type_const_char_ptr_To.
    rewrite E. simpl. repeat split; intros out; reflexivity.
  - intros i ->. split; [reflexivity | apply c_str_lua_integer2str].
  - intros x ->. reflexivity.
  - split.
    + intros Hn v ->. destruct v; simpl in Hn; try discriminate;
        split; discriminate.
    + intros Hv. destruct o as [v|]; [|reflexivity].
      destruct (Hv v eq_refl) as [Hs Hnum].
      destruct v; simpl; try reflexivity; exfalso;
        solve [apply Hs; reflexivity | apply Hnum; reflexivity].
Qed.

(** ** Specialisations that read and write one slot *)

(** A slot that [To] reads back unchanged. *)
Lemma To_unchanged {T : Type} {d : Type_ T} (R : Reader d) fuel L idx out x :
  index2addr L idx = Ret (Some x) -> conv R x = x ->
  To d fuel L idx out =
    Ret (L, match dec R x with Some _ => true | None => false end,
         match dec R x with Some v => v | None => out end).
Proof.
  intros H Hc. apply index2addr_inv in H. destruct H as (p & Hp & Hs).
  destruct p as [p|]; [|discriminate]. simpl in Hs.
  rewrite (To_reads R fuel L idx out p x Hp Hs), Hc.
  now rewrite (list_set_same _ _ _ Hs), set_stack_same.
Qed.

(** The round trip of a marshalled type, at any index of the slot. *)
Lemma Marshal_round_trip {T : Type} {d : Type_ T} (M : Marshal d) fuel L idx out v :
  wf M v -> index2addr L idx = Ret (Some (enc M v)) ->
  To d fuel L idx out = Ret (L, true, v).
Proof.
  intros Hv H.
  rewrite (To_unchanged (reader M) fuel L idx out _ H (conv_enc M v Hv)).
  now rewrite (dec_enc M v Hv).
Qed.

Lemma Marshal_Push_To {T : Type} {d : Type_ T} (M : Marshal d) fuel L out v :
  wf M v ->
  exists L1, Push d L v = Ret L1
    /\ lua_gettop L1 = lua_gettop L + 1
    /\ To d fuel L1 (lua_gettop L1) out = Ret (L1, true, v)
    /\ To d fuel L1 (-1) out = Ret (L1, true, v).
Proof.
  intros Hv. exists (lua_push L (enc M v)).
  split; [apply (Push_writes M), Hv|]. split; [apply lua_gettop_push|].
  split; apply (Marshal_round_trip M); auto using index2addr_pushed_abs,
    index2addr_pushed_rel.
Qed.

Ltac reads_slot Hp Hs :=
  unfold index2addr; rewrite Hp; cbn [bind slot]; rewrite Hs; cbn [bind];
  rewrite ?(list_set_same _ _ _ Hs), ?set_stack_same.

Definition Reader_int : Reader Type_int.
Proof.
  refine {| dec := fun x => option_map to_int (luaV_tointeger x);
            conv := fun x => x |}.
  intros fuel L idx out p x Hp Hs.
  cbn [To Type_int]. unfold Type_int_To, lua_tointegerx. reads_slot Hp Hs.
  destruct (luaV_tointeger x); reflexivity.
Defined.

Definition Reader_uint32_t : Reader Type_uint32_t.
Proof.
  refine {| dec := fun x => option_map (fun i => to_uint32_t (to_int i))
                              (luaV_tointeger x);
            conv := fun x => x |}.
  intros fuel L idx out p x Hp Hs.
  cbn [To Type_uint32_t]. unfold Type_uint32_t_To, lua_tointegerx.
  reads_slot Hp Hs.
  destruct (luaV_tointeger x); reflexivity.
Defined.

Definition Reader_float : Reader Type_float.
Proof.
  refine {| dec := fun x => option_map float_of_double (luaV_tonumber_ x);
            conv := fun x => x |}.
  intros fuel L idx out p x Hp Hs.
  cbn [To Type_float]. unfold Type_float_To, lua_tonumberx. reads_slot Hp Hs.
  destruct (luaV_tonumber_ x); reflexivity.
Defined.

Definition Reader_bool : Reader Type_bool.
Proof.
  refine {| dec := fun x => match x with LBoolean b => Some b | _ => None end;
            conv := fun x => x |}.
  intros fuel L idx out p x Hp Hs.
  cbn [To Type_bool].
  rewrite (Type_bool_To_slot L idx out (Some x))
    by (unfold index2addr; rewrite Hp; simpl; now rewrite Hs).
  rewrite (list_set_same _ _ _ Hs), set_stack_same.
  destruct x; reflexivity.
Defined.

Lemma lua_tostring_reads (L : State) (idx : Z) (p : nat) (x : TValue) :
  index2pos L idx = Ret (Some p) -> nth_error (stack L) p = Some x ->
  lua_tostring L idx =
    Ret (set_stack L (list_set p (tostring_conv x) (stack L)),
         string_form (Some x)).
Proof.
  intros Hp Hs. rewrite (lua_tostring_slot _ _ _ Hp). simpl. rewrite Hs.
  destruct x; simpl; rewrite ?(list_set_same _ _ _ Hs), ?set_stack_same;
    reflexivity.
Qed.

Definition Reader_string : Reader Type_string.
Proof.
  refine {| dec := fun x => option_map c_str (string_form (Some x));
            conv := tostring_conv |}.
  intros fuel L idx out p x Hp Hs.
  cbn [To Type_string]. unfold Type_string_To.
  rewrite (lua_tostring_reads _ _ _ _ Hp Hs). cbn [bind].
  destruct (string_form (Some x)); reflexivity.
Defined.

Definition Reader_StringPiece : Reader Type_StringPiece.
Proof.
  refine {| dec := fun x => option_map c_str (string_form (Some x));
            conv := tostring_conv |}.
  intros fuel L idx out p x Hp Hs.
  cbn [To Type_StringPiece]. unfold Type_StringPiece_To.
  rewrite (lua_tostring_reads _ _ _ _ Hp Hs). cbn [bind].
  destruct (string_form (Some x)); reflexivity.
Defined.

Definition Reader_const_char_ptr : Reader Type_const_char_ptr.
Proof.
  refine {| dec := fun x => option_map (fun s => Some (c_str s))
                              (string_form (Some x));
            conv := tostring_conv |}.
  intros fuel L idx out p x Hp Hs.
  cbn [To Type_const_char_ptr]. unfold Type_const_char_ptr_To.
  rewrite (lua_tostring_reads _ _ _ _ Hp Hs). cbn [bind].
  destruct (string_form (Some x)); reflexivity.
Defined.

Definition Marshal_int : Marshal Type_int.
Proof.
  refine {| reader := Reader_int; enc := LInteger; wf := is_int |}.
  - reflexivity.
  - intros v Hv. simpl. now rewrite to_int_id.
  - reflexivity.
  - discriminate.
Defined.

Definition Marshal_uint32_t : Marshal Type_uint32_t.
Proof.
  refine {| reader := Reader_uint32_t; enc := LInteger; wf := is_uint32_t |}.
  - reflexivity.
  - intros v Hv. simpl. rewrite to_uint32_t_to_int. f_equal.
    apply Z.mod_small. unfold is_uint32_t, UINT32_MAX in Hv. lia.
  - reflexivity.
  - discriminate.
Defined.

Definition Marshal_bool : Marshal Type_bool.
Proof.
  refine {| reader := Reader_bool; enc := LBoolean; wf := fun _ => True |}.
  - reflexivity.
  - reflexivity.
  - reflexivity.
  - discriminate.
Defined.

(** A [std::string] may hold NUL bytes, which [To] does not read back. *)
Definition Marshal_string : Marshal Type_string.
Proof.
  refine {| reader := Reader_string; enc := LString;
            wf := fun s => no_NUL s = true |}.
  - intros L v _. cbn [Push Type_string]. unfold Type_string_Push, lua_pushlstring.
    now rewrite substring_all.
  - intros v Hv. simpl. now rewrite c_str_no_NUL.
  - reflexivity.
  - discriminate.
Defined.

Definition Marshal_StringPiece : Marshal Type_StringPiece.
Proof.
  refine {| reader := Reader_StringPiece; enc := LString;
            wf := fun s => no_NUL s = true |}.
  - intros L v _. cbn [Push Type_StringPiece].
    unfold Type_StringPiece_Push, lua_pushlstring. now rewrite substring_all.
  - intros v Hv. simpl. now rewrite c_str_no_NUL.
  - reflexivity.
  - discriminate.
Defined.

(** A [const char*] that is not null points to a C string. *)
Definition Marshal_const_char_ptr : Marshal Type_const_char_ptr.
Proof.
  refine {| reader := Reader_const_char_ptr;
            enc := fun p => match p with Some s => LString s | None => LNil end;
            wf := fun p => exists s, p = Some s /\ no_NUL s = true |}.
  - intros L v (s & -> & Hs). cbn [Push Type_const_char_ptr].
    unfold Type_const_char_ptr_Push, lua_pushstring. now rewrite c_str_no_NUL.
  - intros v (s & -> & Hs). simpl. now rewrite c_str_no_NUL.
  - intros v (s & -> & Hs). reflexivity.
  - intros v (s & -> & Hs). discriminate.
Defined.

(** ** Round trips of the scalar specialisations *)

(** [int], [uint32_t], [bool] and the strings without NUL are read back as
    they were pushed. *)
Lemma scalar_round_trips (fuel : nat) (L : State) :
  (forall v out, is_int v -> exists L1, Push Type_int L v = Ret L1
     /\ To Type_int fuel L1 (lua_gettop L1) out = Ret (L1, true, v))
  /\ (forall v out, is_uint32_t v -> exists L1, Push Type_uint32_t L v = Ret L1
     /\ To Type_uint32_t fuel L1 (lua_gettop L1) out = Ret (L1, true, v))
  /\ (forall v out, exists L1, Push Type_bool L v = Ret L1
     /\ To Type_bool fuel L1 (lua_gettop L1) out = Ret (L1, true, v))
  /\ (forall v out, no_NUL v = true -> exists L1, Push Type_string L v = Ret L1
     /\ To Type_string fuel L1 (lua_gettop L1) out = Ret (L1, true, v)).
Proof.
  repeat split; intros v out; intros.
  - destruct (Marshal_Push_To Marshal_int fuel L out v) as (L1 & ? & ? & ? & ?); eauto.
  - destruct (Marshal_Push_To Marshal_uint32_t fuel L out v) as (L1 & ? & ? & ? & ?); eauto.
  - destruct (Marshal_Push_To Marshal_bool fuel L out v I) as (L1 & ? & ? & ? & ?); eauto.
  - destruct (Marshal_Push_To Marshal_string fuel L out v) as (L1 & ? & ? & ? & ?); eauto.
Qed.

(** What [Type<double>::To] stores for a number slot: the number truncated
    to an [int] and converted back. *)
Lemma Type_double_To_truncates (L : State) (index : Z) (out x : double) (z : Z) :
  index2addr L index = Ret (Some (LFloat x)) ->
  trunc x = Some z -> is_int z ->
  Type_double_To L index out = Ret (L, true, double_of_Z z).
Proof.
  intros Hs Ht Hz. unfold Type_double_To, lua_tonumberx. rewrite Hs. simpl.
  unfold int_of_double. rewrite Ht.
  unfold is_int in Hz.
  replace (INT_MIN <=? z) with true by (symmetry; apply Z.leb_le; lia).
  replace (z <=? INT_MAX) with true by (symmetry; apply Z.leb_le; lia).
  reflexivity.
Qed.

(** C1, at the [double] 1.5: after [Type<double>::Push] of 1.5,
    [Type<double>::To] at the index of the pushed slot returns true with
    [*out] equal to 1.0, which is not the value pushed. *)
Theorem Type_double_round_trip_1_5 (L : State) (out : double) :
  is_double double_1_5
  /\ Type_double_Push L double_1_5 = Ret (lua_pushnumber L double_1_5)
  /\ Type_double_To (lua_pushnumber L double_1_5)
       (lua_gettop (lua_pushnumber L double_1_5)) out
     = Ret (lua_pushnumber L double_1_5, true, double_1_0)
  /\ double_1_0 <> double_1_5
  /\ SFeqb double_1_0 double_1_5 = false.
Proof.
  split; [reflexivity|]. split; [reflexivity|]. split; [|split].
  - rewrite (Type_double_To_truncates _ _ out double_1_5 1).
    + reflexivity.
    + apply index2addr_pushed_abs.
    + reflexivity.
    + unfold is_int, INT_MIN, INT_MAX. lia.
  - discriminate.
  - reflexivity.
Qed.

(** ** [To] and [*out] on failure *)










(** ** The containers: what [To] leaves in [*out] *)


Lemma StackAutoReset_inv {A : Type} (L : State) (scope : State -> outcome (State * A))
    (L'' : State) (a : A) :
  StackAutoReset L scope = Ret (L'', a) ->
  exists L', scope L = Ret (L', a) /\ lua_settop L' (lua_gettop L) = Ret L''.
Proof.
  unfold StackAutoReset. intros H.
  inv_bind H. destruct a0 as [L' a']. inv_bind H. inv_Ret H. eauto.
Qed.




(** ** Stack heights *)

Lemma lua_settop_height (L L' : State) (idx : Z) :
  0 <= idx -> lua_settop L idx = Ret L' -> lua_gettop L' = idx.
Proof.
  intros Hidx. unfold lua_settop.
  replace (0 <=? idx) with true by (symmetry; apply Z.leb_le; lia).
  intros H. inv_Ret H. unfold lua_gettop. simpl.
  rewrite length_app, repeat_length, length_skipn. lia.
Qed.

Lemma StackAutoReset_height {A : Type} (L : State)
    (scope : State -> outcome (State * A)) (L'' : State) (a : A) :
  StackAutoReset L scope = Ret (L'', a) -> lua_gettop L'' = lua_gettop L.
Proof.
  intros H. apply StackAutoReset_inv in H. destruct H as (L' & _ & H).
  eapply lua_settop_height; [apply lua_gettop_nonneg | exact H].
Qed.

Lemma lua_rawset_height (L L' : State) (idx : Z) :
  lua_rawset L idx = Ret L' -> lua_gettop L' = lua_gettop L - 2.
Proof.
  unfold lua_rawset. intros H. inv_bind H.
  destruct a as [[]|]; try discriminate.
  destruct (stack L) as [|v [|k rest]] eqn:Hs; try discriminate.
  destruct (nth_error (tables L) r); try discriminate.
  inv_bind H. inv_Ret H. unfold lua_gettop. rewrite Hs.
  cbn [stack length]. lia.
Qed.

Lemma lua_tostring_height (L L' : State) (idx : Z) (s : option string) :
  lua_tostring L idx = Ret (L', s) -> lua_gettop L' = lua_gettop L.
Proof.
  destruct (index2pos L idx) as [p| |] eqn:Hp.
  - rewrite (lua_tostring_slot _ _ _ Hp). intros H. inv_Ret H.
    destruct p as [n|]; [|reflexivity]. cbn [slot].
    destruct (nth_error (stack L) n) as [[]|]; try reflexivity;
      unfold lua_gettop, set_stack; cbn [stack]; now rewrite length_list_set.
  - unfold lua_tostring. rewrite Hp. discriminate.
  - unfold lua_tostring. rewrite Hp. discriminate.
Qed.

Lemma RawSet_height {K V : Type} (PushK : State -> K -> outcome State)
    (PushV : State -> V -> outcome State) :
  (forall L k L', PushK L k = Ret L' -> lua_gettop L' = lua_gettop L + 1) ->
  (forall L v L', PushV L v = Ret L' -> lua_gettop L' = lua_gettop L + 1) ->
  forall L index key value L',
    RawSet PushK PushV L index key value = Ret L' -> lua_gettop L' = lua_gettop L.
Proof.
  intros HK HV L index key value L' H. unfold RawSet in H.
  inv_bind H. inv_bind H.
  apply HK in E. apply HV in E0. apply lua_rawset_height in H. lia.
Qed.

Lemma Push_size_t_height (L : State) (n : Z) (L' : State) :
  Push_size_t L n = Ret L' -> lua_gettop L' = lua_gettop L + 1.
Proof. intros H. inv_Ret H. apply lua_gettop_push. Qed.

Lemma NewTable_height (L : State) (arr rec : Z) :
  lua_gettop (NewTable L arr rec) = lua_gettop L + 1.
Proof. unfold lua_gettop. simpl. lia. Qed.

Lemma Type_vector_Push_one {T : Type} (d : Type_ T) :
  Push_one d -> Push_one (Type_vector d).
Proof.
  intros Hd L vec L'. cbn [Push Type_vector]. unfold Type_vector_Push.
  rewrite <- (NewTable_height L (Z.of_nat (length vec)) 0).
  generalize (NewTable L (Z.of_nat (length vec)) 0) as L1.
  generalize 0 as i.
  induction vec as [|v vec IH]; intros i L1 H; simpl in H.
  - now inv_Ret H.
  - inv_bind H. apply IH in H. rewrite H.
    eapply RawSet_height; [apply Push_size_t_height | apply Hd | exact E].
Qed.

Lemma Type_map_Push_one {K V : Type} (less : K -> K -> bool)
    (dk : Type_ K) (dv : Type_ V) :
  Push_one dk -> Push_one dv -> Push_one (Type_map less dk dv).
Proof.
  intros Hk Hv L dict L'. cbn [Push Type_map]. unfold Type_map_Push.
  rewrite <- (NewTable_height L 0 (Z.of_nat (length dict))).
  generalize (NewTable L 0 (Z.of_nat (length dict))) as L1.
  induction dict as [|it dict IH]; intros L1 H; simpl in H.
  - now inv_Ret H.
  - inv_bind H. apply IH in H. rewrite H.
    eapply RawSet_height; [apply Hk | apply Hv | exact E].
Qed.

Lemma Type_vector_To_zero {T : Type} (d : Type_ T) : To_zero (Type_vector d).
Proof.
  intros fuel L index out L' ok out' H.
  cbn [To Type_vector] in H. unfold Type_vector_To in H.
  inv_bind H. destruct (negb (LuaType_eqb a Table_)).
  - now inv_Ret H.
  - inv_bind H. destruct a0 as [L1 r]. inv_Ret H.
    eapply StackAutoReset_height. exact E0.
Qed.

Lemma Type_map_To_zero {K V : Type} (less : K -> K -> bool)
    (dk : Type_ K) (dv : Type_ V) : To_zero (Type_map less dk dv).
Proof.
  intros fuel L index out L' ok out' H.
  cbn [To Type_map] in H. unfold Type_map_To in H.
  inv_bind H. destruct (negb (LuaType_eqb a Table_)).
  - now inv_Ret H.
  - inv_bind H. destruct a0 as [L1 r]. inv_Ret H.
    eapply StackAutoReset_height. exact E0.
Qed.

Ltac scalar_To_zero :=
  let H := fresh "H" in
  intros ? ? ? ? ? ? ? H; cbn [To] in H;
  repeat first
    [ inv_bind H; try match goal with a : (_ * _)%type |- _ => destruct a end
    | match type of H with
      | match ?x with _ => _ end = Ret _ => destruct x; try discriminate
      end ];
  try inv_Ret H; eauto using lua_tostring_height.

Lemma Specialisation_heights (T : Type) (d : Type_ T) :
  Specialisation T d -> Push_one d /\ To_zero d.
Proof.
  induction 1 as [| | | | | | | | |T d Hd [IHp IHt]
                 |K V less dk dv Hk [IHkp IHkt] Hv [IHvp IHvt]].
  - split; [intros L v L' H; inv_Ret H; apply lua_gettop_push|].
    unfold Type_int, Type_int_To. scalar_To_zero.
  - split; [intros L v L' H; inv_Ret H; apply lua_gettop_push|].
    unfold Type_uint32_t, Type_uint32_t_To. scalar_To_zero.
  - split; [intros L v L' H; inv_Ret H; apply lua_gettop_push|].
    unfold Type_float, Type_float_To. scalar_To_zero.
  - split; [intros L v L' H; inv_Ret H; apply lua_gettop_push|].
    unfold Type_double, Type_double_To. scalar_To_zero.
  - split; [intros L v L' H; inv_Ret H; apply lua_gettop_push|].
    unfold Type_bool, Type_bool_To. scalar_To_zero.
  - split; [intros L v L' H; inv_Ret H; apply lua_gettop_push|].
    unfold Type_StringPiece, Type_StringPiece_To. scalar_To_zero.
  - split; [intros L v L' H; inv_Ret H; apply lua_gettop_push|].
    unfold Type_string, Type_string_To. scalar_To_zero.
  - split; [intros L v L' H; inv_Ret H; apply lua_gettop_push|].
    unfold Type_string16, Type_string16_To. scalar_To_zero.
  - split.
    + intros L v L' H. inv_Ret H. destruct v; apply lua_gettop_push.
    + unfold Type_const_char_ptr, Type_const_char_ptr_To. scalar_To_zero.
  - split; [now apply Type_vector_Push_one | apply Type_vector_To_zero].
  - split; [now apply Type_map_Push_one | apply Type_map_To_zero].
Qed.

(** ** Tables and their traversal *)

Lemma luaV_rawequalobj_eq (x y : TValue) : luaV_rawequalobj x y = true <-> x = y.
Proof.
  unfold luaV_rawequalobj. destruct (TValue_eq_dec x y); split; congruence.
Qed.

Lemma luaV_rawequalobj_refl (x : TValue) : luaV_rawequalobj x x = true.
Proof. now apply luaV_rawequalobj_eq. Qed.

Lemma luaV_rawequalobj_neq (x y : TValue) : x <> y -> luaV_rawequalobj x y = false.
Proof.
  intros H. destruct (luaV_rawequalobj x y) eqn:E; [|reflexivity].
  apply luaV_rawequalobj_eq in E. contradiction.
Qed.

Lemma luaH_after_split (done rest : Table) (k v : TValue) :
  ~ In k (map fst done) ->
  luaH_after (done ++ (k, v) :: rest) k = Some rest.
Proof.
  induction done as [|[k0 v0] done IH]; simpl; intros H.
  - now rewrite luaV_rawequalobj_refl.
  - rewrite luaV_rawequalobj_neq by tauto. apply IH. tauto.
Qed.

Lemma luaH_put_fresh (t : Table) (k v : TValue) :
  ~ In k (map fst t) -> luaH_put t k v = t ++ [(k, v)].
Proof.
  induction t as [|[k0 v0] t IH]; simpl; intros H; [reflexivity|].
  rewrite luaV_rawequalobj_neq by tauto. f_equal. apply IH. tauto.
Qed.

Lemma luaH_next_cursor (done rest : Table) (k : TValue) :
  Table_ok (done ++ rest) -> cursor done k ->
  luaH_next (done ++ rest) k = Ret (hd_error rest).
Proof.
  intros [Hnd Hnil] Hc. destruct Hc as [|done k v].
  - reflexivity.
  - rewrite <- app_assoc in *. simpl app in *.
    rewrite map_app in Hnd, Hnil. simpl in Hnd, Hnil.
    assert (Hk : k <> LNil).
    { intros ->. apply Hnil. apply in_or_app. right. now left. }
    assert (Hfresh : ~ In k (map fst done)).
    { apply NoDup_remove_2 in Hnd. intros Hin. apply Hnd.
      apply in_or_app. now left. }
    unfold luaH_next. rewrite (luaH_after_split _ _ _ _ Hfresh).
    destruct k; try reflexivity. contradiction.
Qed.

(** Slots pushed above do not move what an absolute index designates. *)
Lemma index2addr_under (L : State) (scratch : list TValue) (index : Z) :
  0 < index <= lua_gettop L ->
  index2addr (set_stack L (scratch ++ stack L)) index = index2addr L index.
Proof.
  intros H. rewrite !index2addr_abs.
  - f_equal. unfold lua_gettop, set_stack in *. cbn [stack].
    rewrite length_app, nth_error_app2 by lia. f_equal. lia.
  - exact H.
  - unfold lua_gettop, set_stack in *. cbn [stack]. rewrite length_app. lia.
Qed.

Lemma table_at_slot (L : State) (index : Z) (t : Table) :
  table_at L index t ->
  exists r, index2addr L index = Ret (Some (LTable r))
            /\ nth_error (tables L) r = Some t.
Proof.
  intros (Hi & r & Hs & Ht). exists r. split; [|exact Ht].
  rewrite index2addr_abs by exact Hi. now rewrite Hs.
Qed.

Lemma GetType_table_at (L : State) (index : Z) (t : Table) :
  table_at L index t -> GetType L index = Ret Table_.
Proof.
  intros H. destruct (table_at_slot _ _ _ H) as (r & Hs & _).
  unfold GetType, lua_type. now rewrite Hs.
Qed.

(** One call of [lua_next] during a traversal of the table at [index]. *)
Lemma lua_next_cursor (L : State) (index : Z) (done rest : Table) (k : TValue) :
  table_at L index (done ++ rest) -> Table_ok (done ++ rest) -> cursor done k ->
  lua_next (set_stack L (k :: stack L)) index =
    Ret (match rest with
         | (k', v') :: _ => (set_stack L (v' :: k' :: stack L), 1)
         | [] => (set_stack L (stack L), 0)
         end).
Proof.
  intros Ht Hok Hc. destruct Ht as (Hi & r & Hs & Ht).
  unfold lua_next. change (k :: stack L) with ([k] ++ stack L).
  rewrite (index2addr_under L [k] index Hi), (index2addr_abs _ _ Hi), Hs.
  cbn [bind stack set_stack tables app]. rewrite Ht.
  rewrite (luaH_next_cursor _ _ _ Hok Hc). cbn [bind].
  destruct rest as [|[k' v'] rest]; reflexivity.
Qed.

(** Restoring the height discards the scratch slots. *)
Lemma lua_settop_scratch (L : State) (scratch : list TValue) :
  lua_settop (set_stack L (scratch ++ stack L)) (lua_gettop L) = Ret L.
Proof.
  unfold lua_settop.
  replace (0 <=? lua_gettop L) with true
    by (symmetry; apply Z.leb_le, lua_gettop_nonneg).
  unfold lua_gettop, set_stack. cbn [stack tables]. rewrite length_app.
  replace (Z.to_nat (Z.of_nat (length (stack L))
                     - Z.of_nat (length scratch + length (stack L)))) with O by lia.
  replace (Z.to_nat (Z.of_nat (length scratch + length (stack L))
                     - Z.of_nat (length (stack L)))) with (length scratch) by lia.
  rewrite skipn_app, skipn_all, Nat.sub_diag. simpl. now destruct L.
Qed.

Lemma lua_pop_1 (L : State) (v : TValue) (s : list TValue) :
  lua_pop (set_stack L (v :: s)) 1 = Ret (set_stack L s).
Proof.
  unfold lua_pop. change (- (1) - 1) with (-2).
  unfold lua_settop. change (0 <=? -2) with false. change (- (-2 + 1)) with 1.
  replace (1 <=? lua_gettop (set_stack L (v :: s))) with true.
  - reflexivity.
  - symmetry. apply Z.leb_le. unfold lua_gettop. cbn [stack set_stack length]. lia.
Qed.

(** A reader applied to the value on the top and to the key below it. *)
Lemma To_reads_top {T : Type} {d : Type_ T} (R : Reader d) fuel L (s : list TValue)
    (v : TValue) (out : T) :
  To d fuel (set_stack L (v :: s)) (-1) out =
    Ret (set_stack L (conv R v :: s),
         match dec R v with Some _ => true | None => false end,
         match dec R v with Some x => x | None => out end).
Proof.
  rewrite (To_reads R fuel _ (-1) out 0%nat v); [reflexivity| |reflexivity].
  unfold index2pos, lua_gettop. cbn [stack set_stack length].
  replace (- -1 <=? Z.of_nat (S (length s))) with true
    by (symmetry; apply Z.leb_le; lia).
  reflexivity.
Qed.

Lemma To_reads_below {T : Type} {d : Type_ T} (R : Reader d) fuel L (s : list TValue)
    (v k : TValue) (out : T) :
  To d fuel (set_stack L (v :: k :: s)) (-2) out =
    Ret (set_stack L (v :: conv R k :: s),
         match dec R k with Some _ => true | None => false end,
         match dec R k with Some x => x | None => out end).
Proof.
  rewrite (To_reads R fuel _ (-2) out 1%nat k); [reflexivity| |reflexivity].
  unfold index2pos, lua_gettop. cbn [stack set_stack length].
  replace (- -2 <=? Z.of_nat (S (S (length s)))) with true
    by (symmetry; apply Z.leb_le; lia).
  reflexivity.
Qed.

Lemma index2addr_below_top (L : State) (s : list TValue) (v k : TValue) :
  index2addr (set_stack L (v :: k :: s)) (-2) = Ret (Some k).
Proof.
  rewrite index2addr_rel; [reflexivity|].
  unfold lua_gettop. cbn [stack set_stack length]. lia.
Qed.

(** ** What [Type<std::vector<T>>::To] computes *)

Lemma Type_vector_To_while_spec {T : Type} {d : Type_ T} (R : Reader d)
    (L : State) (index : Z) :
  forall rest done k fuel out,
    table_at L index (done ++ rest) -> Table_ok (done ++ rest) -> cursor done k ->
    (length rest < fuel)%nat ->
    exists scratch,
      Type_vector_To_while d fuel (set_stack L (k :: stack L)) index out =
        Ret (set_stack L (scratch ++ stack L),
             fst (vector_To_spec R rest out), snd (vector_To_spec R rest out)).
Proof.
  induction rest as [|[k' v'] rest IH]; intros done k fuel out Ht Hok Hc Hfuel;
    (destruct fuel as [|fuel]; [simpl in Hfuel; lia|]);
    cbn [Type_vector_To_while];
    rewrite (lua_next_cursor _ _ _ _ _ Ht Hok Hc); cbn [bind].
  - exists []. reflexivity.
  - change (1 =? 0) with false. cbn iota.
    unfold GetType, lua_type, lua_tointeger, lua_tointegerx.
    rewrite index2addr_below_top. cbn [bind vector_To_spec].
    destruct (negb (LuaType_eqb (LuaType_of (ttnov k')) Number)).
    { exists [v'; k']. reflexivity. }
    fold (key_integer k').
    replace (let (i, _) := match luaV_tointeger k' with
                           | Some i => (i, 1)
                           | None => (0, 0)
                           end in Ret i) with (Ret (A := Z) (key_integer k'))
      by (unfold key_integer; destruct (luaV_tointeger k'); reflexivity).
    cbn [bind].
    destruct (negb (key_integer k' =? _)).
    { exists [v'; k']. reflexivity. }
    rewrite (To_reads_top R). cbn [bind].
    destruct (dec R v') as [value|]; cbn [negb].
    + rewrite lua_pop_1. cbn [bind].
      apply (IH (done ++ [(k', v')])).
      * now rewrite <- app_assoc.
      * now rewrite <- app_assoc.
      * constructor.
      * simpl in Hfuel. lia.
    + exists [conv R v'; k']. reflexivity.
Qed.

Lemma Type_vector_To_spec {T : Type} {d : Type_ T} (R : Reader d)
    (fuel : nat) (L : State) (index : Z) (t : Table) (out : list T) :
  table_at L index t -> Table_ok t -> (length t < fuel)%nat ->
  To (Type_vector d) fuel L index out =
    Ret (L, fst (vector_To_spec R t out), snd (vector_To_spec R t out)).
Proof.
  intros Ht Hok Hfuel. cbn [To Type_vector]. unfold Type_vector_To.
  rewrite (GetType_table_at _ _ _ Ht). cbn [bind]. change (negb _) with false.
  cbn iota. unfold StackAutoReset, lua_pushnil, lua_push.
  destruct (Type_vector_To_while_spec R L index t [] LNil fuel out Ht Hok
              cursor_first Hfuel) as (scratch & ->).
  cbn [bind]. rewrite lua_settop_scratch. reflexivity.
Qed.

(** ** What [Type<std::map<K, V>>::To] computes *)

Lemma Type_map_To_while_spec {K V : Type} {dk : Type_ K} {dv : Type_ V}
    (less : K -> K -> bool) (RK : Reader dk) (RV : Reader dv)
    (L : State) (index : Z) :
  forall rest done k fuel out,
    table_at L index (done ++ rest) -> Table_ok (done ++ rest) -> cursor done k ->
    (forall k' v', In (k', v') rest -> conv RK k' = k') ->
    (length rest < fuel)%nat ->
    exists scratch,
      Type_map_To_while less dk dv fuel (set_stack L (k :: stack L)) index out =
        Ret (set_stack L (scratch ++ stack L),
             fst (map_To_spec less RK RV rest out),
             snd (map_To_spec less RK RV rest out)).
Proof.
  induction rest as [|[k' v'] rest IH];
    intros done k fuel out Ht Hok Hc Hstable Hfuel;
    (destruct fuel as [|fuel]; [simpl in Hfuel; lia|]);
    cbn [Type_map_To_while];
    rewrite (lua_next_cursor _ _ _ _ _ Ht Hok Hc); cbn [bind].
  - exists []. reflexivity.
  - change (1 =? 0) with false. cbn iota.
    rewrite (To_reads_below RK). cbn [bind map_To_spec].
    rewrite (Hstable k' v') by now left.
    destruct (dec RK k') as [key|]; cbn [negb].
    2: { exists [v'; k']. reflexivity. }
    rewrite (To_reads_top RV). cbn [bind].
    destruct (dec RV v') as [value|]; cbn [negb].
    2: { exists [conv RV v'; k']. reflexivity. }
    rewrite lua_pop_1. cbn [bind].
    apply (IH (done ++ [(k', v')])).
    + now rewrite <- app_assoc.
    + now rewrite <- app_assoc.
    + constructor.
    + intros k'' v'' Hin. apply (Hstable k'' v''). now right.
    + simpl in Hfuel. lia.
Qed.

Lemma Type_map_To_spec {K V : Type} {dk : Type_ K} {dv : Type_ V}
    (less : K -> K -> bool) (RK : Reader dk) (RV : Reader dv)
    (fuel : nat) (L : State) (index : Z) (t : Table) (out : list (K * V)) :
  table_at L index t -> Table_ok t ->
  (forall k' v', In (k', v') t -> conv RK k' = k') ->
  (length t < fuel)%nat ->
  To (Type_map less dk dv) fuel L index out =
    Ret (L, fst (map_To_spec less RK RV t out), snd (map_To_spec less RK RV t out)).
Proof.
  intros Ht Hok Hstable Hfuel. cbn [To Type_map]. unfold Type_map_To.
  rewrite (GetType_table_at _ _ _ Ht). cbn [bind]. change (negb _) with false.
  cbn iota. unfold StackAutoReset, lua_pushnil, lua_push.
  destruct (Type_map_To_while_spec less RK RV L index t [] LNil fuel out Ht Hok
              cursor_first Hstable Hfuel) as (scratch & ->).
  cbn [bind]. rewrite lua_settop_scratch. reflexivity.
Qed.

(** ** What [Push] of the containers builds *)

Lemma list_set_last {A : Type} (l : list A) (a b : A) :
  list_set (length l) b (l ++ [a]) = l ++ [b].
Proof. induction l as [|c l IH]; simpl; congruence. Qed.

Lemma nth_error_last {A : Type} (l : list A) (a : A) :
  nth_error (l ++ [a]) (length l) = Some a.
Proof. induction l as [|c l IH]; simpl; auto. Qed.

Lemma index2addr_top (L : State) (v : TValue) (s : list TValue) :
  stack L = v :: s -> index2addr L (lua_gettop L) = Ret (Some v).
Proof.
  intros Hs. rewrite index2addr_abs.
  - rewrite Z.sub_diag, Hs. reflexivity.
  - unfold lua_gettop. rewrite Hs. cbn [length]. lia.
Qed.

(** [RawSet] at the index -1 of a table under construction, for a key and
    a value whose [Push] pushes [kx] and [vx]: the entry is assigned. *)
Lemma RawSet_building {K V : Type} (PushK : State -> K -> outcome State)
    (PushV : State -> V -> outcome State)
    (s : list TValue) (tb : list Table) (t : Table)
    (key : K) (value : V) (kx vx : TValue) :
  let L := building s tb t in
  PushK L key = Ret (lua_push L kx) ->
  PushV (lua_push L kx) value = Ret (lua_push (lua_push L kx) vx) ->
  luaH_key kx = Ret kx -> vx <> LNil ->
  RawSet PushK PushV L (-1) key value = Ret (building s tb (luaH_put t kx vx)).
Proof.
  intros L HK HV Hkey Hv. unfold RawSet. rewrite HK. cbn [bind].
  rewrite HV. cbn [bind].
  unfold lua_absindex. change (0 <? -1) with false. cbn iota.
  replace (lua_gettop L + -1 + 1) with (lua_gettop L) by lia.
  unfold lua_rawset.
  change (lua_push (lua_push L kx) vx) with (set_stack L ([vx; kx] ++ stack L)).
  rewrite index2addr_under
    by (unfold lua_gettop, L, building; cbn [stack length]; lia).
  rewrite (index2addr_top L (LTable (length tb)) s) by reflexivity.
  cbn [bind stack set_stack app tables L building].
  rewrite nth_error_last, Hkey. cbn [bind].
  rewrite list_set_last. unfold building.
  destruct vx; try reflexivity. contradiction.
Qed.

Lemma Type_vector_Push_for_spec {T : Type} {d : Type_ T} (M : Marshal d)
    (s : list TValue) (tb : list Table) :
  forall vec t i,
    Forall (wf M) vec ->
    (forall k, In k (map fst t) -> exists j, k = LInteger j /\ j <= i) ->
    Type_vector_Push_for d (building s tb t) i vec =
      Ret (building s tb (t ++ vector_entries M i vec)).
Proof.
  induction vec as [|v vec IH]; intros t i Hwf Hkeys; cbn [Type_vector_Push_for].
  - simpl. now rewrite app_nil_r.
  - inversion Hwf as [|? ? Hv Hvec]; subst.
    rewrite (RawSet_building Push_size_t (Push d) s tb t (i + 1) v
               (LInteger (i + 1)) (enc M v)).
    + cbn [bind]. rewrite luaH_put_fresh.
      * rewrite IH; [|exact Hvec|].
        -- cbn [vector_entries]. now rewrite <- app_assoc.
        -- intros k Hin. rewrite map_app in Hin. apply in_app_or in Hin.
           destruct Hin as [Hin|[<-|[]]].
           ++ destruct (Hkeys k Hin) as (j & -> & Hj). exists j. split; [reflexivity|lia].
           ++ exists (i + 1). split; [reflexivity|lia].
      * intros Hin. destruct (Hkeys _ Hin) as (j & Hj & Hle).
        inversion Hj. lia.
    + reflexivity.
    + apply (Push_writes M). exact Hv.
    + reflexivity.
    + apply (enc_not_nil M). exact Hv.
Qed.

Lemma Type_vector_Push_spec {T : Type} {d : Type_ T} (M : Marshal d)
    (L : State) (vec : list T) :
  Forall (wf M) vec ->
  Push (Type_vector d) L vec =
    Ret (building (stack L) (tables L) (vector_entries M 0 vec)).
Proof.
  intros Hwf. cbn [Push Type_vector]. unfold Type_vector_Push, NewTable.
  change (lua_createtable L (Z.of_nat (length vec)) 0)
    with (building (stack L) (tables L) []).
  rewrite (Type_vector_Push_for_spec M); [reflexivity | exact Hwf |].
  intros k [].
Qed.

Lemma map_fst_map_entries {K V : Type} {dk : Type_ K} {dv : Type_ V}
    (MK : Marshal dk) (MV : Marshal dv) (dict : list (K * V)) :
  map fst (map_entries MK MV dict) = map (enc MK) (map fst dict).
Proof. unfold map_entries. rewrite !map_map. reflexivity. Qed.

Lemma Type_map_Push_for_spec {K V : Type} {dk : Type_ K} {dv : Type_ V}
    (MK : Marshal dk) (MV : Marshal dv) (s : list TValue) (tb : list Table) :
  forall dict t,
    Forall (fun it => wf MK (fst it) /\ wf MV (snd it)
                      /\ luaH_key (enc MK (fst it)) = Ret (enc MK (fst it))) dict ->
    NoDup (map fst t ++ map fst (map_entries MK MV dict)) ->
    Type_map_Push_for dk dv (building s tb t) dict =
      Ret (building s tb (t ++ map_entries MK MV dict)).
Proof.
  induction dict as [|[key value] dict IH]; intros t Hwf Hnd;
    cbn [Type_map_Push_for].
  - simpl. now rewrite app_nil_r.
  - inversion Hwf as [|? ? (Hk & Hv & Hkey) Hdict]; subst. cbn [fst snd] in *.
    rewrite (RawSet_building (Push dk) (Push dv) s tb t key value
               (enc MK key) (enc MV value)).
    + cbn [bind]. rewrite luaH_put_fresh.
      * rewrite IH; [|exact Hdict|].
        -- cbn [map_entries map fst snd]. now rewrite <- app_assoc.
        -- rewrite map_app, <- app_assoc. exact Hnd.
      * cbn [map_entries map fst] in Hnd. apply NoDup_remove_2 in Hnd.
        intros Hin. apply Hnd. apply in_or_app. now left.
    + apply (Push_writes MK). exact Hk.
    + apply (Push_writes MV). exact Hv.
    + exact Hkey.
    + apply (enc_not_nil MV). exact Hv.
Qed.

(** The encoding of well-formed keys is injective. *)
Lemma enc_keys_NoDup {K : Type} {dk : Type_ K} (MK : Marshal dk) (keys : list K) :
  Forall (wf MK) keys -> NoDup keys -> NoDup (map (enc MK) keys).
Proof.
  induction keys as [|key keys IH]; simpl; intros Hwf Hnd; [constructor|].
  inversion Hwf as [|? ? Hk Hkeys]; subst.
  inversion Hnd as [|? ? Hnotin Hnd']; subst.
  constructor; [|now apply IH].
  intros Hin. apply Hnotin. apply in_map_iff in Hin.
  destruct Hin as (key' & Henc & Hin').
  assert (Hk' : wf MK key') by (rewrite Forall_forall in Hkeys; auto).
  assert (Some key' = Some key) as [= ->]
    by (rewrite <- (dec_enc MK key' Hk'), Henc; apply (dec_enc MK key Hk)).
  exact Hin'.
Qed.

Lemma entry_ok_keys {K V : Type} {dk : Type_ K} {dv : Type_ V}
    (MK : Marshal dk) (MV : Marshal dv) (dict : list (K * V)) :
  Forall (entry_ok MK MV) dict -> Forall (wf MK) (map fst dict).
Proof.
  induction 1 as [|it dict (Hk & _ & _) _ IH]; simpl; constructor; assumption.
Qed.

Lemma Type_map_Push_spec {K V : Type} {dk : Type_ K} {dv : Type_ V}
    (less : K -> K -> bool) (MK : Marshal dk) (MV : Marshal dv)
    (L : State) (dict : list (K * V)) :
  Forall (entry_ok MK MV) dict -> NoDup (map fst dict) ->
  Push (Type_map less dk dv) L dict =
    Ret (building (stack L) (tables L) (map_entries MK MV dict)).
Proof.
  intros Hwf Hnd. cbn [Push Type_map]. unfold Type_map_Push, NewTable.
  change (lua_createtable L 0 (Z.of_nat (length dict)))
    with (building (stack L) (tables L) []).
  rewrite (Type_map_Push_for_spec MK MV); [reflexivity | exact Hwf |].
  simpl. rewrite map_fst_map_entries.
  apply enc_keys_NoDup; [now apply (entry_ok_keys MK MV) | exact Hnd].
Qed.



Lemma vector_entries_keys {T : Type} {d : Type_ T} (M : Marshal d) (vec : list T) :
  forall i k, In k (map fst (vector_entries M i vec)) ->
    exists j, k = LInteger j /\ i < j.
Proof.
  induction vec as [|v vec IH]; intros i k Hin; [contradiction|].
  destruct Hin as [<-|Hin].
  - exists (i + 1). split; [reflexivity|lia].
  - destruct (IH _ _ Hin) as (j & -> & Hj). exists j. split; [reflexivity|lia].
Qed.

Lemma vector_entries_ok {T : Type} {d : Type_ T} (M : Marshal d) (vec : list T) (i : Z) :
  Table_ok (vector_entries M i vec).
Proof.
  split.
  - revert i. induction vec as [|v vec IH]; intros i; simpl; constructor; [|apply IH].
    intros Hin. destruct (vector_entries_keys M vec _ _ Hin) as (j & Hj & Hlt).
    inversion Hj. lia.
  - intros Hin. destruct (vector_entries_keys M vec _ _ Hin) as (j & Hj & _).
    discriminate.
Qed.

Lemma length_vector_entries {T : Type} {d : Type_ T} (M : Marshal d) (vec : list T) (i : Z) :
  length (vector_entries M i vec) = length vec.
Proof. revert i. induction vec as [|v vec IH]; intros i; simpl; auto. Qed.

Lemma table_at_building (s : list TValue) (tb : list Table) (t : Table) :
  table_at (building s tb t) (lua_gettop (building s tb t)) t.
Proof.
  split.
  - unfold lua_gettop, building. cbn [stack length]. lia.
  - exists (length tb). rewrite Z.sub_diag. split; [reflexivity|].
    apply nth_error_last.
Qed.

End Scalars.

(** ** [std::map] as a sorted list *)

Section StdMap.
Context {K V : Type} (less : K -> K -> bool).
Hypothesis Hless : strict_total_order less.

Lemma map_assign_fresh (key : K) (value : V) (m : list (K * V)) :
  ~ In key (map fst m) ->
  Permutation ((key, value) :: m) (map_assign less key value m).
Proof.
  induction m as [|[k v] m IH]; simpl; intros Hfresh; [reflexivity|].
  destruct (less key k) eqn:E1; [reflexivity|].
  destruct (less k key) eqn:E2.
  - rewrite perm_swap. apply perm_skip. apply IH. tauto.
  - exfalso. apply Hfresh. left. symmetry. now apply (less_total _ Hless).
Qed.

Lemma map_assign_sorted (key : K) (value : V) (m : list (K * V)) :
  map_sorted less m -> ~ In key (map fst m) ->
  map_sorted less (map_assign less key value m).
Proof.
  unfold map_sorted.
  induction m as [|[k v] m IH]; simpl; intros Hs Hfresh.
  - repeat constructor.
  - apply StronglySorted_inv in Hs. destruct Hs as [Hs Hall].
    destruct (less key k) eqn:E1.
    + constructor; [constructor; assumption|].
      constructor; [exact E1|].
      rewrite Forall_forall in *. intros q Hq. cbn [fst] in *.
      eapply (less_trans _ Hless); [exact E1 | apply (Hall q Hq)].
    + destruct (less k key) eqn:E2.
      * constructor; [apply IH; tauto|].
        eapply Permutation_Forall; [apply map_assign_fresh; tauto|].
        constructor; [exact E2 | exact Hall].
      * exfalso. apply Hfresh. left. symmetry. now apply (less_total _ Hless).
Qed.

Lemma map_assign_all_fresh (ps acc : list (K * V)) :
  map_sorted less acc -> NoDup (map fst ps ++ map fst acc) ->
  map_sorted less (map_assign_all less ps acc)
  /\ Permutation (ps ++ acc) (map_assign_all less ps acc).
Proof.
  revert acc. induction ps as [|[key value] ps IH]; intros acc Hs Hnd.
  - split; [exact Hs | reflexivity].
  - simpl in Hnd. inversion Hnd as [|? ? Hnotin Hnd']; subst.
    assert (Hfresh : ~ In key (map fst acc))
      by (intros Hin; apply Hnotin; apply in_or_app; now right).
    pose proof (map_assign_fresh key value acc Hfresh) as Hperm.
    destruct (IH (map_assign less key value acc)) as [Hs' Hp'].
    + now apply map_assign_sorted.
    + eapply Permutation_NoDup; [|exact Hnd].
      rewrite <- Hperm. simpl. apply Permutation_middle.
    + split; [exact Hs'|].
      cbn [map_assign_all fold_left fst snd]. fold (map_assign_all less ps).
      rewrite <- Hp', <- Hperm. simpl. apply Permutation_middle.
Qed.

Lemma map_sorted_NoDup (m : list (K * V)) :
  map_sorted less m -> NoDup (map fst m).
Proof.
  unfold map_sorted. induction m as [|[k v] m IH]; simpl; intros Hs; [constructor|].
  apply StronglySorted_inv in Hs. destruct Hs as [Hs Hall].
  constructor; [|now apply IH].
  intros Hin. apply in_map_iff in Hin. destruct Hin as ([k' v'] & Hk & Hin).
  simpl in Hk. subst k'. rewrite Forall_forall in Hall.
  specialize (Hall _ Hin). simpl in Hall.
  now rewrite (less_irrefl _ Hless) in Hall.
Qed.

(** Two sorted maps with the same entries are equal. *)
Lemma map_sorted_unique (m1 m2 : list (K * V)) :
  map_sorted less m1 -> map_sorted less m2 -> Permutation m1 m2 -> m1 = m2.
Proof.
  unfold map_sorted. revert m2.
  induction m1 as [|p m1 IH]; intros m2 H1 H2 Hp.
  - apply Permutation_nil in Hp. now subst.
  - destruct m2 as [|q m2].
    { symmetry in Hp. apply Permutation_nil in Hp. discriminate. }
    apply StronglySorted_inv in H1. destruct H1 as [H1 Hall1].
    apply StronglySorted_inv in H2. destruct H2 as [H2 Hall2].
    rewrite Forall_forall in Hall1, Hall2.
    assert (Hpq : p = q).
    { assert (Hin1 : In p (q :: m2))
        by (eapply Permutation_in; [exact Hp | now left]).
      assert (Hin2 : In q (p :: m1))
        by (eapply Permutation_in; [symmetry; exact Hp | now left]).
      destruct Hin1 as [->|Hin1]; [reflexivity|].
      destruct Hin2 as [->|Hin2]; [reflexivity|].
      exfalso. pose proof (Hall2 _ Hin1) as Hqp. pose proof (Hall1 _ Hin2) as Hpq.
      pose proof (less_trans _ Hless _ _ _ Hpq Hqp) as Hpp.
      now rewrite (less_irrefl _ Hless) in Hpp. }
    subst q. f_equal. apply IH; try assumption.
    now apply Permutation_cons_inv in Hp.
Qed.

(** Assigning the entries of a sorted map, in any order, to an empty map
    gives the map back. *)
Lemma map_assign_all_sorted (dict ps : list (K * V)) :
  map_sorted less dict -> Permutation dict ps ->
  map_assign_all less ps [] = dict.
Proof.
  intros Hs Hp.
  destruct (map_assign_all_fresh ps []) as [Hs' Hp'].
  - constructor.
  - simpl. rewrite app_nil_r. eapply Permutation_NoDup.
    + apply Permutation_map. exact Hp.
    + now apply map_sorted_NoDup.
  - rewrite app_nil_r in Hp'. symmetry.
    apply map_sorted_unique; [exact Hs | exact Hs' |].
    now rewrite Hp.
Qed.

End StdMap.

Section Containers.
Context {rt : Runtime} {base : Base}.

(** ** [Type<std::map<K, V>>]: the round trip *)


(** C6, at the map with the one entry 1 -> 1.5 of [std::map<int, double>]:
    [Push] leaves the table with that entry on the stack, and [To] into an
    empty map at the index of the table returns true with the entry 1 -> 1.0,
    which is not the map pushed: the value went through [int ret] of
    [Type<double>::To]. *)
Theorem Type_map_round_trip_double (fuel : nat) :
  let dict := [(1, double_1_5)] in
  let L1 := one_table [(LInteger 1, LFloat double_1_5)] in
  map_sorted Z.ltb dict
  /\ Push (Type_map Z.ltb Type_int Type_double) empty_state dict = Ret L1
  /\ To (Type_map Z.ltb Type_int Type_double) (S (S fuel)) L1 (lua_gettop L1) []
     = Ret (L1, true, [(1, double_1_0)])
  /\ [(1, double_1_0)] <> dict.
Proof.
  intros dict L1. split; [repeat constructor|]. split; [reflexivity|].
  split; [reflexivity|]. discriminate.
Qed.

(** ** [Type<std::vector<T>>]: the round trip *)

(** The empty vector is read back. *)
Lemma Type_vector_round_trip_empty {T : Type} (d : Type_ T) (R : Reader d)
    (L : State) (fuel : nat) :
  (0 < fuel)%nat ->
  exists L1, Push (Type_vector d) L [] = Ret L1
    /\ To (Type_vector d) fuel L1 (lua_gettop L1) [] = Ret (L1, true, []).
Proof.
  intros Hfuel. exists (building (stack L) (tables L) []). split; [reflexivity|].
  rewrite (Type_vector_To_spec R fuel _ _ []).
  - reflexivity.
  - apply table_at_building.
  - split; [constructor | intros []].
  - exact Hfuel.
Qed.

(** C2, for every vector that is not empty: after [Push] of the vector, [To]
    into an empty vector at the index of the pushed table returns false; the
    first key, 1, is compared with [static_cast<int>(out->size() - 1)],
    which is -1. *)
Theorem Type_vector_round_trip_fails {T : Type} {d : Type_ T} (M : Marshal d)
    (L : State) (v : T) (vec : list T) (fuel : nat) :
  Forall (wf M) (v :: vec) -> (length (v :: vec) < fuel)%nat ->
  exists L1,
    Push (Type_vector d) L (v :: vec) = Ret L1
    /\ To (Type_vector d) fuel L1 (lua_gettop L1) [] = Ret (L1, false, []).
Proof.
  intros Hwf Hfuel.
  exists (building (stack L) (tables L) (vector_entries M 0 (v :: vec))).
  split; [now apply Type_vector_Push_spec|].
  rewrite (Type_vector_To_spec (reader M) fuel _ _ (vector_entries M 0 (v :: vec))).
  - reflexivity.
  - apply table_at_building.
  - apply vector_entries_ok.
  - now rewrite length_vector_entries.
Qed.

(** ** [Type<std::vector<T>>::To]: which tables are accepted *)

(** A table with a key that is not a number is refused. *)
Lemma vector_To_spec_not_number {T : Type} {d : Type_ T} (R : Reader d)
    (k v : TValue) :
  LuaType_of (ttnov k) <> Number ->
  forall t out, In (k, v) t -> fst (vector_To_spec R t out) = false.
Proof.
  intros Hk. induction t as [|[k0 v0] t IH]; intros out Hin; [contradiction|].
  cbn [vector_To_spec].
  destruct (negb (LuaType_eqb (LuaType_of (ttnov k0)) Number)) eqn:E0; [reflexivity|].
  destruct (negb (key_integer k0 =? _)); [reflexivity|].
  destruct (dec R v0) as [value|]; [|reflexivity].
  destruct Hin as [Heq|Hin]; [|now apply IH].
  inversion Heq; subst. exfalso. apply Hk.
  destruct (LuaType_of (ttnov k)); try discriminate. reflexivity.
Qed.

Lemma Type_vector_To_not_number {T : Type} {d : Type_ T} (R : Reader d)
    (fuel : nat) (L : State) (index : Z) (t : Table) (out : list T) (k v : TValue) :
  table_at L index t -> Table_ok t -> (length t < fuel)%nat ->
  In (k, v) t -> LuaType_of (ttnov k) <> Number ->
  exists out', To (Type_vector d) fuel L index out = Ret (L, false, out').
Proof.
  intros Ht Hok Hfuel Hin Hk.
  rewrite (Type_vector_To_spec R fuel L index t out Ht Hok Hfuel).
  rewrite (vector_To_spec_not_number R k v Hk t out Hin).
  eexists. reflexivity.
Qed.

(** A table whose first key is not -1 is refused when [*out] is empty; so
    are the tables with the keys 1 and 3, in both orders. *)
Lemma Type_vector_To_first_key {T : Type} {d : Type_ T} (R : Reader d)
    (fuel : nat) (L : State) (index : Z) (k v : TValue) (t : Table) :
  table_at L index ((k, v) :: t) -> Table_ok ((k, v) :: t) ->
  (length ((k, v) :: t) < fuel)%nat ->
  key_integer k <> -1 ->
  To (Type_vector d) fuel L index [] = Ret (L, false, []).
Proof.
  intros Ht Hok Hfuel Hk.
  rewrite (Type_vector_To_spec R fuel L index _ [] Ht Hok Hfuel).
  cbn [vector_To_spec].
  destruct (negb (LuaType_eqb (LuaType_of (ttnov k)) Number)); [reflexivity|].
  change (to_int (to_size_t (Z.of_nat (length (@nil T)) - 1))) with (-1).
  replace (key_integer k =? -1) with false
    by (symmetry; apply Z.eqb_neq; exact Hk).
  reflexivity.
Qed.

Lemma Type_vector_To_gap {T : Type} {d : Type_ T} (R : Reader d)
    (fuel : nat) (L : State) (index : Z) (a b : TValue) :
  (2 < fuel)%nat ->
  (table_at L index [(LInteger 1, a); (LInteger 3, b)] ->
   To (Type_vector d) fuel L index [] = Ret (L, false, []))
  /\ (table_at L index [(LInteger 3, b); (LInteger 1, a)] ->
      To (Type_vector d) fuel L index [] = Ret (L, false, [])).
Proof.
  intros Hfuel. split; intros Ht.
  - apply (Type_vector_To_first_key R fuel L index _ _ _ Ht);
      [|simpl; lia|discriminate].
    split; [repeat constructor; simpl; intuition discriminate
           | simpl; intuition discriminate].
  - apply (Type_vector_To_first_key R fuel L index _ _ _ Ht);
      [|simpl; lia|discriminate].
    split; [repeat constructor; simpl; intuition discriminate
           | simpl; intuition discriminate].
Qed.

(** C5, at the table with the single key -1: [Type<std::vector<int>>::To]
    into an empty vector returns true and stores the value of that key,
    although the keys of the table are not 1..n. *)
Theorem Type_vector_To_accepts_key_minus_1 (fuel : nat) (L : State) (index : Z)
    (x : Z) :
  table_at L index [(LInteger (-1), LInteger x)] -> is_int x -> (1 < fuel)%nat ->
  To (Type_vector Type_int) fuel L index [] = Ret (L, true, [x]).
Proof.
  intros Ht Hx Hfuel.
  rewrite (Type_vector_To_spec Reader_int fuel L index _ [] Ht).
  - cbn [vector_To_spec]. change (negb _) with false at 1. cbn iota.
    change (negb _) with false at 1. cbn iota.
    cbn [dec Reader_int luaV_tointeger option_map app fst snd].
    now rewrite (to_int_id x Hx).
  - split; [repeat constructor; simpl; tauto | simpl; intuition discriminate].
  - simpl. lia.
Qed.

(** ** [To] and [*out] *)

Lemma LuaType_eqb_eq (a b : LuaType) : LuaType_eqb a b = true <-> a = b.
Proof.
  destruct a, b; split; intros H; try reflexivity; try discriminate H;
    vm_compute in H; discriminate H.
Qed.




(** ** Stack neutrality *)

Lemma run_call_height (c : call) (L L' : State) :
  of_this_layer c -> run_call c L = Ret L' ->
  lua_gettop L' = lua_gettop L + contract c.
Proof.
  destruct c as [T d value|T d fuel index out| | |]; simpl; intros Hc H.
  - destruct (Specialisation_heights T d Hc) as [Hp _]. now apply Hp in H.
  - destruct (Specialisation_heights T d Hc) as [_ Ht].
    inv_bind H. destruct a as [[L1 ok] out']. inv_Ret H.
    apply Ht in E. lia.
  - inv_Ret H. apply lua_gettop_push.
  - inv_Ret H. apply lua_gettop_push.
  - inv_Ret H. apply lua_gettop_push.
Qed.

(** After any sequence of [Push] and [To] calls of this layer that returns,
    the height of the stack has changed by the sum of the contracts: one slot
    for every [Push], of a scalar or of a container, and none for a [To],
    whether it returned true or false. *)
Theorem stack_neutrality (calls : list call) (L L' : State) :
  Forall of_this_layer calls -> run calls L = Ret L' ->
  lua_gettop L' = lua_gettop L + contracts calls.
Proof.
  revert L. induction calls as [|c calls IH]; intros L Hcs H; simpl in *.
  - inv_Ret H. lia.
  - inversion Hcs as [|? ? Hc Hcs']; subst.
    inv_bind H. apply (run_call_height c L a Hc) in E.
    apply (IH a Hcs') in H. lia.
Qed.

End Containers.

(** ** Relative indices and the containers *)

Section RelativeIndex.
Context {rt : Runtime}.

(** [To] of a container passes its index to [lua_next] after pushing the
    cursor: the index -1 then designates the cursor, not the table, and
    [lua_next] is called on a value that is not a table. *)
Lemma Type_vector_To_index_minus_1 {T : Type} (d : Type_ T) (fuel : nat)
    (L : State) (r : nat) (s : list TValue) (out : list T) :
  stack L = LTable r :: s ->
  To (Type_vector d) (S fuel) L (-1) out = Fault.
Proof.
  intros Hs. cbn [To Type_vector]. unfold Type_vector_To, GetType, lua_type.
  rewrite index2addr_rel
    by (unfold lua_gettop; rewrite Hs; cbn [length]; lia).
  rewrite Hs. cbn [bind nth_error Z.to_nat]. change (negb _) with false. cbn iota.
  unfold StackAutoReset. cbn [Type_vector_To_while].
  unfold lua_next, lua_pushnil. rewrite index2addr_pushed_rel. reflexivity.
Qed.

Lemma Type_map_To_index_minus_1 {K V : Type} (less : K -> K -> bool)
    (dk : Type_ K) (dv : Type_ V) (fuel : nat)
    (L : State) (r : nat) (s : list TValue) (out : list (K * V)) :
  stack L = LTable r :: s ->
  To (Type_map less dk dv) (S fuel) L (-1) out = Fault.
Proof.
  intros Hs. cbn [To Type_map]. unfold Type_map_To, GetType, lua_type.
  rewrite index2addr_rel
    by (unfold lua_gettop; rewrite Hs; cbn [length]; lia).
  rewrite Hs. cbn [bind nth_error Z.to_nat]. change (negb _) with false. cbn iota.
  unfold StackAutoReset. cbn [Type_map_To_while].
  unfold lua_next, lua_pushnil. rewrite index2addr_pushed_rel. reflexivity.
Qed.


(** C9, at the sequence [Type<std::vector<int>>::Push] of the vector 7,
    [Type<std::vector<int>>::To] at the index -1: [Push] returns with the
    table in the one slot of the stack, and [To], which finds a table at -1,
    pushes the cursor and gives [lua_next] the index -1, that is the cursor:
    the call does not return, so that the sequence has no height, where the
    contracts promise + 1 and 0. The same holds for [std::map<int, int>]. *)
Theorem stack_neutrality_relative_index {base : Base} (fuel : nat) (out : list Z)
    (out' : list (Z * Z)) :
  let L1 := one_table [(LInteger 1, LInteger 7)] in
  run [Call_Push (list Z) (Type_vector Type_int) [7]] empty_state = Ret L1
  /\ lua_gettop L1 = lua_gettop empty_state + 1
  /\ GetType L1 (-1) = Ret Table_
  /\ run [Call_To (list Z) (Type_vector Type_int) (S fuel) (-1) out] L1 = Fault
  /\ run [Call_Push (list Z) (Type_vector Type_int) [7];
          Call_To (list Z) (Type_vector Type_int) (S fuel) (-1) out] empty_state
     = Fault
  /\ run [Call_Push (list (Z * Z)) (Type_map Z.ltb Type_int Type_int) [(1, 7)];
          Call_To (list (Z * Z)) (Type_map Z.ltb Type_int Type_int) (S fuel) (-1)
            out'] empty_state
     = Fault.
Proof.
  intros L1. split; [reflexivity|]. split; [reflexivity|]. split; [reflexivity|].
  split; [reflexivity|]. split; reflexivity.
Qed.

End RelativeIndex.

(** ** Tables built through the API keep their invariant *)

Lemma luaH_key_not_nil (k k' : TValue) : luaH_key k = Ret k' -> k' <> LNil.
Proof.
  destruct k; simpl; intros H; try (inv_Ret H; discriminate); try discriminate.
  destruct (luaV_flttointns x); [inv_Ret H; discriminate|].
  destruct (is_nan x); [discriminate | inv_Ret H; discriminate].
Qed.

Lemma luaH_put_keys (t : Table) (k v : TValue) :
  (In k (map fst t) /\ map fst (luaH_put t k v) = map fst t)
  \/ (~ In k (map fst t) /\ map fst (luaH_put t k v) = map fst t ++ [k]).
Proof.
  induction t as [|[k0 v0] t IH]; simpl.
  - right. split; [tauto | reflexivity].
  - destruct (luaV_rawequalobj k0 k) eqn:E.
    + apply luaV_rawequalobj_eq in E. subst. left. split; [now left | reflexivity].
    + assert (k0 <> k)
        by (intros ->; rewrite luaV_rawequalobj_refl in E; discriminate).
      destruct IH as [[Hin Heq]|[Hnin Heq]]; simpl; rewrite Heq.
      * left. split; [now right | reflexivity].
      * right. split; [tauto | reflexivity].
Qed.

Lemma luaH_put_ok (t : Table) (k v : TValue) :
  Table_ok t -> k <> LNil -> Table_ok (luaH_put t k v).
Proof.
  intros [Hnd Hnil] Hk. unfold Table_ok.
  destruct (luaH_put_keys t k v) as [[Hin ->]|[Hnin ->]]; [now split|].
  split.
  - apply NoDup_app; [exact Hnd | repeat constructor; simpl; tauto |].
    intros a Ha [<-|[]]. contradiction.
  - intros Hin. apply in_app_or in Hin. destruct Hin as [Hin|[Heq|[]]];
      [contradiction | congruence].
Qed.

Lemma luaH_del_keys (t : Table) (k : TValue) :
  forall a, In a (map fst (luaH_del t k)) -> In a (map fst t).
Proof.
  induction t as [|[k0 v0] t IH]; simpl; intros a Ha; [exact Ha|].
  destruct (luaV_rawequalobj k0 k); simpl in *; [now right|].
  destruct Ha as [->|Ha]; [now left | right; now apply IH].
Qed.

Lemma luaH_del_ok (t : Table) (k : TValue) :
  Table_ok t -> Table_ok (luaH_del t k).
Proof.
  intros [Hnd Hnil]. split.
  - clear Hnil. induction t as [|[k0 v0] t IH]; simpl in *; [constructor|].
    inversion Hnd as [|? ? Hnotin Hnd']; subst.
    destruct (luaV_rawequalobj k0 k); [exact Hnd'|].
    simpl. constructor; [|now apply IH].
    intros Hin. apply Hnotin. eapply luaH_del_keys. exact Hin.
  - intros Hin. apply Hnil. eapply luaH_del_keys. exact Hin.
Qed.

Lemma Forall_list_set {A : Type} (P : A -> Prop) (n : nat) (a : A) (l : list A) :
  Forall P l -> P a -> Forall P (list_set n a l).
Proof.
  intros Hl Ha. revert n. induction Hl as [|b l Hb Hl IH]; intros [|n]; simpl;
    constructor; auto.
Qed.

Lemma lua_createtable_ok (L : State) (narr nrec : Z) :
  tables_ok L -> tables_ok (lua_createtable L narr nrec).
Proof.
  intros H. unfold tables_ok. simpl. apply Forall_app. split; [exact H|].
  repeat constructor. intros [].
Qed.

Lemma lua_rawset_ok (L L' : State) (idx : Z) :
  tables_ok L -> lua_rawset L idx = Ret L' -> tables_ok L'.
Proof.
  unfold lua_rawset, tables_ok. intros Hok H. inv_bind H.
  destruct a as [[]|]; try discriminate.
  destruct (stack L) as [|v [|k rest]]; try discriminate.
  destruct (nth_error (tables L) r) as [t|] eqn:Et; try discriminate.
  inv_bind H. inv_Ret H. cbn [tables].
  assert (Ht : Table_ok t).
  { rewrite Forall_forall in Hok. apply Hok. eapply nth_error_In. exact Et. }
  apply Forall_list_set; [exact Hok|].
  apply luaH_key_not_nil in E0.
  destruct v; auto using luaH_put_ok, luaH_del_ok.
Qed.

(** * Further properties

    Properties of the parts of types.h that the statements above do not
    reach: the remaining scalar and string specialisations, what [Push] of a
    container builds, what [To] leaves of the state, and the type names. *)

Section FurtherScalars.
Context {rt : Runtime} {base : Base}.

Lemma to_int_fixed (v : Z) : to_int v = v <-> is_int v.
Proof.
  split; [intros <-; apply to_int_range | apply to_int_id].
Qed.

(** X1. [Type<int>::To] on a slot holding the exact integer [v] returns true
    with [*out] equal to [v] wrapped to 32 bits, which is [v] exactly when
    [v] is an [int]; on a float that is not an integer it returns false and
    leaves [*out]; an [int] pushed by [Type<int>::Push] is read back
    unchanged. *)
Theorem Type_int_To_wraps :
  (forall L index out x v,
     index2addr L index = Ret (Some x) -> exact_integer x = Some v ->
     Type_int_To L index out = Ret (L, true, to_int v))
  /\ (forall v, to_int v = v <-> is_int v)
  /\ (forall L index out x,
        index2addr L index = Ret (Some (LFloat x)) -> luaV_flttointns x = None ->
        Type_int_To L index out = Ret (L, false, out))
  /\ (forall L number out,
        is_int number ->
        exists L1,
          Type_int_Push L number = Ret L1
          /\ Type_int_To L1 (lua_gettop L1) out = Ret (L1, true, number)
          /\ Type_int_To L1 (-1) out = Ret (L1, true, number)).
Proof.
  assert (Hto : forall L index out x v,
     index2addr L index = Ret (Some x) -> exact_integer x = Some v ->
     Type_int_To L index out = Ret (L, true, to_int v)).
  { intros L index out x v Hslot Hv.
    unfold Type_int_To, lua_tointegerx. rewrite Hslot. cbn [bind].
    now rewrite (luaV_tointeger_exact _ _ Hv). }
  split; [exact Hto|]. split; [exact to_int_fixed|]. split.
  - intros L index out x Hslot Hx.
    unfold Type_int_To, lua_tointegerx. rewrite Hslot. cbn [bind luaV_tointeger].
    now rewrite Hx.
  - intros L number out Hn. exists (lua_pushinteger L number).
    split; [reflexivity|].
    pose proof (Hto _ _ out (LInteger number) number
                  (index2addr_pushed_abs L (LInteger number)) eq_refl) as Habs.
    pose proof (Hto _ _ out (LInteger number) number
                  (index2addr_pushed_rel L (LInteger number)) eq_refl) as Hrel.
    rewrite (to_int_id number Hn) in Habs, Hrel. split; assumption.
Qed.

Lemma c_str_idem (s : string) : c_str (c_str s) = c_str s.
Proof.
  induction s as [|c s IH]; [reflexivity|]. cbn [c_str].
  destruct (Ascii.eqb c NUL) eqn:E; [reflexivity|].
  cbn [c_str]. now rewrite E, IH.
Qed.

Lemma c_str_fixed (s : string) : c_str s = s <-> no_NUL s = true.
Proof.
  split; [|apply c_str_no_NUL].
  induction s as [|c s IH]; [reflexivity|]. cbn [c_str no_NUL].
  destruct (Ascii.eqb c NUL); [discriminate|].
  intros H. inversion H as [Hs]. rewrite Hs. now apply IH.
Qed.

Lemma Type_string_To_pushed (L : State) (s out : string) :
  Type_string_To (lua_push L (LString s)) (lua_gettop (lua_push L (LString s))) out
  = Ret (lua_push L (LString s), true, c_str s).
Proof.
  apply (To_unchanged Reader_string 0 _ _ out (LString s));
    [apply index2addr_pushed_abs | reflexivity].
Qed.

(** X2. A [std::string] or a [StringPiece] pushed with its length is read
    back up to its first NUL byte: [To] returns true with the C string of
    what was pushed, which is the whole string exactly when it has no NUL. *)
Theorem Type_string_round_trip_c_str (L : State) (str out : string) :
  exists L1,
    Type_string_Push L str = Ret L1
    /\ Type_StringPiece_Push L str = Ret L1
    /\ Type_string_To L1 (lua_gettop L1) out = Ret (L1, true, c_str str)
    /\ Type_StringPiece_To L1 (lua_gettop L1) out = Ret (L1, true, c_str str)
    /\ (c_str str = str <-> no_NUL str = true).
Proof.
  exists (lua_push L (LString str)).
  split; [unfold Type_string_Push, lua_pushlstring; now rewrite substring_all|].
  split; [unfold Type_StringPiece_Push, lua_pushlstring; now rewrite substring_all|].
  split; [apply Type_string_To_pushed|].
  split; [apply Type_string_To_pushed | apply c_str_fixed].
Qed.

(** X3. [Type<const char*>]: a null pointer is pushed as nil, which [To]
    refuses, leaving [*out]; a pointer to a C string is read back as that C
    string. *)
Theorem Type_const_char_ptr_round_trip (L : State) (out : option string) :
  (exists L1,
     Type_const_char_ptr_Push L None = Ret L1
     /\ index2addr L1 (lua_gettop L1) = Ret (Some LNil)
     /\ Type_const_char_ptr_To L1 (lua_gettop L1) out = Ret (L1, false, out))
  /\ (forall str, exists L1,
        Type_const_char_ptr_Push L (Some str) = Ret L1
        /\ Type_const_char_ptr_To L1 (lua_gettop L1) out
           = Ret (L1, true, Some (c_str str))).
Proof.
  split.
  - exists (lua_push L LNil). split; [reflexivity|].
    split; [apply index2addr_pushed_abs|].
    apply (To_unchanged Reader_const_char_ptr 0 _ _ out LNil);
      [apply index2addr_pushed_abs | reflexivity].
  - intros str. exists (lua_push L (LString (c_str str))). split; [reflexivity|].
    pose proof (To_unchanged Reader_const_char_ptr 0 _ _ out (LString (c_str str))
                  (index2addr_pushed_abs L (LString (c_str str))) eq_refl) as H.
    cbn [dec Reader_const_char_ptr string_form option_map] in H.
    rewrite c_str_idem in H. exact H.
Qed.

(** X4. [Type<base::string16>]: when the UTF-8 form of a string has the
    string as its UTF-16 form up to the first NUL, [To] after [Push] returns
    true with the string pushed. *)
Theorem Type_string16_round_trip (L : State) (str out : list Z) :
  UTF8ToUTF16 (c_str (UTF16ToUTF8 str)) = str ->
  exists L1,
    Type_string16_Push L str = Ret L1
    /\ Type_string16_To L1 (lua_gettop L1) out = Ret (L1, true, str).
Proof.
  intros Hinv. exists (lua_push L (LString (UTF16ToUTF8 str))).
  split.
  - unfold Type_string16_Push, Type_string_Push, lua_pushlstring.
    now rewrite substring_all.
  - unfold Type_string16_To, lua_tostring, index2pos.
    rewrite lua_gettop_push.
    pose proof (lua_gettop_nonneg L) as Htop.
    replace (0 <? lua_gettop L + 1) with true by (symmetry; apply Z.ltb_lt; lia).
    rewrite Z.leb_refl. cbn [bind]. rewrite Z.sub_diag. cbn [bind slot Z.to_nat].
    cbn [lua_push set_stack stack nth_error]. now rewrite Hinv.
Qed.

End FurtherScalars.

(** ** What no [To] reads *)

Section FurtherFrames.
Context {rt : Runtime} {base : Base}.

(** The slots that hold no number, boolean, string or table: an index above
    the top, nil, light and full userdata, functions and threads. *)
Definition unreadable (o : option TValue) : Prop :=
  match o with
  | None | Some LNil | Some (LLightUserData _) | Some (LFunction _)
  | Some (LUserData _) | Some (LThread _) => True
  | _ => False
  end.

Lemma string_form_unreadable (o : option TValue) :
  unreadable o -> string_form o = None.
Proof. destruct o as [[]|]; simpl; intros H; try contradiction; reflexivity. Qed.

Lemma GetType_unreadable (L : State) (index : Z) (o : option TValue) :
  index2addr L index = Ret o -> unreadable o ->
  exists t, GetType L index = Ret t /\ LuaType_eqb t Table_ = false.
Proof.
  intros H Hu. unfold GetType, lua_type. rewrite H. cbn [bind].
  eexists. split; [reflexivity|].
  destruct o as [[]|]; simpl in Hu; try contradiction; reflexivity.
Qed.

(** X5. No specialisation reads a value that [Type<std::nullptr_t>::Push]
    or [Type<void*>::Push] pushed, nor a function, a userdata, a thread or an
    index above the top: [To] returns false and leaves [*out] and the
    state. *)
Theorem To_refuses_unreadable (T : Type) (d : Type_ T) :
  Specialisation T d ->
  forall fuel L index out o,
    index2addr L index = Ret o -> unreadable o ->
    To d fuel L index out = Ret (L, false, out).
Proof.
  intros Hd fuel L index out o H Hu.
  destruct Hd; cbn [To Type_int Type_uint32_t Type_float Type_double Type_bool
                     Type_StringPiece Type_string Type_string16
                     Type_const_char_ptr Type_vector Type_map].
  - unfold Type_int_To, lua_tointegerx. rewrite H.
    destruct o as [[]|]; simpl in Hu; try contradiction; reflexivity.
  - unfold Type_uint32_t_To, lua_tointegerx. rewrite H.
    destruct o as [[]|]; simpl in Hu; try contradiction; reflexivity.
  - unfold Type_float_To, lua_tonumberx. rewrite H.
    destruct o as [[]|]; simpl in Hu; try contradiction; reflexivity.
  - unfold Type_double_To, lua_tonumberx. rewrite H.
    destruct o as [[]|]; simpl in Hu; try contradiction; reflexivity.
  - rewrite (Type_bool_To_slot L index out o H).
    destruct o as [[]|]; simpl in Hu; try contradiction; reflexivity.
  - destruct (lua_tostring_form L index o H) as (L' & E & Hsame).
    rewrite (string_form_unreadable o Hu) in E, Hsame.
    rewrite (Hsame eq_refl) in E. unfold Type_StringPiece_To. now rewrite E.
  - destruct (lua_tostring_form L index o H) as (L' & E & Hsame).
    rewrite (string_form_unreadable o Hu) in E, Hsame.
    rewrite (Hsame eq_refl) in E. unfold Type_string_To. now rewrite E.
  - destruct (lua_tostring_form L index o H) as (L' & E & Hsame).
    rewrite (string_form_unreadable o Hu) in E, Hsame.
    rewrite (Hsame eq_refl) in E. unfold Type_string16_To. now rewrite E.
  - destruct (lua_tostring_form L index o H) as (L' & E & Hsame).
    rewrite (string_form_unreadable o Hu) in E, Hsame.
    rewrite (Hsame eq_refl) in E. unfold Type_const_char_ptr_To. now rewrite E.
  - destruct (GetType_unreadable L index o H Hu) as (t & Et & Hne).
    unfold Type_vector_To. rewrite Et. cbn [bind]. now rewrite Hne.
  - destruct (GetType_unreadable L index o H Hu) as (t & Et & Hne).
    unfold Type_map_To. rewrite Et. cbn [bind]. now rewrite Hne.
Qed.

(** ** What [To] leaves of the state *)

(** [To] of [d] changes no table and no slot but the one it reads. *)
Definition To_frame {T : Type} (d : Type_ T) : Prop :=
  forall fuel L index out L' ok out',
    To d fuel L index out = Ret (L', ok, out') ->
    tables L' = tables L
    /\ exists p, index2pos L index = Ret p
         /\ match p with
            | Some n => exists x, stack L' = list_set n x (stack L)
            | None => stack L' = stack L
            end.

(** [To] of [d] leaves the state as it was. *)
Definition To_pure {T : Type} (d : Type_ T) : Prop :=
  forall fuel L index out L' ok out',
    To d fuel L index out = Ret (L', ok, out') -> L' = L.

Lemma list_set_nth {A : Type} (a : A) (n : nat) (l : list A) :
  list_set n (nth n l a) l = l.
Proof.
  revert n. induction l as [|b l IH]; intros [|n]; simpl; try reflexivity.
  now rewrite IH.
Qed.

(** A specialisation that leaves the state and resolves its index first
    satisfies the frame property. *)
Lemma To_pure_frame {T : Type} (d : Type_ T) :
  To_pure d ->
  (forall fuel L index out r, To d fuel L index out = Ret r ->
     exists p, index2pos L index = Ret p) ->
  To_frame d.
Proof.
  intros Hpure Hidx fuel L index out L' ok out' H.
  pose proof (Hpure _ _ _ _ _ _ _ H) as ->.
  split; [reflexivity|].
  destruct (Hidx _ _ _ _ _ H) as (p & Hp). exists p. split; [exact Hp|].
  destruct p as [n|]; [|reflexivity].
  exists (nth n (stack L) LNil). now rewrite list_set_nth.
Qed.

Lemma index2addr_returns (L : State) (index : Z) (o : option TValue) :
  index2addr L index = Ret o -> exists p, index2pos L index = Ret p.
Proof. intros H. apply index2addr_inv in H. destruct H as (p & Hp & _). eauto. Qed.

Ltac To_pure_scalar :=
  let H := fresh "H" in
  intros ? ? ? ? ? ? ? H; cbn [To] in H;
  repeat first
    [ inv_bind H; try match goal with a : (_ * _)%type |- _ => destruct a end
    | match type of H with
      | match ?x with _ => _ end = Ret _ => destruct x; try discriminate
      end ];
  try inv_Ret H; reflexivity.

Lemma lua_tointegerx_returns `{Runtime} (L : State) (index : Z) (r : Z * Z) :
  lua_tointegerx L index = Ret r -> exists p, index2pos L index = Ret p.
Proof.
  unfold lua_tointegerx. intros E. inv_bind E. eauto using index2addr_returns.
Qed.

Lemma lua_tonumberx_returns `{Runtime} (L : State) (index : Z) (r : double * Z) :
  lua_tonumberx L index = Ret r -> exists p, index2pos L index = Ret p.
Proof.
  unfold lua_tonumberx. intros E. inv_bind E. eauto using index2addr_returns.
Qed.

Lemma lua_type_returns (L : State) (index : Z) (t : Z) :
  lua_type L index = Ret t -> exists p, index2pos L index = Ret p.
Proof.
  unfold lua_type. intros E. inv_bind E. eauto using index2addr_returns.
Qed.

Lemma lua_isboolean_returns (L : State) (index : Z) (b : bool) :
  lua_isboolean L index = Ret b -> exists p, index2pos L index = Ret p.
Proof.
  unfold lua_isboolean. intros E. inv_bind E. eauto using lua_type_returns.
Qed.

Ltac To_index_scalar :=
  let H := fresh "H" in
  intros ? ? ? ? ? H; cbn [To] in H;
  inv_bind H;
  eauto using lua_tointegerx_returns, lua_tonumberx_returns, lua_isboolean_returns.

Lemma numeric_To_frames :
  (To_pure Type_int /\ To_frame Type_int)
  /\ (To_pure Type_uint32_t /\ To_frame Type_uint32_t)
  /\ (To_pure Type_float /\ To_frame Type_float)
  /\ (To_pure Type_double /\ To_frame Type_double)
  /\ (To_pure Type_bool /\ To_frame Type_bool).
Proof.
  assert (H1 : To_pure Type_int)
    by (unfold Type_int, Type_int_To; To_pure_scalar).
  assert (H2 : To_pure Type_uint32_t)
    by (unfold Type_uint32_t, Type_uint32_t_To; To_pure_scalar).
  assert (H3 : To_pure Type_float)
    by (unfold Type_float, Type_float_To; To_pure_scalar).
  assert (H4 : To_pure Type_double)
    by (unfold Type_double, Type_double_To; To_pure_scalar).
  assert (H5 : To_pure Type_bool)
    by (unfold Type_bool, Type_bool_To; To_pure_scalar).
  split; [split; [exact H1 | apply To_pure_frame; [exact H1|]]|].
  { unfold Type_int, Type_int_To. To_index_scalar. }
  split; [split; [exact H2 | apply To_pure_frame; [exact H2|]]|].
  { unfold Type_uint32_t, Type_uint32_t_To. To_index_scalar. }
  split; [split; [exact H3 | apply To_pure_frame; [exact H3|]]|].
  { unfold Type_float, Type_float_To. To_index_scalar. }
  split; [split; [exact H4 | apply To_pure_frame; [exact H4|]]|].
  { unfold Type_double, Type_double_To. To_index_scalar. }
  split; [exact H5 | apply To_pure_frame; [exact H5|]].
  unfold Type_bool, Type_bool_To. To_index_scalar.
Qed.

(** The string specialisations, through [lua_tostring]. *)
Lemma lua_tostring_frame (L L' : State) (index : Z) (s : option string) :
  lua_tostring L index = Ret (L', s) ->
  tables L' = tables L
  /\ exists p, index2pos L index = Ret p
       /\ match p with
          | Some n => exists x, stack L' = list_set n x (stack L)
          | None => stack L' = stack L
          end.
Proof.
  destruct (index2pos L index) as [p| |] eqn:Hp;
    try (unfold lua_tostring; rewrite Hp; discriminate).
  rewrite (lua_tostring_slot _ _ _ Hp). intros H. inv_Ret H.
  destruct p as [n|]; cbn [slot].
  - destruct (nth_error (stack L) n) as [x|] eqn:Hx.
    + destruct x; (split; [reflexivity|]); eexists; (split; [reflexivity|]);
        try (exists (nth n (stack L) LNil); now rewrite list_set_nth);
        eexists; reflexivity.
    + split; [reflexivity|]. eexists. split; [reflexivity|].
      exists (nth n (stack L) LNil). now rewrite list_set_nth.
  - split; [reflexivity|]. eexists. split; reflexivity.
Qed.

Ltac To_frame_string :=
  let H := fresh "H" in
  intros ? ? ? ? ? ? ? H; cbn [To] in H;
  inv_bind H;
  match goal with a : (State * option string)%type |- _ => destruct a as [? [?|]] end;
  inv_Ret H; eauto using lua_tostring_frame.

Lemma string_To_frames :
  To_frame Type_StringPiece /\ To_frame Type_string
  /\ To_frame Type_string16 /\ To_frame Type_const_char_ptr.
Proof.
  split; [|split; [|split]].
  - unfold Type_StringPiece, Type_StringPiece_To. To_frame_string.
  - unfold Type_string, Type_string_To. To_frame_string.
  - unfold Type_string16, Type_string16_To. To_frame_string.
  - unfold Type_const_char_ptr, Type_const_char_ptr_To. To_frame_string.
Qed.

(** The containers. *)
Lemma lua_next_frame (St S1 : State) (index more : Z) :
  lua_next St index = Ret (S1, more) ->
  tables S1 = tables St
  /\ exists k rest, stack St = k :: rest
       /\ ((more = 0 /\ stack S1 = rest)
           \/ (more = 1 /\ exists k' v', stack S1 = v' :: k' :: rest)).
Proof.
  unfold lua_next. intros H. inv_bind H.
  destruct a as [[]|]; try discriminate.
  destruct (stack St) as [|k rest]; try discriminate.
  destruct (nth_error (tables St) r); try discriminate.
  inv_bind H. destruct a as [[k' v']|]; inv_Ret H.
  - split; [reflexivity|]. exists k, rest. split; [reflexivity|]. right.
    split; [reflexivity|]. exists k', v'. reflexivity.
  - split; [reflexivity|]. exists k, rest. split; [reflexivity|]. now left.
Qed.

Lemma index2pos_top (St : State) (v : TValue) (rest : list TValue) :
  stack St = v :: rest -> index2pos St (-1) = Ret (Some 0%nat).
Proof.
  intros Hs. unfold index2pos, lua_gettop. rewrite Hs. cbn [length].
  change (0 <? -1) with false. change (-1 <? 0) with true. cbn iota.
  replace (- -1 <=? Z.of_nat (S (length rest))) with true
    by (symmetry; apply Z.leb_le; lia).
  reflexivity.
Qed.

Lemma index2pos_below_top (St : State) (v k : TValue) (rest : list TValue) :
  stack St = v :: k :: rest -> index2pos St (-2) = Ret (Some 1%nat).
Proof.
  intros Hs. unfold index2pos, lua_gettop. rewrite Hs. cbn [length].
  change (0 <? -2) with false. change (-2 <? 0) with true. cbn iota.
  replace (- -2 <=? Z.of_nat (S (S (length rest)))) with true
    by (symmetry; apply Z.leb_le; lia).
  reflexivity.
Qed.

Lemma lua_pop_frame (St St' : State) (v : TValue) (rest : list TValue) :
  stack St = v :: rest -> lua_pop St 1 = Ret St' ->
  tables St' = tables St /\ stack St' = rest.
Proof.
  intros Hs H.
  assert (E : St = set_stack St (v :: rest))
    by (destruct St; simpl in *; now subst).
  rewrite E, lua_pop_1 in H. inv_Ret H. split; reflexivity.
Qed.

(** An element read at -1, or a key read at -2, changes that slot only. *)
Lemma To_frame_top {T : Type} (d : Type_ T) (Hd : To_frame d) fuel St out St' ok out'
    (v : TValue) (rest : list TValue) :
  stack St = v :: rest ->
  To d fuel St (-1) out = Ret (St', ok, out') ->
  tables St' = tables St /\ exists x, stack St' = x :: rest.
Proof.
  intros Hs H. destruct (Hd _ _ _ _ _ _ _ H) as (Ht & p & Hp & Hst).
  rewrite (index2pos_top St v rest Hs) in Hp. inv_Ret Hp.
  split; [exact Ht|]. destruct Hst as (x & Hx). exists x.
  now rewrite Hx, Hs.
Qed.

Lemma To_frame_below_top {T : Type} (d : Type_ T) (Hd : To_frame d) fuel St out St' ok out'
    (v k : TValue) (rest : list TValue) :
  stack St = v :: k :: rest ->
  To d fuel St (-2) out = Ret (St', ok, out') ->
  tables St' = tables St /\ exists x, stack St' = v :: x :: rest.
Proof.
  intros Hs H. destruct (Hd _ _ _ _ _ _ _ H) as (Ht & p & Hp & Hst).
  rewrite (index2pos_below_top St v k rest Hs) in Hp. inv_Ret Hp.
  split; [exact Ht|]. destruct Hst as (x & Hx). exists x.
  now rewrite Hx, Hs.
Qed.

Lemma Type_vector_To_while_frame {T : Type} (d : Type_ T) (Hd : To_frame d)
    (below : list TValue) :
  forall fuel St index out St' ok out',
    Type_vector_To_while d fuel St index out = Ret (St', ok, out') ->
    (exists k scratch, stack St = k :: scratch ++ below) ->
    tables St' = tables St /\ exists scratch', stack St' = scratch' ++ below.
Proof.
  induction fuel as [|fuel IH]; intros St index out St' ok out' H (k & scratch & Hs);
    simpl in H; [discriminate|].
  inv_bind H. destruct a as [S1 more].
  destruct (lua_next_frame _ _ _ _ E) as (Ht1 & k0 & rest & Hs0 & Hcase).
  rewrite Hs in Hs0. inversion Hs0; subst k0 rest. clear Hs0.
  destruct Hcase as [[-> Hs1]|(-> & k' & v' & Hs1)].
  - change (0 =? 0) with true in H. cbn iota in H. inv_Ret H.
    split; [exact Ht1|]. now exists scratch.
  - change (1 =? 0) with false in H. cbn iota in H.
    inv_bind H. destruct (negb (LuaType_eqb a Number)).
    { inv_Ret H. split; [exact Ht1|]. now exists (v' :: k' :: scratch). }
    inv_bind H. destruct (negb _).
    { inv_Ret H. split; [exact Ht1|]. now exists (v' :: k' :: scratch). }
    inv_bind H. destruct a1 as [[S2 ok2] value].
    destruct (To_frame_top d Hd _ _ _ _ _ _ _ _ Hs1 E2) as (Ht2 & x & Hs2).
    destruct (negb ok2).
    { inv_Ret H. split; [congruence|]. now exists (x :: k' :: scratch). }
    inv_bind H. destruct (lua_pop_frame _ _ _ _ Hs2 E3) as (Ht3 & Hs3).
    destruct (IH _ _ _ _ _ _ H) as (Ht' & scratch' & Hs').
    + now exists k', scratch.
    + split; [congruence | now exists scratch'].
Qed.

Lemma Type_map_To_while_frame {K V : Type} (less : K -> K -> bool)
    (dk : Type_ K) (dv : Type_ V) (Hk : To_frame dk) (Hv : To_frame dv)
    (below : list TValue) :
  forall fuel St index out St' ok out',
    Type_map_To_while less dk dv fuel St index out = Ret (St', ok, out') ->
    (exists k scratch, stack St = k :: scratch ++ below) ->
    tables St' = tables St /\ exists scratch', stack St' = scratch' ++ below.
Proof.
  induction fuel as [|fuel IH]; intros St index out St' ok out' H (k & scratch & Hs);
    simpl in H; [discriminate|].
  inv_bind H. destruct a as [S1 more].
  destruct (lua_next_frame _ _ _ _ E) as (Ht1 & k0 & rest & Hs0 & Hcase).
  rewrite Hs in Hs0. inversion Hs0; subst k0 rest. clear Hs0.
  destruct Hcase as [[-> Hs1]|(-> & k' & v' & Hs1)].
  - change (0 =? 0) with true in H. cbn iota in H. inv_Ret H.
    split; [exact Ht1|]. now exists scratch.
  - change (1 =? 0) with false in H. cbn iota in H.
    inv_bind H. destruct a as [[S2 okk] key].
    destruct (To_frame_below_top dk Hk _ _ _ _ _ _ _ _ _ Hs1 E0) as (Ht2 & xk & Hs2).
    destruct (negb okk).
    { inv_Ret H. split; [congruence|]. now exists (v' :: xk :: scratch). }
    inv_bind H. destruct a as [[S3 okv] value].
    destruct (To_frame_top dv Hv _ _ _ _ _ _ _ _ Hs2 E1) as (Ht3 & xv & Hs3).
    destruct (negb okv).
    { inv_Ret H. split; [congruence|]. now exists (xv :: xk :: scratch). }
    inv_bind H. destruct (lua_pop_frame _ _ _ _ Hs3 E2) as (Ht4 & Hs4).
    destruct (IH _ _ _ _ _ _ H) as (Ht' & scratch' & Hs').
    + now exists xk, scratch.
    + split; [congruence | now exists scratch'].
Qed.

Lemma scope_restored (L S' L'' : State) (scratch : list TValue) :
  tables S' = tables L -> stack S' = scratch ++ stack L ->
  lua_settop S' (lua_gettop L) = Ret L'' -> L'' = L.
Proof.
  intros Ht Hs H.
  assert (E : S' = set_stack L (scratch ++ stack L))
    by (destruct S', L; simpl in *; now subst).
  rewrite E, lua_settop_scratch in H. now inv_Ret H.
Qed.

Lemma GetType_returns (L : State) (index : Z) (t : LuaType) :
  GetType L index = Ret t -> exists p, index2pos L index = Ret p.
Proof.
  unfold GetType. intros E. inv_bind E. eauto using lua_type_returns.
Qed.

Lemma Type_vector_To_pure {T : Type} (d : Type_ T) :
  To_frame d -> To_pure (Type_vector d) /\ To_frame (Type_vector d).
Proof.
  intros Hd.
  assert (Hpure : To_pure (Type_vector d)).
  { intros fuel L index out L' ok out' H.
    cbn [To Type_vector] in H. unfold Type_vector_To in H.
    inv_bind H. destruct (negb (LuaType_eqb a Table_)); [now inv_Ret H|].
    inv_bind H. destruct a0 as [L1 r]. inv_Ret H.
    apply StackAutoReset_inv in E0. destruct E0 as (S' & Hscope & Hreset).
    inv_bind Hscope. destruct a0 as [[S1 ok1] out1]. inv_Ret Hscope.
    destruct (Type_vector_To_while_frame d Hd (stack L) _ _ _ _ _ _ _ E0)
      as (Ht & scratch & Hs).
    - exists LNil, []. reflexivity.
    - eapply scope_restored; eassumption. }
  split; [exact Hpure|]. apply To_pure_frame; [exact Hpure|].
  intros fuel L index out r H. cbn [To Type_vector] in H.
  unfold Type_vector_To in H. inv_bind H. eauto using GetType_returns.
Qed.

Lemma Type_map_To_pure {K V : Type} (less : K -> K -> bool)
    (dk : Type_ K) (dv : Type_ V) :
  To_frame dk -> To_frame dv ->
  To_pure (Type_map less dk dv) /\ To_frame (Type_map less dk dv).
Proof.
  intros Hk Hv.
  assert (Hpure : To_pure (Type_map less dk dv)).
  { intros fuel L index out L' ok out' H.
    cbn [To Type_map] in H. unfold Type_map_To in H.
    inv_bind H. destruct (negb (LuaType_eqb a Table_)); [now inv_Ret H|].
    inv_bind H. destruct a0 as [L1 r]. inv_Ret H.
    apply StackAutoReset_inv in E0. destruct E0 as (S' & Hscope & Hreset).
    inv_bind Hscope. destruct a0 as [[S1 ok1] out1]. inv_Ret Hscope.
    destruct (Type_map_To_while_frame less dk dv Hk Hv (stack L) _ _ _ _ _ _ _ E0)
      as (Ht & scratch & Hs).
    - exists LNil, []. reflexivity.
    - eapply scope_restored; eassumption. }
  split; [exact Hpure|]. apply To_pure_frame; [exact Hpure|].
  intros fuel L index out r H. cbn [To Type_map] in H.
  unfold Type_map_To in H. inv_bind H. eauto using GetType_returns.
Qed.

Lemma Specialisation_To_frame (T : Type) (d : Type_ T) :
  Specialisation T d -> To_frame d.
Proof.
  destruct numeric_To_frames as ((_ & F1) & (_ & F2) & (_ & F3) & (_ & F4) & (_ & F5)).
  destruct string_To_frames as (F6 & F7 & F8 & F9).
  induction 1; try assumption.
  - now apply Type_vector_To_pure.
  - now apply Type_map_To_pure.
Qed.

(** X6. A [To] that returns has changed no table and no stack slot other
    than the one at its index; [To] of [int], [uint32_t], [float], [double],
    [bool] and of every [std::vector] and [std::map] leaves the whole state
    as it was, whatever it returns. *)
Theorem To_leaves_the_state :
  (forall T d, Specialisation T d -> To_frame d)
  /\ To_pure Type_int /\ To_pure Type_uint32_t /\ To_pure Type_float
  /\ To_pure Type_double /\ To_pure Type_bool
  /\ (forall T d, Specialisation T d -> To_pure (Type_vector d))
  /\ (forall K V less dk dv, Specialisation K dk -> Specialisation V dv ->
        To_pure (Type_map (K := K) (V := V) less dk dv)).
Proof.
  destruct numeric_To_frames as ((P1 & _) & (P2 & _) & (P3 & _) & (P4 & _) & (P5 & _)).
  split; [exact Specialisation_To_frame|].
  split; [exact P1|]. split; [exact P2|]. split; [exact P3|].
  split; [exact P4|]. split; [exact P5|]. split.
  - intros T d Hd. apply Type_vector_To_pure. now apply Specialisation_To_frame.
  - intros K V less dk dv Hk Hv.
    apply Type_map_To_pure; now apply Specialisation_To_frame.
Qed.

(** ** What [Push] leaves of the state *)

(** [Push] of [d] puts one slot on the stack as it was and keeps every
    table that exists; it may add tables. *)
Definition Push_frame {T : Type} (d : Type_ T) : Prop :=
  forall L v L',
    Push d L v = Ret L' ->
    (exists x, stack L' = x :: stack L) /\ exists new, tables L' = tables L ++ new.

Lemma list_set_app_r {A : Type} (l l' : list A) (n : nat) (a : A) :
  list_set (length l + n) a (l ++ l') = l ++ list_set n a l'.
Proof. induction l as [|b l IH]; simpl; [destruct l'; reflexivity | now rewrite IH]. Qed.

Lemma RawSet_frame {K V : Type} (PushK : State -> K -> outcome State)
    (PushV : State -> V -> outcome State) :
  (forall L k L', PushK L k = Ret L' ->
     (exists x, stack L' = x :: stack L) /\ exists new, tables L' = tables L ++ new) ->
  (forall L v L', PushV L v = Ret L' ->
     (exists x, stack L' = x :: stack L) /\ exists new, tables L' = tables L ++ new) ->
  forall St key value St' (r : nat) (s : list TValue),
    stack St = LTable r :: s ->
    RawSet PushK PushV St (-1) key value = Ret St' ->
    stack St' = stack St
    /\ exists new t', tables St' = list_set r t' (tables St ++ new).
Proof.
  intros HK HV St key value St' r s Hs H. unfold RawSet in H.
  inv_bind H. inv_bind H.
  destruct (HK _ _ _ E) as ((x & Hx) & (n1 & Hn1)).
  destruct (HV _ _ _ E0) as ((y & Hy) & (n2 & Hn2)).
  unfold lua_rawset in H. inv_bind H.
  assert (Ha : a1 = Some (LTable r)).
  { unfold lua_absindex in E1. change (0 <? -1) with false in E1. cbn iota in E1.
    rewrite index2addr_abs in E1.
    - inv_Ret E1. unfold lua_gettop. rewrite Hy, Hx, Hs. cbn [length].
      replace (Z.to_nat _) with 2%nat by lia. reflexivity.
    - unfold lua_gettop. rewrite Hy, Hx, Hs. cbn [length]. lia. }
  subst a1. rewrite Hy, Hx in H.
  destruct (nth_error (tables a0) r) as [t|]; try discriminate.
  inv_bind H. inv_Ret H. cbn [stack tables]. split; [reflexivity|].
  exists (n1 ++ n2). eexists. rewrite Hn2, Hn1, <- app_assoc. reflexivity.
Qed.

Lemma Push_size_t_frame (L : State) (n : Z) (L' : State) :
  Push_size_t L n = Ret L' ->
  (exists x, stack L' = x :: stack L) /\ exists new, tables L' = tables L ++ new.
Proof.
  intros H. inv_Ret H. split; [eexists; reflexivity|].
  exists []. cbn. now rewrite app_nil_r.
Qed.

(** While a container is built its table is on the top and is the first
    table after those that existed. *)
Definition under_construction (L St : State) : Prop :=
  stack St = LTable (length (tables L)) :: stack L
  /\ exists t new, tables St = tables L ++ t :: new.

Lemma under_construction_set (L St St' : State) :
  under_construction L St ->
  stack St' = stack St ->
  (exists new t', tables St' = list_set (length (tables L)) t' (tables St ++ new)) ->
  under_construction L St'.
Proof.
  intros (Hs & t & new & Ht) Hs' (new' & t' & Ht'). split; [congruence|].
  exists t', (new ++ new'). rewrite Ht', Ht, <- app_assoc.
  rewrite <- (Nat.add_0_r (length (tables L))), list_set_app_r. reflexivity.
Qed.

Lemma Type_vector_Push_for_frame {T : Type} (d : Type_ T) (Hd : Push_frame d)
    (L : State) :
  forall vec St i St',
    under_construction L St ->
    Type_vector_Push_for d St i vec = Ret St' -> under_construction L St'.
Proof.
  induction vec as [|v vec IH]; intros St i St' Hu H; simpl in H.
  - now inv_Ret H.
  - inv_bind H. apply IH in H; [exact H|].
    destruct (RawSet_frame Push_size_t (Push d) Push_size_t_frame Hd
                St (i + 1) v a (length (tables L)) (stack L) (proj1 Hu) E)
      as (Hs & Hn).
    now apply (under_construction_set L St a Hu Hs).
Qed.

Lemma Type_map_Push_for_frame {K V : Type} (dk : Type_ K) (dv : Type_ V)
    (Hk : Push_frame dk) (Hv : Push_frame dv) (L : State) :
  forall dict St St',
    under_construction L St ->
    Type_map_Push_for dk dv St dict = Ret St' -> under_construction L St'.
Proof.
  induction dict as [|it dict IH]; intros St St' Hu H; simpl in H.
  - now inv_Ret H.
  - inv_bind H. apply IH in H; [exact H|].
    destruct (RawSet_frame (Push dk) (Push dv) Hk Hv
                St (fst it) (snd it) a (length (tables L)) (stack L) (proj1 Hu) E)
      as (Hs & Hn).
    now apply (under_construction_set L St a Hu Hs).
Qed.

Lemma NewTable_under_construction (L : State) (arr rec : Z) :
  under_construction L (NewTable L arr rec).
Proof. split; [reflexivity|]. exists [], []. reflexivity. Qed.

Lemma under_construction_frame (L St : State) :
  under_construction L St ->
  (exists x, stack St = x :: stack L) /\ exists new, tables St = tables L ++ new.
Proof. intros (Hs & t & new & Ht). split; eauto. Qed.

Lemma Specialisation_Push_frame (T : Type) (d : Type_ T) :
  Specialisation T d -> Push_frame d.
Proof.
  induction 1 as [| | | | | | | | |T d Hd IH|K V less dk dv Hk IHk Hv IHv];
    try (intros L v L' H; inv_Ret H; split;
         [eexists; reflexivity | exists []; cbn; now rewrite app_nil_r]).
  - intros L v L' H. inv_Ret H. split.
    + destruct v; eexists; reflexivity.
    + exists []. destruct v; cbn; now rewrite app_nil_r.
  - intros L vec L' H. cbn [Push Type_vector] in H. unfold Type_vector_Push in H.
    apply under_construction_frame.
    eapply (Type_vector_Push_for_frame d IH); [|exact H].
    apply NewTable_under_construction.
  - intros L dict L' H. cbn [Push Type_map] in H. unfold Type_map_Push in H.
    apply under_construction_frame.
    eapply (Type_map_Push_for_frame dk dv IHk IHv); [|exact H].
    apply NewTable_under_construction.
Qed.

(** A container leaves its new table on the top. *)
Lemma Type_vector_Push_top (T : Type) (d : Type_ T) (vec : list T) (L L' : State) :
  Specialisation T d -> Push (Type_vector d) L vec = Ret L' ->
  stack L' = LTable (length (tables L)) :: stack L.
Proof.
  intros Hd H. cbn [Push Type_vector] in H. unfold Type_vector_Push in H.
  eapply (Type_vector_Push_for_frame d (Specialisation_Push_frame T d Hd));
    [|exact H].
  apply NewTable_under_construction.
Qed.

Lemma Type_map_Push_top (K V : Type) (less : K -> K -> bool)
    (dk : Type_ K) (dv : Type_ V) (dict : list (K * V)) (L L' : State) :
  Specialisation K dk -> Specialisation V dv ->
  Push (Type_map less dk dv) L dict = Ret L' ->
  stack L' = LTable (length (tables L)) :: stack L.
Proof.
  intros Hk Hv H. cbn [Push Type_map] in H. unfold Type_map_Push in H.
  eapply (Type_map_Push_for_frame dk dv (Specialisation_Push_frame K dk Hk)
            (Specialisation_Push_frame V dv Hv)); [|exact H].
  apply NewTable_under_construction.
Qed.

(** X7. A [Push] that returns has put exactly one slot on top of the stack
    as it was and has changed no table that existed, whatever the
    specialisation, nested containers included; a container leaves its new
    table on the top. *)
Theorem Push_leaves_the_state :
  (forall T d, Specialisation T d -> Push_frame d)
  /\ (forall T d vec L L',
        Specialisation T d -> Push (Type_vector d) L vec = Ret L' ->
        stack L' = LTable (length (tables L)) :: stack L)
  /\ (forall K V less dk dv dict L L',
        Specialisation K dk -> Specialisation V dv ->
        Push (Type_map (K := K) (V := V) less dk dv) L dict = Ret L' ->
        stack L' = LTable (length (tables L)) :: stack L).
Proof.
  split; [exact Specialisation_Push_frame|]. split.
  - intros T d vec L L' Hd H. now apply (Type_vector_Push_top T d vec).
  - intros K V less dk dv dict L L' Hk Hv H.
    now apply (Type_map_Push_top K V less dk dv dict).
Qed.

(** ** Type names *)





End FurtherFrames.

Lemma Z_ltb_order : strict_total_order Z.ltb.
Proof.
  split.
  - apply Z.ltb_irrefl.
  - intros a b c Hab Hbc. apply Z.ltb_lt in Hab, Hbc. apply Z.ltb_lt. lia.
  - intros a b Hab Hba. apply Z.ltb_ge in Hab, Hba. lia.
Qed.

(** ** The tables that [Push] of a container builds *)

Section FurtherContainers.
Context {rt : Runtime} {base : Base}.






(** ** A vector read as a map *)

(** The elements of a vector with their 1-based positions. *)
Fixpoint indexed {T : Type} (i : Z) (vec : list T) : list (Z * T) :=
  match vec with
  | [] => []
  | v :: vec' => (i + 1, v) :: indexed (i + 1) vec'
  end.

Lemma map_To_spec_vector_entries {T : Type} {d : Type_ T} (M : Marshal d)
    (vec : list T) :
  forall i out,
    Forall (wf M) vec -> 0 <= i -> i + Z.of_nat (length vec) <= INT_MAX ->
    map_To_spec Z.ltb Reader_int (reader M) (vector_entries M i vec) out
    = (true, map_assign_all Z.ltb (indexed i vec) out).
Proof.
  induction vec as [|v vec IH]; intros i out Hwf Hi Hmax; [reflexivity|].
  inversion Hwf as [|? ? Hv Hvec]; subst.
  cbn [vector_entries map_To_spec indexed].
  cbn [dec Reader_int luaV_tointeger option_map].
  rewrite (dec_enc M v Hv).
  rewrite to_int_id
    by (unfold is_int, INT_MIN, INT_MAX in *; cbn [length] in Hmax; lia).
  apply IH; [exact Hvec | lia | cbn [length] in Hmax; lia].
Qed.

Lemma indexed_sorted {T : Type} (vec : list T) (i : Z) :
  map_sorted Z.ltb (indexed i vec)
  /\ Forall (fun p => i < fst p) (indexed i vec).
Proof.
  revert i. induction vec as [|v vec IH]; intros i; [split; constructor|].
  destruct (IH (i + 1)) as [Hs Hall]. cbn [indexed]. split.
  - constructor; [exact Hs|].
    eapply Forall_impl; [|exact Hall]. intros p Hp. cbn [fst].
    now apply Z.ltb_lt.
  - constructor; [simpl; lia|].
    eapply Forall_impl; [|exact Hall]. intros p Hp. cbv beta in Hp |- *. lia.
Qed.

(** X11. For an element type that is marshalled (its [Push] writes one
    value, which its [To] reads back as the value pushed without converting
    the slot) and a vector of at most [INT_MAX] well-formed elements: the
    table pushed by [Type<std::vector<T>>::Push] is read by
    [Type<std::map<int, T>>::To], at the absolute index of the table and into
    an empty map, as the map from the 1-based positions to the elements. *)
Theorem Type_vector_read_as_map {T : Type} {d : Type_ T} (M : Marshal d)
    (L : State) (vec : list T) (fuel : nat) :
  Forall (wf M) vec -> Z.of_nat (length vec) <= INT_MAX ->
  (length vec < fuel)%nat ->
  exists L1,
    Push (Type_vector d) L vec = Ret L1
    /\ To (Type_map Z.ltb Type_int d) fuel L1 (lua_gettop L1) []
       = Ret (L1, true, indexed 0 vec).
Proof.
  intros Hwf Hmax Hfuel.
  exists (building (stack L) (tables L) (vector_entries M 0 vec)).
  split; [now apply Type_vector_Push_spec|].
  rewrite (Type_map_To_spec Z.ltb Reader_int (reader M) fuel _ _
             (vector_entries M 0 vec)).
  - rewrite (map_To_spec_vector_entries M vec 0 [] Hwf); [|lia|lia].
    cbn [fst snd].
    now rewrite (map_assign_all_sorted Z.ltb Z_ltb_order
                   (indexed 0 vec) (indexed 0 vec)
                   (proj1 (indexed_sorted vec 0)) (Permutation_refl _)).
  - apply table_at_building.
  - apply vector_entries_ok.
  - intros k' v' _. reflexivity.
  - now rewrite length_vector_entries.
Qed.

(** ** Entries that decode to the same key *)

(** Two keys neither of which is less than the other: the test of
    [std::map] for the key of an entry. *)
Definition key_equiv {K : Type} (less : K -> K -> bool) (a b : K) : bool :=
  negb (less a b) && negb (less b a).

(** [std::map::find]. *)
Fixpoint map_find {K V : Type} (less : K -> K -> bool) (key : K)
    (m : list (K * V)) : option V :=
  match m with
  | [] => None
  | (k, v) :: m' => if key_equiv less key k then Some v else map_find less key m'
  end.

(** The pairs a table decodes to, when every key and value is read. *)
Fixpoint decoded {K V : Type} {dk : Type_ K} {dv : Type_ V}
    (RK : Reader dk) (RV : Reader dv) (t : Table) : option (list (K * V)) :=
  match t with
  | [] => Some []
  | (k, v) :: t' =>
      match dec RK k, dec RV v, decoded RK RV t' with
      | Some key, Some value, Some ps => Some ((key, value) :: ps)
      | _, _, _ => None
      end
  end.

(** The value of the last pair of [ps] with the key [key], [before] when
    there is none. *)
Definition last_write {K V : Type} (less : K -> K -> bool) (key : K)
    (ps : list (K * V)) (before : option V) : option V :=
  fold_left (fun acc p => if key_equiv less (fst p) key then Some (snd p) else acc)
    ps before.

Section LastWrite.
Context {K V : Type} (less : K -> K -> bool).
Hypothesis Hless : strict_total_order less.

Lemma key_equiv_eq (a b : K) : key_equiv less a b = true <-> a = b.
Proof.
  unfold key_equiv. split.
  - intros H. apply andb_prop in H. destruct H as [Hab Hba].
    apply negb_true_iff in Hab, Hba. now apply (less_total _ Hless).
  - intros ->. now rewrite (less_irrefl _ Hless).
Qed.

Lemma key_equiv_neq (a b : K) : a <> b -> key_equiv less a b = false.
Proof.
  intros H. destruct (key_equiv less a b) eqn:E; [|reflexivity].
  apply key_equiv_eq in E. contradiction.
Qed.

Lemma map_find_assign_same (key : K) (value : V) (m : list (K * V)) :
  map_find less key (map_assign less key value m) = Some value.
Proof.
  induction m as [|[k v] m IH]; cbn [map_assign map_find].
  - now rewrite (proj2 (key_equiv_eq key key) eq_refl).
  - destruct (less key k) eqn:E1.
    + cbn [map_find]. now rewrite (proj2 (key_equiv_eq key key) eq_refl).
    + destruct (less k key) eqn:E2; cbn [map_find].
      * unfold key_equiv at 1. rewrite E1, E2. cbn. exact IH.
      * unfold key_equiv. now rewrite E1, E2.
Qed.

Lemma map_find_assign_other (key key' : K) (value : V) (m : list (K * V)) :
  key' <> key ->
  map_find less key' (map_assign less key value m) = map_find less key' m.
Proof.
  intros Hne. induction m as [|[k v] m IH]; cbn [map_assign map_find].
  - now rewrite (key_equiv_neq key' key Hne).
  - destruct (less key k) eqn:E1.
    + cbn [map_find]. now rewrite (key_equiv_neq key' key Hne).
    + destruct (less k key) eqn:E2; cbn [map_find].
      * now rewrite IH.
      * assert (key = k) as <- by now apply (less_total _ Hless).
        now rewrite (key_equiv_neq key' key Hne).
Qed.

Lemma map_find_assign_all (key : K) (ps : list (K * V)) :
  forall out,
    map_find less key (map_assign_all less ps out)
    = last_write less key ps (map_find less key out).
Proof.
  induction ps as [|[k v] ps IH]; intros out; [reflexivity|].
  change (map_assign_all less ((k, v) :: ps) out)
    with (map_assign_all less ps (map_assign less k v out)).
  rewrite IH.
  change (last_write less key ((k, v) :: ps) (map_find less key out))
    with (last_write less key ps
            (if key_equiv less k key then Some v else map_find less key out)).
  f_equal.
  destruct (key_equiv less k key) eqn:E.
  - apply key_equiv_eq in E. subst k. apply map_find_assign_same.
  - apply map_find_assign_other. intros ->.
    now rewrite (proj2 (key_equiv_eq k k) eq_refl) in E.
Qed.

End LastWrite.

Lemma map_To_spec_decoded {K V : Type} {dk : Type_ K} {dv : Type_ V}
    (less : K -> K -> bool) (RK : Reader dk) (RV : Reader dv) (t : Table) :
  forall ps out,
    decoded RK RV t = Some ps ->
    map_To_spec less RK RV t out = (true, map_assign_all less ps out).
Proof.
  induction t as [|[k v] t IH]; intros ps out H; cbn [decoded] in H.
  - inv_Ret H. reflexivity.
  - cbn [map_To_spec].
    destruct (dec RK k) as [key|]; [|discriminate].
    destruct (dec RV v) as [value|]; [|discriminate].
    destruct (decoded RK RV t) as [ps'|]; [|discriminate].
    inv_Ret H. exact (IH ps' (map_assign less key value out) eq_refl).
Qed.

(** X12. For key and value types read from one slot and a table at a
    positive index whose keys are pairwise different, not nil and not
    converted in their slot by the key conversion: when every key and value
    of the table is read, [Type<std::map<K, V>>::To] returns true with the
    state as it was, and in the resulting map every key holds the value of
    the last traversed entry that was read as that key, keys being compared
    by a strict total order; a key that no entry is read as keeps what [*out]
    held before the call. *)
Theorem Type_map_To_last_write_wins {K V : Type} (less : K -> K -> bool)
    {dk : Type_ K} {dv : Type_ V} (RK : Reader dk) (RV : Reader dv)
    (fuel : nat) (L : State) (index : Z) (t : Table) (out ps : list (K * V)) :
  strict_total_order less ->
  table_at L index t -> Table_ok t ->
  (forall k' v', In (k', v') t -> conv RK k' = k') ->
  (length t < fuel)%nat ->
  decoded RK RV t = Some ps ->
  exists out',
    To (Type_map less dk dv) fuel L index out = Ret (L, true, out')
    /\ forall key, map_find less key out'
                   = last_write less key ps (map_find less key out).
Proof.
  intros Hless Ht Hok Hstable Hfuel Hdec.
  exists (map_assign_all less ps out). split.
  - rewrite (Type_map_To_spec less RK RV fuel L index t out Ht Hok Hstable Hfuel).
    now rewrite (map_To_spec_decoded less RK RV t ps out Hdec).
  - intros key. now apply map_find_assign_all.
Qed.

End FurtherContainers.

(** ** Exact conversions between [float], [double] and [int] *)

Lemma iter_pos_Pos_iter {A : Type} (f : A -> A) (p : positive) :
  forall x, iter_pos f p x = Pos.iter f x p.
Proof.
  induction p as [p IH|p IH|]; intros x; cbn [iter_pos Pos.iter].
  - rewrite !IH, !Pos.iter_swap. reflexivity.
  - now rewrite !IH.
  - reflexivity.
Qed.

Lemma digits2_pos_shift (m d : positive) :
  Zpos (digits2_pos (Pos.iter xO m d)) = Zpos (digits2_pos m) + Zpos d.
Proof.
  induction d as [|d IH] using Pos.peano_ind.
  - cbn [Pos.iter digits2_pos]. lia.
  - rewrite Pos.iter_succ. cbn [digits2_pos]. lia.
Qed.

Lemma Zpos_shift (m d : positive) :
  Zpos (Pos.iter xO m d) = Zpos m * 2 ^ Zpos d.
Proof.
  induction d as [|d IH] using Pos.peano_ind.
  - cbn [Pos.iter]. lia.
  - rewrite Pos.iter_succ, Pos2Z.inj_succ, Z.pow_succ_r by lia.
    rewrite Pos2Z.inj_xO, IH. lia.
Qed.

Lemma shr_1_shift (m d : positive) :
  Pos.iter shr_1 {| shr_m := Zpos (Pos.iter xO m d); shr_r := false; shr_s := false |} d
  = {| shr_m := Zpos m; shr_r := false; shr_s := false |}.
Proof.
  induction d as [|d IH] using Pos.peano_ind.
  - reflexivity.
  - rewrite Pos.iter_succ_r, Pos.iter_succ. cbn [shr_1 orb]. exact IH.
Qed.

Lemma binary_round_shl (prec emax : Z) (s : bool) (m d : positive) (e : Z) :
  fexp prec emax (Zpos (digits2_pos m) + e) = e - Zpos d ->
  e - Zpos d <= emax - prec ->
  binary_round prec emax s m e = S754_finite s (Pos.iter xO m d) (e - Zpos d).
Proof.
  intros Hf Hmax. unfold binary_round, shl_align. rewrite Hf.
  replace (e - Zpos d - e) with (Zneg d) by lia.
  unfold binary_round_aux, shr_fexp. cbn [Zdigits2].
  rewrite digits2_pos_shift.
  replace (Zpos (digits2_pos m) + Zpos d + (e - Zpos d)) with (Zpos (digits2_pos m) + e) by lia.
  rewrite Hf, Z.sub_diag. cbn [shr shr_record_of_loc shr_m loc_of_shr_record round_nearest_even].
  cbn [Zdigits2]. rewrite digits2_pos_shift.
  replace (Zpos (digits2_pos m) + Zpos d + (e - Zpos d)) with (Zpos (digits2_pos m) + e) by lia.
  rewrite Hf, Z.sub_diag. cbn [shr shr_record_of_loc shr_m].
  replace (e - Zpos d <=? emax - prec) with true by (symmetry; apply Z.leb_le; lia).
  reflexivity.
Qed.

Lemma binary_round_shr (prec emax : Z) (s : bool) (m d : positive) (e : Z) :
  fexp prec emax (Zpos (digits2_pos m) + e) = e ->
  e <= emax - prec ->
  binary_round prec emax s (Pos.iter xO m d) (e - Zpos d) = S754_finite s m e.
Proof.
  intros Hf Hmax. unfold binary_round, shl_align.
  rewrite digits2_pos_shift.
  replace (Zpos (digits2_pos m) + Zpos d + (e - Zpos d)) with (Zpos (digits2_pos m) + e) by lia.
  rewrite Hf. replace (e - (e - Zpos d)) with (Zpos d) by lia.
  unfold binary_round_aux, shr_fexp. cbn [Zdigits2].
  rewrite digits2_pos_shift.
  replace (Zpos (digits2_pos m) + Zpos d + (e - Zpos d)) with (Zpos (digits2_pos m) + e) by lia.
  rewrite Hf. replace (e - (e - Zpos d)) with (Zpos d) by lia.
  cbn [shr shr_record_of_loc]. rewrite iter_pos_Pos_iter, shr_1_shift.
  cbn [shr_m loc_of_shr_record round_nearest_even Zdigits2].
  replace (e - Zpos d + Zpos d) with e by lia.
  rewrite Hf, Z.sub_diag. cbn [shr shr_record_of_loc shr_m].
  replace (e <=? emax - prec) with true by (symmetry; apply Z.leb_le; lia).
  reflexivity.
Qed.

Lemma binary_normalize_signed (prec emax : Z) (s : bool) (m : positive) (e : Z) :
  binary_normalize prec emax (cond_Zopp s (Zpos m)) e s = binary_round prec emax s m e.
Proof. destruct s; reflexivity. Qed.

(** A [float] widened to [double] and narrowed again is the same [float]. *)
Lemma float_of_double_of_float (x : float) :
  is_float x -> float_of_double (double_of_float x) = x /\ is_double (double_of_float x).
Proof.
  destruct x as [s|s| |s m e]; try (split; reflexivity).
  unfold is_float, is_double, valid_binary, bounded, canonical_mantissa.
  intros H. apply andb_prop in H. destruct H as [Hc Hb].
  apply Z.eqb_eq in Hc. apply Z.leb_le in Hb.
  assert (Hd : Zpos (digits2_pos m) <= 24 /\ -149 <= e).
  { unfold fexp, emin in Hc. lia. }
  destruct Hd as [Hd He].
  set (d := Z.to_pos (53 - Zpos (digits2_pos m))).
  assert (Hdz : Zpos d = 53 - Zpos (digits2_pos m))
    by (unfold d; rewrite Z2Pos.id; lia).
  assert (Hw : double_of_float (S754_finite s m e)
               = S754_finite s (Pos.iter xO m d) (e - Zpos d)).
  { cbn [double_of_float]. rewrite binary_normalize_signed.
    apply binary_round_shl; [unfold fexp, emin|]; lia. }
  rewrite Hw. split.
  - cbn [float_of_double]. rewrite binary_normalize_signed.
    apply binary_round_shr; [exact Hc | lia].
  - apply andb_true_intro. split.
    + apply Z.eqb_eq. rewrite digits2_pos_shift. unfold fexp, emin. lia.
    + apply Z.leb_le. lia.
Qed.

Lemma digits2_pos_lower (m : positive) :
  2 ^ (Zpos (digits2_pos m) - 1) <= Zpos m.
Proof.
  induction m as [m IH|m IH|]; cbn [digits2_pos]; [| |reflexivity].
  - rewrite Pos2Z.inj_succ.
    replace (Z.succ (Zpos (digits2_pos m)) - 1)
      with (Z.succ (Zpos (digits2_pos m) - 1)) by lia.
    rewrite Z.pow_succ_r by lia. lia.
  - rewrite Pos2Z.inj_succ.
    replace (Z.succ (Zpos (digits2_pos m)) - 1)
      with (Z.succ (Zpos (digits2_pos m) - 1)) by lia.
    rewrite Z.pow_succ_r by lia. lia.
Qed.

Lemma digits2_pos_int (m : positive) :
  Zpos m <= 2 ^ 31 -> Zpos (digits2_pos m) <= 32.
Proof.
  intros Hm. destruct (Z.le_gt_cases (Zpos (digits2_pos m)) 32) as [H|H]; [exact H|].
  pose proof (digits2_pos_lower m) as Hl.
  assert (2 ^ 32 <= 2 ^ (Zpos (digits2_pos m) - 1))
    by (apply Z.pow_le_mono_r; lia).
  lia.
Qed.

(** An [int] converted to [double]: the conversion is exact, the result is a
    [double], and truncation gives the [int] back. *)
Lemma trunc_double_of_Z (z : Z) :
  is_int z -> trunc (double_of_Z z) = Some z /\ is_double (double_of_Z z).
Proof.
  unfold is_int, INT_MIN, INT_MAX. intros Hz.
  destruct z as [|m|m]; [split; reflexivity| |].
  - set (d := Z.to_pos (53 - Zpos (digits2_pos m))).
    pose proof (digits2_pos_int m ltac:(lia)) as Hd.
    assert (Hdz : Zpos d = 53 - Zpos (digits2_pos m))
      by (unfold d; rewrite Z2Pos.id; lia).
    assert (Hw : double_of_Z (Zpos m) = S754_finite false (Pos.iter xO m d) (0 - Zpos d)).
    { unfold double_of_Z. cbn [binary_normalize].
      apply binary_round_shl; [unfold fexp, emin|]; lia. }
    rewrite Hw. split.
    + cbn [trunc Z.sub Z.opp Z.add Z.leb Z.compare cond_Zopp].
      rewrite Zpos_shift, Z.div_mul; [reflexivity|].
      apply Z.pow_nonzero; lia.
    + apply andb_true_intro. split.
      * apply Z.eqb_eq. rewrite digits2_pos_shift. unfold fexp, emin. lia.
      * apply Z.leb_le. lia.
  - set (d := Z.to_pos (53 - Zpos (digits2_pos m))).
    pose proof (digits2_pos_int m ltac:(lia)) as Hd.
    assert (Hdz : Zpos d = 53 - Zpos (digits2_pos m))
      by (unfold d; rewrite Z2Pos.id; lia).
    assert (Hw : double_of_Z (Zneg m) = S754_finite true (Pos.iter xO m d) (0 - Zpos d)).
    { unfold double_of_Z. cbn [binary_normalize].
      apply binary_round_shl; [unfold fexp, emin|]; lia. }
    rewrite Hw. split.
    + cbn [trunc Z.sub Z.opp Z.add Z.leb Z.compare cond_Zopp].
      rewrite Zpos_shift, Z.div_mul; [reflexivity|].
      apply Z.pow_nonzero; lia.
    + apply andb_true_intro. split.
      * apply Z.eqb_eq. rewrite digits2_pos_shift. unfold fexp, emin. lia.
      * apply Z.leb_le. lia.
Qed.

Section FurtherNumbers.
Context {rt : Runtime}.

(** X13. A [float] pushed by [Type<float>::Push] is read back by
    [Type<float>::To] as the same [float]: widening to the [double] of the
    runtime and narrowing again loses nothing, for zeros, infinities, NaN
    (one value in this model) and every finite [float]. *)
Theorem Type_float_round_trip (L : State) (number out : float) :
  is_float number ->
  exists L1,
    Type_float_Push L number = Ret L1
    /\ Type_float_To L1 (lua_gettop L1) out = Ret (L1, true, number)
    /\ Type_float_To L1 (-1) out = Ret (L1, true, number).
Proof.
  intros Hn. destruct (float_of_double_of_float number Hn) as [Hrt _].
  exists (lua_pushnumber L (double_of_float number)). split; [reflexivity|].
  unfold Type_float_To, lua_tonumberx, lua_pushnumber.
  rewrite index2addr_pushed_abs, index2addr_pushed_rel.
  cbn [bind luaV_tonumber_ Z.eqb negb]. rewrite Hrt. split; reflexivity.
Qed.

Lemma int_of_double_range (x : double) (z : Z) :
  int_of_double x = Ret z -> is_int z.
Proof.
  unfold int_of_double. destruct (trunc x) as [t|]; [|discriminate].
  destruct (INT_MIN <=? t) eqn:E1; [|discriminate].
  destruct (t <=? INT_MAX) eqn:E2; [|discriminate].
  cbn. intros H. inv_Ret H. apply Z.leb_le in E1, E2. split; assumption.
Qed.

(** X14. [Type<double>] round-trips exactly the doubles that are an [int]:
    such a double pushed by [Push] is read back unchanged, and whatever
    number the slot holds, the value a successful [To] stores is the double
    of some [int]. *)
Theorem Type_double_keeps_ints :
  (forall L z out,
     is_int z ->
     is_double (double_of_Z z)
     /\ exists L1,
          Type_double_Push L (double_of_Z z) = Ret L1
          /\ Type_double_To L1 (lua_gettop L1) out = Ret (L1, true, double_of_Z z))
  /\ (forall L index out L' out',
        Type_double_To L index out = Ret (L', true, out') ->
        exists z, is_int z /\ out' = double_of_Z z).
Proof.
  split.
  - intros L z out Hz. destruct (trunc_double_of_Z z Hz) as [Ht Hd].
    split; [exact Hd|].
    exists (lua_pushnumber L (double_of_Z z)). split; [reflexivity|].
    apply (Type_double_To_truncates _ _ out (double_of_Z z) z);
      [apply index2addr_pushed_abs | exact Ht | exact Hz].
  - intros L index out L' out' H. unfold Type_double_To in H.
    inv_bind H. destruct a as [r success]. inv_bind H.
    apply int_of_double_range in E0.
    destruct (success =? 0); cbn [negb] in H; inv_Ret H.
    exists a. split; [exact E0 | reflexivity].
Qed.

Lemma luaV_flttointns_double_of_Z (z : Z) :
  is_int z -> luaV_flttointns (double_of_Z z) = Some z.
Proof.
  intros Hz. pose proof Hz as Hr. unfold is_int, INT_MIN, INT_MAX in Hr.
  assert (Hrange : (LUA_MININTEGER <=? z) && (z <=? LUA_MAXINTEGER) = true).
  { apply andb_true_intro. unfold LUA_MININTEGER, LUA_MAXINTEGER.
    split; apply Z.leb_le; lia. }
  unfold luaV_flttointns.
  destruct z as [|m|m]; [reflexivity| |].
  - set (d := Z.to_pos (53 - Zpos (digits2_pos m))).
    pose proof (digits2_pos_int m ltac:(lia)) as Hd.
    assert (Hdz : Zpos d = 53 - Zpos (digits2_pos m))
      by (unfold d; rewrite Z2Pos.id; lia).
    assert (Hw : double_of_Z (Zpos m) = S754_finite false (Pos.iter xO m d) (0 - Zpos d)).
    { unfold double_of_Z. cbn [binary_normalize].
      apply binary_round_shl; [unfold fexp, emin|]; lia. }
    rewrite Hw.
    cbn [exact_Z Z.sub Z.opp Z.add Z.leb Z.compare cond_Zopp].
    rewrite Zpos_shift, Z.mod_mul, Z.div_mul by (apply Z.pow_nonzero; lia).
    cbn [Z.eqb]. now rewrite Hrange.
  - set (d := Z.to_pos (53 - Zpos (digits2_pos m))).
    pose proof (digits2_pos_int m ltac:(lia)) as Hd.
    assert (Hdz : Zpos d = 53 - Zpos (digits2_pos m))
      by (unfold d; rewrite Z2Pos.id; lia).
    assert (Hw : double_of_Z (Zneg m) = S754_finite true (Pos.iter xO m d) (0 - Zpos d)).
    { unfold double_of_Z. cbn [binary_normalize].
      apply binary_round_shl; [unfold fexp, emin|]; lia. }
    rewrite Hw.
    cbn [exact_Z Z.sub Z.opp Z.add Z.leb Z.compare cond_Zopp].
    rewrite Zpos_shift, Z.mod_mul, Z.div_mul by (apply Z.pow_nonzero; lia).
    cbn [Z.eqb Z.opp]. now rewrite Hrange.
Qed.

(** X15. Numbers cross between the integer and the floating
    specialisations: an [int] pushed by [Type<int>::Push] is read by
    [Type<double>::To] as its double, and that double pushed by
    [Type<double>::Push] is read by [Type<int>::To] and by
    [Type<uint32_t>::To] as the [int] (modulo 2^32 for [uint32_t]). *)
Theorem int_double_interchange (L : State) (z : Z) :
  is_int z ->
  (forall out, exists L1,
     Type_int_Push L z = Ret L1
     /\ Type_double_To L1 (lua_gettop L1) out = Ret (L1, true, double_of_Z z))
  /\ (forall out, exists L1,
        Type_double_Push L (double_of_Z z) = Ret L1
        /\ Type_int_To L1 (lua_gettop L1) out = Ret (L1, true, z)
        /\ Type_uint32_t_To L1 (lua_gettop L1) out = Ret (L1, true, z mod 2 ^ 32)).
Proof.
  intros Hz. split.
  - intros out. exists (lua_pushinteger L z). split; [reflexivity|].
    destruct (trunc_double_of_Z z Hz) as [Ht _].
    unfold Type_double_To, lua_tonumberx, lua_pushinteger.
    rewrite index2addr_pushed_abs. cbn [bind luaV_tonumber_].
    unfold int_of_double. rewrite Ht.
    unfold is_int in Hz.
    replace (INT_MIN <=? z) with true by (symmetry; apply Z.leb_le; lia).
    replace (z <=? INT_MAX) with true by (symmetry; apply Z.leb_le; lia).
    reflexivity.
  - intros out. exists (lua_pushnumber L (double_of_Z z)). split; [reflexivity|].
    pose proof (luaV_flttointns_double_of_Z z Hz) as Hi.
    unfold Type_int_To, Type_uint32_t_To, lua_tointegerx, lua_pushnumber.
    rewrite index2addr_pushed_abs. cbn [bind luaV_tointeger]. rewrite Hi.
    cbn [bind Z.eqb negb]. rewrite to_uint32_t_to_int, (to_int_id z Hz).
    split; reflexivity.
Qed.

(** ** The string conversions convert the slot *)

Lemma index2pos_set_stack (L : State) (s : list TValue) (index : Z) :
  length s = length (stack L) -> index2pos (set_stack L s) index = index2pos L index.
Proof.
  intros H. unfold index2pos, lua_gettop. cbn [stack set_stack]. now rewrite H.
Qed.

Lemma nth_error_list_set {A : Type} (n : nat) (a b : A) (l : list A) :
  nth_error l n = Some b -> nth_error (list_set n a l) n = Some a.
Proof.
  revert n. induction l as [|c l IH]; intros [|n]; simpl; intros H;
    try discriminate; auto.
Qed.

(** X16. [Type<std::string>::To] on a slot that holds an integer is not a
    pure read: it returns the decimal form of the integer and leaves that
    string in the slot, so that the type of the slot has changed from number
    to string; the tables and the height of the stack are unchanged. *)
Theorem Type_string_To_converts_slot (L : State) (index i : Z) (out : string) :
  index2addr L index = Ret (Some (LInteger i)) ->
  exists L',
    Type_string_To L index out = Ret (L', true, lua_integer2str i)
    /\ index2addr L' index = Ret (Some (LString (lua_integer2str i)))
    /\ GetType L index = Ret Number
    /\ GetType L' index = Ret String_
    /\ tables L' = tables L
    /\ lua_gettop L' = lua_gettop L.
Proof.
  intros H. pose proof H as H0.
  apply index2addr_inv in H. destruct H as (p & Hp & Hs).
  destruct p as [p|]; [|discriminate]. cbn [slot] in Hs.
  exists (set_stack L (list_set p (LString (lua_integer2str i)) (stack L))).
  assert (Hslot : index2addr
            (set_stack L (list_set p (LString (lua_integer2str i)) (stack L))) index
          = Ret (Some (LString (lua_integer2str i)))).
  { unfold index2addr. rewrite index2pos_set_stack by apply length_list_set.
    rewrite Hp. cbn [bind slot stack set_stack].
    now rewrite (nth_error_list_set _ _ _ _ Hs). }
  split.
  { unfold Type_string_To. rewrite (lua_tostring_reads L index p _ Hp Hs).
    cbn [bind tostring_conv string_form luaO_tostring].
    now rewrite c_str_lua_integer2str. }
  split; [exact Hslot|].
  split; [unfold GetType, lua_type; now rewrite H0|].
  split; [unfold GetType, lua_type; now rewrite Hslot|].
  split; [reflexivity|].
  unfold lua_gettop. cbn [stack set_stack]. now rewrite length_list_set.
Qed.

(** ** The empty table *)

Lemma empty_table_ok : Table_ok [].
Proof. split; [constructor | intros []]. Qed.

(** X17. On an empty table at a positive index [To] of a vector and of a
    map returns true without reading an element: [*out] keeps what it held
    (it is not cleared) and the state is as it was, whatever the element
    types. *)
Theorem To_empty_table (L : State) (index : Z) (fuel : nat) :
  table_at L index [] -> (0 < fuel)%nat ->
  (forall (T : Type) (d : Type_ T) (out : list T),
     To (Type_vector d) fuel L index out = Ret (L, true, out))
  /\ (forall (K V : Type) (less : K -> K -> bool) (dk : Type_ K) (dv : Type_ V)
        (out : list (K * V)),
        To (Type_map less dk dv) fuel L index out = Ret (L, true, out)).
Proof.
  intros Ht Hfuel. destruct fuel as [|fuel]; [lia|].
  pose proof (lua_next_cursor L index [] [] LNil Ht empty_table_ok cursor_first)
    as Hnext.
  split.
  - intros T d out. cbn [To Type_vector]. unfold Type_vector_To.
    rewrite (GetType_table_at _ _ _ Ht). cbn [bind]. change (negb _) with false.
    cbn iota. unfold StackAutoReset, lua_pushnil, lua_push.
    cbn [Type_vector_To_while]. rewrite Hnext. cbn [bind].
    change (0 =? 0) with true. cbn iota. cbn [bind].
    pose proof (lua_settop_scratch L []) as Hreset. cbn [app] in Hreset.
    rewrite Hreset. reflexivity.
  - intros K V less dk dv out. cbn [To Type_map]. unfold Type_map_To.
    rewrite (GetType_table_at _ _ _ Ht). cbn [bind]. change (negb _) with false.
    cbn iota. unfold StackAutoReset, lua_pushnil, lua_push.
    cbn [Type_map_To_while]. rewrite Hnext. cbn [bind].
    change (0 =? 0) with true. cbn iota. cbn [bind].
    pose proof (lua_settop_scratch L []) as Hreset. cbn [app] in Hreset.
    rewrite Hreset. reflexivity.
Qed.

End FurtherNumbers.

(** ** Calls that return *)

Section FurtherCalls.
Context {rt : Runtime} {base : Base}.

(** The calls covered below, with the state they are made in: [Push] of a
    well-formed value of a marshalled type, of a vector or a map of such
    values, and the three [Push] without a [To]; [To] of a type read from one
    slot at an index that designates a slot, [To] of a vector or a map of
    such types at a positive index that holds a table, and [To] of any vector
    or map at a slot that is not a table. *)
Inductive ready : call -> State -> Prop :=
| ready_Push (T : Type) (d : Type_ T) (M : Marshal d) (value : T) (L : State) :
    wf M value -> ready (Call_Push T d value) L
| ready_Push_vector (T : Type) (d : Type_ T) (M : Marshal d) (vec : list T)
    (L : State) :
    Forall (wf M) vec -> ready (Call_Push (list T) (Type_vector d) vec) L
| ready_Push_map (K V : Type) (less : K -> K -> bool) (dk : Type_ K)
    (dv : Type_ V) (MK : Marshal dk) (MV : Marshal dv) (dict : list (K * V))
    (L : State) :
    Forall (entry_ok MK MV) dict -> NoDup (map fst dict) ->
    ready (Call_Push (list (K * V)) (Type_map less dk dv) dict) L
| ready_Push_nullptr_t (L : State) : ready Call_Push_nullptr_t L
| ready_Push_void_ptr (ptr : Z) (L : State) : ready (Call_Push_void_ptr ptr) L
| ready_Push_const_char_array (n : nat) (str : string) (L : State) :
    ready (Call_Push_const_char_array n str) L
| ready_To (T : Type) (d : Type_ T) (R : Reader d) (fuel : nat) (index : Z)
    (out : T) (L : State) (p : nat) (x : TValue) :
    index2pos L index = Ret (Some p) -> nth_error (stack L) p = Some x ->
    ready (Call_To T d fuel index out) L
| ready_To_vector (T : Type) (d : Type_ T) (R : Reader d) (fuel : nat)
    (index : Z) (out : list T) (L : State) (t : Table) :
    table_at L index t -> Table_ok t -> (length t < fuel)%nat ->
    ready (Call_To (list T) (Type_vector d) fuel index out) L
| ready_To_map (K V : Type) (less : K -> K -> bool) (dk : Type_ K)
    (dv : Type_ V) (RK : Reader dk) (RV : Reader dv) (fuel : nat) (index : Z)
    (out : list (K * V)) (L : State) (t : Table) :
    table_at L index t -> Table_ok t ->
    (forall k' v', In (k', v') t -> conv RK k' = k') ->
    (length t < fuel)%nat ->
    ready (Call_To (list (K * V)) (Type_map less dk dv) fuel index out) L
| ready_To_vector_no_table (T : Type) (d : Type_ T) (fuel : nat) (index : Z)
    (out : list T) (L : State) (t : LuaType) :
    GetType L index = Ret t -> t <> Table_ ->
    ready (Call_To (list T) (Type_vector d) fuel index out) L
| ready_To_map_no_table (K V : Type) (less : K -> K -> bool) (dk : Type_ K)
    (dv : Type_ V) (fuel : nat) (index : Z) (out : list (K * V)) (L : State)
    (t : LuaType) :
    GetType L index = Ret t -> t <> Table_ ->
    ready (Call_To (list (K * V)) (Type_map less dk dv) fuel index out) L.

(** A sequence of calls each of which is ready in the state the calls before
    it leave. *)
Inductive all_ready : list call -> State -> Prop :=
| all_ready_nil (L : State) : all_ready [] L
| all_ready_cons (c : call) (calls : list call) (L : State) :
    ready c L ->
    (forall L', run_call c L = Ret L' -> all_ready calls L') ->
    all_ready (c :: calls) L.

Lemma not_Table_eqb (t : LuaType) :
  t <> Table_ -> negb (LuaType_eqb t Table_) = true.
Proof.
  intros Hne. apply negb_true_iff.
  destruct (LuaType_eqb t Table_) eqn:E; [|reflexivity].
  apply LuaType_eqb_eq in E. contradiction.
Qed.

Lemma lua_gettop_building (s : list TValue) (tb : list Table) (t : Table) (L : State) :
  s = stack L -> lua_gettop (building s tb t) = lua_gettop L + 1.
Proof. intros ->. unfold lua_gettop, building. cbn [stack length]. lia. Qed.

(** A ready call returns, one slot higher for [Push] and at the same height
    for [To]. *)
Lemma ready_returns (c : call) (L : State) :
  ready c L ->
  exists L', run_call c L = Ret L' /\ lua_gettop L' = lua_gettop L + contract c.
Proof.
  intros H. destruct H as
    [T d M value L Hwf | T d M vec L Hwf | K V less dk dv MK MV dict L Hwf Hnd
    | L | ptr L | n str L
    | T d R fuel index out L p x Hp Hx
    | T d R fuel index out L t Ht Hok Hfuel
    | K V less dk dv RK RV fuel index out L t Ht Hok Hstable Hfuel
    | T d fuel index out L t Ht Hne
    | K V less dk dv fuel index out L t Ht Hne];
    cbn [run_call contract].
  - rewrite (Push_writes M L value Hwf). eexists. split; [reflexivity|].
    apply lua_gettop_push.
  - rewrite (Type_vector_Push_spec M L vec Hwf). eexists. split; [reflexivity|].
    now apply lua_gettop_building.
  - rewrite (Type_map_Push_spec less MK MV L dict Hwf Hnd). eexists.
    split; [reflexivity|]. now apply lua_gettop_building.
  - eexists. split; [reflexivity|]. apply lua_gettop_push.
  - eexists. split; [reflexivity|]. apply lua_gettop_push.
  - eexists. split; [reflexivity|]. apply lua_gettop_push.
  - rewrite (To_reads R fuel L index out p x Hp Hx). cbn [bind]. eexists.
    split; [reflexivity|]. unfold lua_gettop, set_stack. cbn [stack].
    rewrite length_list_set. lia.
  - rewrite (Type_vector_To_spec R fuel L index t out Ht Hok Hfuel). cbn [bind].
    eexists. split; [reflexivity|]. lia.
  - rewrite (Type_map_To_spec less RK RV fuel L index t out Ht Hok Hstable Hfuel).
    cbn [bind]. eexists. split; [reflexivity|]. lia.
  - cbn [To Type_vector]. unfold Type_vector_To. rewrite Ht. cbn [bind].
    rewrite (not_Table_eqb t Hne). cbn [bind]. eexists. split; [reflexivity|]. lia.
  - cbn [To Type_map]. unfold Type_map_To. rewrite Ht. cbn [bind].
    rewrite (not_Table_eqb t Hne). cbn [bind]. eexists. split; [reflexivity|]. lia.
Qed.

(** X19. A sequence of [Push] and [To] calls each of which is ready in the
    state it is made in returns, and the height of the stack has changed by
    one slot for every [Push], of a scalar or of a container, and by none for
    a [To], whether it returned true or false. *)
Theorem ready_calls_return (calls : list call) (L : State) :
  all_ready calls L ->
  exists L', run calls L = Ret L' /\ lua_gettop L' = lua_gettop L + contracts calls.
Proof.
  intros H. induction H as [L | c calls L Hc Hnext IH].
  - exists L. split; [reflexivity|]. cbn [contracts fold_right]. lia.
  - destruct (ready_returns c L Hc) as (L1 & E1 & H1).
    destruct (IH L1 E1) as (L' & E & H').
    exists L'. cbn [run]. rewrite E1. cbn [bind]. split; [exact E|].
    unfold contracts in *. cbn [fold_right]. lia.
Qed.

End FurtherCalls.

(** * Concrete runs *)

(** The runs below use [sample_runtime] and [sample_base]. *)
#[local] Existing Instance sample_runtime.
#[local] Existing Instance sample_base.


Lemma table_at_one_table (t : Table) : table_at (one_table t) 1 t.
Proof.
  split; [unfold lua_gettop; simpl; lia|].
  exists 0%nat. split; reflexivity.
Qed.

(** The number 0 is not read as a boolean. *)
Lemma Type_bool_To_strict_witness :
  index2addr (one_slot (LInteger 0)) 1 = Ret (Some (LInteger 0))
  /\ Type_bool_To (one_slot (LInteger 0)) 1 true
     = Ret (one_slot (LInteger 0), false, true).
Proof.
  split; [reflexivity|].
  apply (proj1 (proj2 (Type_bool_To_strict (one_slot (LInteger 0)) 1 true))).
  reflexivity.
Defined.

(** [UINT32_MAX] is read back. *)
Lemma Type_uint32_t_To_modular_witness :
  is_uint32_t 4294967295
  /\ exists L1,
       Type_uint32_t_Push empty_state 4294967295 = Ret L1
       /\ Type_uint32_t_To L1 (lua_gettop L1) 0
          = Ret (L1, true, 4294967295)
       /\ Type_uint32_t_To L1 (-1) 0
          = Ret (L1, true, 4294967295).
Proof.
  assert (H : is_uint32_t 4294967295)
    by (unfold is_uint32_t, UINT32_MAX; lia).
  split; [exact H|].
  exact (proj2 (Type_uint32_t_To_modular)
           empty_state 4294967295 0 H).
Defined.

(** The number 42 is read as the string "42". *)
Lemma string_To_inherits_coercion_witness :
  index2addr (one_slot (LInteger 42)) 1 = Ret (Some (LInteger 42))
  /\ exists L',
       Type_string_To (one_slot (LInteger 42)) 1 ""
       = Ret (L', true, "42").
Proof.
  split; [reflexivity|].
  exact (proj1 (proj1 (string_To_inherits_coercion
                         (one_slot (LInteger 42)) 1 (Some (LInteger 42)) eq_refl)
                  "42" eq_refl) "").
Defined.


(** The vector with the one element 7 is not read back. *)
Lemma Type_vector_round_trip_fails_witness :
  let M := Marshal_int in
  Forall (wf M) [7]
  /\ (length [7] < 2)%nat
  /\ exists L1,
       Push (Type_vector Type_int) empty_state [7] = Ret L1
       /\ To (Type_vector Type_int) 2 L1 (lua_gettop L1) [] = Ret (L1, false, []).
Proof.
  intros M.
  assert (Hw : Forall (wf M) [7]).
  { repeat constructor; unfold INT_MIN, INT_MAX; simpl; lia. }
  assert (Hf : (length [7] < 2)%nat) by (simpl; lia).
  split; [exact Hw|]. split; [exact Hf|].
  exact (Type_vector_round_trip_fails M empty_state 7 [] 2 Hw Hf).
Defined.

(** The table with the single key -1 is read as a vector. *)
Lemma Type_vector_To_accepts_key_minus_1_witness :
  table_at (one_table [(LInteger (-1), LInteger 5)]) 1 [(LInteger (-1), LInteger 5)]
  /\ is_int 5
  /\ To (Type_vector Type_int) 2
       (one_table [(LInteger (-1), LInteger 5)]) 1 []
     = Ret (one_table [(LInteger (-1), LInteger 5)], true, [5]).
Proof.
  assert (Hi : is_int 5) by (unfold is_int, INT_MIN, INT_MAX; lia).
  assert (Hf : (1 < 2)%nat) by lia.
  split; [apply table_at_one_table|]. split; [exact Hi|].
  exact (Type_vector_To_accepts_key_minus_1 2 _ 1 5
           (table_at_one_table _) Hi Hf).
Defined.



(** Two pushes and two refused conversions leave two slots. *)
Lemma stack_neutrality_witness :
  let calls :=
    [Call_Push (list Z) (Type_vector (Type_int)) [1; 2];
     Call_To (list Z) (Type_vector (Type_int)) 3 1 [];
     Call_Push bool Type_bool true;
     Call_To string (Type_string) 0 (-1) ""] in
  Forall (of_this_layer) calls
  /\ exists L',
       run calls empty_state = Ret L'
       /\ lua_gettop L' = lua_gettop empty_state + 2.
Proof.
  intros calls.
  assert (Hl : Forall (of_this_layer) calls).
  { repeat constructor. }
  split; [exact Hl|].
  eexists. split; [reflexivity|].
  exact (stack_neutrality
           calls empty_state _ Hl eq_refl).
Defined.

(** A [std::string] with a NUL byte is cut at the NUL when read back. *)
Lemma Type_string_round_trip_NUL :
  let str := String "a" (String NUL (String "b" EmptyString)) in
  exists L1,
    Type_string_Push empty_state str = Ret L1
    /\ Type_string_To L1 (lua_gettop L1) "" = Ret (L1, true, "a").
Proof. intros str. eexists. split; reflexivity. Qed.

(** ** Traversals whose keys are converted in place

    [Type<std::string>::To] on a number key converts the key in its slot,
    and the next [lua_next] receives the string. *)

(** With the only key 1, the string "1" is not a key of the table and
    [lua_next] raises an error. *)
Lemma Type_map_To_converted_key_error :
  To (Type_map String.ltb Type_string Type_int) 3
    (one_table [(LInteger 1, LInteger 6)]) 1 [] = Fault.
Proof. reflexivity. Qed.

(** With the keys "1" and 1 traversed in this order, [lua_next] goes back to
    the entry after "1" for ever: no amount of fuel lets [To] return. *)
Lemma Type_map_To_converted_key_loops (fuel : nat) :
  To (Type_map String.ltb Type_string Type_int) fuel
    (one_table [(LString "1", LInteger 5); (LInteger 1, LInteger 6)]) 1 []
  = OutOfFuel.
Proof.
  set (t := [(LString "1", LInteger 5); (LInteger 1, LInteger 6)]).
  assert (Hloop : forall n out,
    Type_map_To_while String.ltb Type_string Type_int n
      (set_stack (one_table t) [LString "1"; LTable 0]) 1 out = OutOfFuel).
  { induction n as [|n IH]; intros out; [reflexivity|].
    cbn [Type_map_To_while].
    change (lua_next (set_stack (one_table t) [LString "1"; LTable 0]) 1)
      with (Ret (set_stack (one_table t) [LInteger 6; LInteger 1; LTable 0], 1)).
    cbn [bind]. change (1 =? 0) with false. cbn iota.
    change (To Type_string n
              (set_stack (one_table t) [LInteger 6; LInteger 1; LTable 0]) (-2)
              (init Type_string))
      with (Ret (set_stack (one_table t) [LInteger 6; LString "1"; LTable 0],
                 true, "1")).
    cbn [bind negb].
    change (To Type_int n
              (set_stack (one_table t) [LInteger 6; LString "1"; LTable 0]) (-1)
              (init Type_int))
      with (Ret (set_stack (one_table t) [LInteger 6; LString "1"; LTable 0],
                 true, 6)).
    cbn [bind negb]. rewrite lua_pop_1. cbn [bind]. apply IH. }
  destruct fuel as [|fuel]; [reflexivity|].
  cbn [To Type_map]. unfold Type_map_To.
  change (GetType (one_table t) 1) with (Ret Table_). cbn [bind].
  change (negb (LuaType_eqb Table_ Table_)) with false. cbn iota.
  unfold StackAutoReset. cbn [Type_map_To_while].
  change (lua_next (lua_pushnil (one_table t)) 1)
    with (Ret (set_stack (one_table t) [LInteger 5; LString "1"; LTable 0], 1)).
  cbn [bind]. change (1 =? 0) with false. cbn iota.
  change (To Type_string fuel
            (set_stack (one_table t) [LInteger 5; LString "1"; LTable 0]) (-2)
            (init Type_string))
    with (Ret (set_stack (one_table t) [LInteger 5; LString "1"; LTable 0],
               true, "1")).
  cbn [bind negb].
  change (To Type_int fuel
            (set_stack (one_table t) [LInteger 5; LString "1"; LTable 0]) (-1)
            (init Type_int))
    with (Ret (set_stack (one_table t) [LInteger 5; LString "1"; LTable 0],
               true, 5)).
  cbn [bind negb]. rewrite lua_pop_1. cbn [bind].
  rewrite Hloop. reflexivity.
Qed.

(** * Concrete runs of the further properties *)

(** 2^32 + 5 is read as the [int] 5. *)
Lemma Type_int_To_wraps_witness :
  index2addr (one_slot (LInteger 4294967301)) 1 = Ret (Some (LInteger 4294967301))
  /\ Type_int_To (one_slot (LInteger 4294967301)) 1 0
     = Ret (one_slot (LInteger 4294967301), true, 5).
Proof.
  split; [reflexivity|].
  exact (proj1 Type_int_To_wraps (one_slot (LInteger 4294967301)) 1 0
           (LInteger 4294967301) 4294967301 eq_refl eq_refl).
Defined.

(** The code units of "hi" are read back. *)
Lemma Type_string16_round_trip_witness :
  UTF8ToUTF16 (c_str (UTF16ToUTF8 [104; 105])) = [104; 105]
  /\ exists L1,
       Type_string16_Push empty_state [104; 105] = Ret L1
       /\ Type_string16_To L1 (lua_gettop L1) [] = Ret (L1, true, [104; 105]).
Proof.
  split; [reflexivity|].
  exact (Type_string16_round_trip empty_state [104; 105] [] eq_refl).
Defined.

(** A nil slot is refused by [std::vector<int>]. *)
Lemma To_refuses_unreadable_witness :
  Specialisation (list Z) (Type_vector Type_int)
  /\ index2addr (one_slot LNil) 1 = Ret (Some LNil)
  /\ unreadable (Some LNil)
  /\ To (Type_vector Type_int) 1 (one_slot LNil) 1 [3] = Ret (one_slot LNil, false, [3]).
Proof.
  assert (Hs : Specialisation (list Z) (Type_vector Type_int))
    by (repeat constructor).
  split; [exact Hs|]. split; [reflexivity|]. split; [exact I|].
  exact (To_refuses_unreadable (list Z) (Type_vector Type_int) Hs 1%nat
           (one_slot LNil) 1 [3] (Some LNil) eq_refl I).
Defined.

(** Reading the number 7 as a string changes its slot and nothing else. *)
Lemma To_leaves_the_state_witness :
  let L := {| stack := [LInteger 7; LBoolean true]; tables := [] |} in
  let L' := {| stack := [LString "7"; LBoolean true]; tables := [] |} in
  Specialisation string Type_string
  /\ To Type_string 0 L (-1) "" = Ret (L', true, "7")
  /\ tables L' = tables L
  /\ exists p, index2pos L (-1) = Ret p
       /\ match p with
          | Some n => exists x, stack L' = list_set n x (stack L)
          | None => stack L' = stack L
          end.
Proof.
  intros L L'.
  assert (Hs : Specialisation string Type_string) by constructor.
  assert (E : To Type_string 0 L (-1) "" = Ret (L', true, "7")) by reflexivity.
  split; [exact Hs|]. split; [exact E|].
  exact (proj1 To_leaves_the_state string Type_string Hs 0%nat L (-1) "" L' true "7" E).
Defined.

(** A vector of vectors leaves its table on the top of the empty stack. *)
Lemma Push_leaves_the_state_witness :
  Specialisation (list Z) (Type_vector Type_int)
  /\ exists L',
       Push (Type_vector (Type_vector Type_int)) empty_state [[1]; [2; 3]] = Ret L'
       /\ stack L' = LTable (length (tables empty_state)) :: stack empty_state.
Proof.
  assert (Hs : Specialisation (list Z) (Type_vector Type_int))
    by (repeat constructor).
  split; [exact Hs|].
  eexists. split; [reflexivity|].
  exact (proj1 (proj2 Push_leaves_the_state) (list Z) (Type_vector Type_int)
           [[1]; [2; 3]] empty_state _ Hs eq_refl).
Defined.




(** The vector 7, 8 read as the map 1 -> 7, 2 -> 8. *)
Lemma Type_vector_read_as_map_witness :
  Forall (wf Marshal_int) [7; 8]
  /\ Z.of_nat (length [7; 8]) <= INT_MAX
  /\ (length [7; 8] < 3)%nat
  /\ exists L1,
       Push (Type_vector Type_int) empty_state [7; 8] = Ret L1
       /\ To (Type_map Z.ltb Type_int Type_int) 3 L1 (lua_gettop L1) []
          = Ret (L1, true, [(1, 7); (2, 8)]).
Proof.
  assert (Hw : Forall (wf Marshal_int) [7; 8]).
  { repeat constructor; unfold INT_MIN, INT_MAX; simpl; lia. }
  assert (Hm : Z.of_nat (length [7; 8]) <= INT_MAX)
    by (unfold INT_MAX; simpl; lia).
  assert (Hf : (length [7; 8] < 3)%nat) by (simpl; lia).
  split; [exact Hw|]. split; [exact Hm|]. split; [exact Hf|].
  exact (Type_vector_read_as_map Marshal_int empty_state [7; 8] 3 Hw Hm Hf).
Defined.

(** The keys 1 and 2^32 + 1 are both read as the [uint32_t] 1; the entry
    traversed last gives the value. *)
Lemma Type_map_To_last_write_wins_witness :
  let t := [(LInteger 1, LInteger 10); (LInteger 4294967297, LInteger 20)] in
  let ps := [(1, 10); (1, 20)] in
  strict_total_order Z.ltb
  /\ table_at (one_table t) 1 t
  /\ Table_ok t
  /\ (forall k' v', In (k', v') t -> conv Reader_uint32_t k' = k')
  /\ (length t < 3)%nat
  /\ decoded Reader_uint32_t Reader_int t = Some ps
  /\ exists out',
       To (Type_map Z.ltb Type_uint32_t Type_int) 3 (one_table t) 1 []
       = Ret (one_table t, true, out')
       /\ forall key, map_find Z.ltb key out'
                      = last_write Z.ltb key ps (map_find Z.ltb key []).
Proof.
  intros t ps.
  assert (Hok : Table_ok t).
  { split; [repeat constructor; simpl; intuition discriminate
           | simpl; intuition discriminate]. }
  assert (Hst : forall k' v', In (k', v') t -> conv Reader_uint32_t k' = k')
    by (intros; reflexivity).
  assert (Hf : (length t < 3)%nat) by (simpl; lia).
  assert (Hd : decoded Reader_uint32_t Reader_int t = Some ps) by reflexivity.
  split; [exact Z_ltb_order|]. split; [apply table_at_one_table|].
  split; [exact Hok|]. split; [exact Hst|]. split; [exact Hf|]. split; [exact Hd|].
  exact (Type_map_To_last_write_wins Z.ltb Reader_uint32_t Reader_int 3
           (one_table t) 1 t [] ps Z_ltb_order (table_at_one_table t) Hok Hst Hf Hd).
Defined.

(** The [float] 1.5 is read back. *)
Lemma Type_float_round_trip_witness :
  let x := S754_finite false 12582912 (-23) in
  is_float x
  /\ exists L1,
       Type_float_Push empty_state x = Ret L1
       /\ Type_float_To L1 (lua_gettop L1) (S754_zero false) = Ret (L1, true, x)
       /\ Type_float_To L1 (-1) (S754_zero false) = Ret (L1, true, x).
Proof.
  intros x.
  assert (H : is_float x) by reflexivity.
  split; [exact H|].
  exact (Type_float_round_trip empty_state x (S754_zero false) H).
Defined.

(** The double -7 is read back. *)
Lemma Type_double_keeps_ints_witness :
  is_int (-7)
  /\ is_double (double_of_Z (-7))
  /\ exists L1,
       Type_double_Push empty_state (double_of_Z (-7)) = Ret L1
       /\ Type_double_To L1 (lua_gettop L1) (S754_zero false)
          = Ret (L1, true, double_of_Z (-7)).
Proof.
  assert (H : is_int (-7)) by (unfold is_int, INT_MIN, INT_MAX; lia).
  split; [exact H|].
  exact (proj1 Type_double_keeps_ints empty_state (-7) (S754_zero false) H).
Defined.

(** 42 as an [int] and as a [double]. *)
Lemma int_double_interchange_witness :
  is_int 42
  /\ (exists L1,
        Type_int_Push empty_state 42 = Ret L1
        /\ Type_double_To L1 (lua_gettop L1) (S754_zero false)
           = Ret (L1, true, double_of_Z 42))
  /\ (exists L1,
        Type_double_Push empty_state (double_of_Z 42) = Ret L1
        /\ Type_int_To L1 (lua_gettop L1) 0 = Ret (L1, true, 42)
        /\ Type_uint32_t_To L1 (lua_gettop L1) 0 = Ret (L1, true, 42 mod 2 ^ 32)).
Proof.
  assert (H : is_int 42) by (unfold is_int, INT_MIN, INT_MAX; lia).
  split; [exact H|]. split.
  - exact (proj1 (int_double_interchange empty_state 42 H) (S754_zero false)).
  - exact (proj2 (int_double_interchange empty_state 42 H) 0).
Defined.

(** The slot holding 42 holds "42" after it was read as a string. *)
Lemma Type_string_To_converts_slot_witness :
  index2addr (one_slot (LInteger 42)) 1 = Ret (Some (LInteger 42))
  /\ exists L',
       Type_string_To (one_slot (LInteger 42)) 1 "" = Ret (L', true, lua_integer2str 42)
       /\ index2addr L' 1 = Ret (Some (LString (lua_integer2str 42)))
       /\ GetType (one_slot (LInteger 42)) 1 = Ret Number
       /\ GetType L' 1 = Ret String_
       /\ tables L' = tables (one_slot (LInteger 42))
       /\ lua_gettop L' = lua_gettop (one_slot (LInteger 42)).
Proof.
  split; [reflexivity|].
  exact (Type_string_To_converts_slot (one_slot (LInteger 42)) 1 42 "" eq_refl).
Defined.

(** The empty table read into a vector that holds 4. *)
Lemma To_empty_table_witness :
  table_at (one_table []) 1 []
  /\ (0 < 1)%nat
  /\ To (Type_vector Type_int) 1 (one_table []) 1 [4] = Ret (one_table [], true, [4]).
Proof.
  assert (Hf : (0 < 1)%nat) by lia.
  split; [apply table_at_one_table|]. split; [exact Hf|].
  exact (proj1 (To_empty_table (one_table []) 1 1 (table_at_one_table []) Hf)
           Z Type_int [4]).
Defined.

(** The state the next call is made in, computed from the call before. *)
Ltac next_state :=
  let L' := fresh "L" in
  let H := fresh "H" in
  intros L' H; vm_compute in H; injection H as <-.

Ltac table_in_slot :=
  split; [unfold lua_gettop; simpl; lia | exists 0%nat; split; reflexivity].

Ltac distinct_keys :=
  split; [repeat constructor; simpl; intuition discriminate
         | simpl; intuition discriminate].

(** Six calls: a vector is pushed and read as a map, a boolean is pushed and
    refused as a string, a literal is pushed, and the vector is refused as a
    vector; three slots are left. *)
Lemma ready_calls_return_witness :
  let calls :=
    [Call_Push (list Z) (Type_vector Type_int) [7; 8];
     Call_To (list (Z * Z)) (Type_map Z.ltb Type_int Type_int) 3 1 [];
     Call_Push bool Type_bool true;
     Call_To string Type_string 0 (-1) "";
     Call_Push_const_char_array 3 "hi";
     Call_To (list Z) (Type_vector Type_int) 3 1 []] in
  all_ready calls empty_state
  /\ contracts calls = 3
  /\ exists L',
       run calls empty_state = Ret L'
       /\ lua_gettop L' = lua_gettop empty_state + contracts calls.
Proof.
  intros calls.
  assert (Hall : all_ready calls empty_state).
  { apply all_ready_cons.
    { apply (ready_Push_vector Z Type_int Marshal_int).
      repeat constructor; unfold INT_MIN, INT_MAX; simpl; lia. }
    next_state. apply all_ready_cons.
    { apply (ready_To_map Z Z Z.ltb Type_int Type_int Reader_int Reader_int 3 1 [] _
               [(LInteger 1, LInteger 7); (LInteger 2, LInteger 8)]).
      - table_in_slot.
      - distinct_keys.
      - reflexivity.
      - simpl. lia. }
    next_state. apply all_ready_cons.
    { apply (ready_Push bool Type_bool Marshal_bool). exact I. }
    next_state. apply all_ready_cons.
    { apply (ready_To string Type_string Reader_string 0 (-1) "" _ 0%nat
               (LBoolean true)); reflexivity. }
    next_state. apply all_ready_cons.
    { apply ready_Push_const_char_array. }
    next_state. apply all_ready_cons.
    { apply (ready_To_vector Z Type_int Reader_int 3 1 [] _
               [(LInteger 1, LInteger 7); (LInteger 2, LInteger 8)]).
      - table_in_slot.
      - distinct_keys.
      - simpl. lia. }
    next_state. apply all_ready_nil. }
  split; [exact Hall|]. split; [reflexivity|].
  exact (ready_calls_return calls empty_state Hall).
Defined.
